(** * AISpace2: graph layout engine and CSP viewer protocol

    A shallow embedding of [GraphLayout.ts] (force, tree and relative layouts)
    and of [CSPViewer.ts] (the inbound and outbound message handling of the
    constraint-graph widget), with the properties of the layout engine and of
    the interaction protocol stated and settled on it.

    JavaScript numbers are IEEE 754 binary64 values: they are embedded as the
    primitive floats of the kernel, so that every evaluation below is the
    evaluation the browser performs. *)

From Stdlib Require Import Floats ZArith Lia.
From stdpp Require Import gmap strings list.

Local Open Scope float_scope.
Local Set Warnings "-register-all,-inexact-float,-clear-no-such-hyp".

(** ** JavaScript numbers and the [Math] functions the code calls *)

Module JS.

(** A property that holds a number or is [undefined]. *)
Definition value := option float.

(** [!v] for such a property: [undefined], [0], [-0] and [NaN] are falsy. *)
Definition falsy (v : value) : bool :=
  match v with
  | None => true
  | Some f => is_zero f || is_nan f
  end.

(** [ToNumber]: [undefined] becomes [NaN]. *)
Definition to_number (v : value) : float :=
  match v with
  | None => nan
  | Some f => f
  end.

(** [Math.max(a, b)]: [NaN] when either is; [+0] is larger than [-0]. *)
Definition Math_max (a b : float) : float :=
  if is_nan a || is_nan b then nan
  else if a <? b then b
  else if b <? a then a
  else match classify a with NZero => b | _ => a end.

(** [Math.min(a, b)]: [NaN] when either is; [-0] is smaller than [+0]. *)
Definition Math_min (a b : float) : float :=
  if is_nan a || is_nan b then nan
  else if a <? b then a
  else if b <? a then b
  else match classify a with PZero => b | _ => a end.

Definition MAX_SAFE_INTEGER : float := 9007199254740991.
Definition MIN_SAFE_INTEGER : float := -9007199254740991.

(** The number that is a (small) natural number, such as an array index
    or a length. *)
Definition of_nat (i : nat) : float := of_uint63 (Uint63.of_Z (Z.of_nat i)).

(** [isFinite]: neither [NaN] nor an infinity. *)
Definition isFinite (f : float) : bool :=
  negb (is_nan f) && negb (is_infinity f).

End JS.

(** ** The graph data model ([IGraphNode], [IGraphEdge], [Graph]) *)

Module NodeStyles.
Record t := mk {
  stroke : option string;
  strokeWidth : option float;
  radius : option float;
}.
Definition empty : t := mk None None None.
Definition set_stroke (v : option string) (s : t) : t :=
  mk v (strokeWidth s) (radius s).
Definition set_strokeWidth (v : option float) (s : t) : t :=
  mk (stroke s) v (radius s).
Definition set_radius (v : option float) (s : t) : t :=
  mk (stroke s) (strokeWidth s) v.
End NodeStyles.

Module EdgeStyles.
Record t := mk {
  stroke : option string;
  strokeWidth : option float;
  overlapped : bool;
  x1 : JS.value;
  y1 : JS.value;
  x2 : JS.value;
  y2 : JS.value;
}.
Definition empty : t := mk None None false None None None None.
Definition set_stroke (v : option string) (s : t) : t :=
  mk v (strokeWidth s) (overlapped s) (x1 s) (y1 s) (x2 s) (y2 s).
Definition set_strokeWidth (v : option float) (s : t) : t :=
  mk (stroke s) v (overlapped s) (x1 s) (y1 s) (x2 s) (y2 s).
Definition set_overlapped (v : bool) (s : t) : t :=
  mk (stroke s) (strokeWidth s) v (x1 s) (y1 s) (x2 s) (y2 s).
Definition set_coords (a1 b1 a2 b2 : JS.value) (s : t) : t :=
  mk (stroke s) (strokeWidth s) (overlapped s) a1 b1 a2 b2.
End EdgeStyles.

Module GraphNode.
Record t := mk {
  id : string;
  name : string;
  x : JS.value;
  y : JS.value;
  domain : option (list string);
  styles : NodeStyles.t;
}.
Definition set_x (v : JS.value) (n : t) : t :=
  mk (id n) (name n) v (y n) (domain n) (styles n).
Definition set_y (v : JS.value) (n : t) : t :=
  mk (id n) (name n) (x n) v (domain n) (styles n).
Definition set_domain (v : option (list string)) (n : t) : t :=
  mk (id n) (name n) (x n) (y n) v (styles n).
Definition set_styles (v : NodeStyles.t) (n : t) : t :=
  mk (id n) (name n) (x n) (y n) (domain n) v.
End GraphNode.

(** An edge refers to its end points: [source] and [target] are references to
    node objects, kept here as the positions of those objects in
    [graph.nodes]. [x1 .. y2] are the properties the tree layout writes on the
    edge object itself; the ones under [styles] are separate properties.
    [domain] is the property that [setDomains] writes on the object an id
    names, also when that object is an edge; an edge has none before. *)
Module GraphEdge.
Record t := mk {
  id : string;
  source : nat;
  target : nat;
  x1 : JS.value;
  y1 : JS.value;
  x2 : JS.value;
  y2 : JS.value;
  domain : option (list string);
  styles : EdgeStyles.t;
}.
Definition set_own_coords (a1 b1 a2 b2 : JS.value) (e : t) : t :=
  mk (id e) (source e) (target e) a1 b1 a2 b2 (domain e) (styles e).
Definition set_domain (v : option (list string)) (e : t) : t :=
  mk (id e) (source e) (target e) (x1 e) (y1 e) (x2 e) (y2 e) v (styles e).
Definition set_styles (v : EdgeStyles.t) (e : t) : t :=
  mk (id e) (source e) (target e) (x1 e) (y1 e) (x2 e) (y2 e) (domain e) v.
End GraphEdge.

(** [IGraphLayoutParams]. *)
Record IGraphLayoutParams := {
  width : float;
  height : float;
}.

(** A reference held by [idMap]: a node or an edge object of the graph. *)
Inductive Ref :=
  | NodeRef (i : nat)
  | EdgeRef (i : nat).

(** [Graph]: the node and edge arrays, and [idMap] from ids to the live
    objects. Objects are never removed, so an object is identified by its
    position in its array. *)
Module Graph.
Record t := mk {
  nodes : list GraphNode.t;
  edges : list GraphEdge.t;
  idMap : gmap string Ref;
}.
Definition set_nodes (v : list GraphNode.t) (g : t) : t :=
  mk v (edges g) (idMap g).
Definition set_edges (v : list GraphEdge.t) (g : t) : t :=
  mk (nodes g) v (idMap g).
End Graph.

(** ** [scaleNodePositions] and [relativeLayout] *)

Record Bounds := {
  minX : float;
  minY : float;
  maxX : float;
  maxY : float;
}.

(** The guard [!node.x || !node.y] of both loops of [scaleNodePositions]. *)
Definition skipped (node : GraphNode.t) : bool :=
  JS.falsy (GraphNode.x node) || JS.falsy (GraphNode.y node).

Definition initial_bounds : Bounds :=
  {| minX := JS.MAX_SAFE_INTEGER; minY := JS.MAX_SAFE_INTEGER;
     maxX := JS.MIN_SAFE_INTEGER; maxY := JS.MIN_SAFE_INTEGER |}.

(** One iteration of the first loop. *)
Definition bounds_step (b : Bounds) (node : GraphNode.t) : Bounds :=
  if skipped node then b
  else
    let nx := JS.to_number (GraphNode.x node) in
    let ny := JS.to_number (GraphNode.y node) in
    {| maxX := JS.Math_max nx (maxX b);
       maxY := JS.Math_max ny (maxY b);
       minX := JS.Math_min nx (minX b);
       minY := JS.Math_min ny (minY b) |}.

Definition bounding_box (nodes : list GraphNode.t) : Bounds :=
  fold_left bounds_step nodes initial_bounds.

(** The value the second loop assigns to a coordinate [v] of a node that is
    not skipped, [edgePadding] being 60. *)
Definition rescale (dim lo hi v : float) : float :=
  let edgePadding := 60 in
  ((dim - edgePadding * 2) * (v - lo)) / (hi - lo) + edgePadding.

(** One iteration of the second loop. *)
Definition scale_node (layoutParams : IGraphLayoutParams) (b : Bounds)
    (node : GraphNode.t) : GraphNode.t :=
  if skipped node then node
  else
    let nx := rescale (width layoutParams) (minX b) (maxX b)
                (JS.to_number (GraphNode.x node)) in
    let ny := rescale (height layoutParams) (minY b) (maxY b)
                (JS.to_number (GraphNode.y node)) in
    GraphNode.set_y (Some ny) (GraphNode.set_x (Some nx) node).

Definition scaleNodePositions (layoutParams : IGraphLayoutParams)
    (nodes : list GraphNode.t) : list GraphNode.t :=
  map (scale_node layoutParams (bounding_box nodes)) nodes.

Definition relativeLayout (graph : Graph.t) (layoutParams : IGraphLayoutParams)
    : Graph.t :=
  Graph.set_nodes (scaleNodePositions layoutParams (Graph.nodes graph)) graph.

(** ** [d3ForceLayout] *)

(** The step that copies the simulated position of [node] (a node of the
    copy) onto the node of the original graph at the same index. *)
Definition copy_position (orig node : GraphNode.t) : GraphNode.t :=
  let o1 := if JS.falsy (GraphNode.x orig)
            then GraphNode.set_x (GraphNode.x node) orig else orig in
  if JS.falsy (GraphNode.y o1)
  then GraphNode.set_y (GraphNode.y node) o1 else o1.

(** [graphCopy.nodes.forEach((node, i) => ...)] over [graph.nodes]. The copy
    has as many nodes as the graph; were it longer, [graph.nodes[i]] would be
    [undefined] and the loop would stop there with a [TypeError]. *)
Fixpoint copy_positions (orig copy : list GraphNode.t) : list GraphNode.t :=
  match copy, orig with
  | node :: copy', o :: orig' => copy_position o node :: copy_positions orig' copy'
  | _, _ => orig
  end.

(** The body of [graphCopy.nodes.forEach] inside the tick loop, with
    [edgePadding] 50. *)
Definition bound_node (layoutParams : IGraphLayoutParams) (node : GraphNode.t)
    : GraphNode.t :=
  let edgePadding := 50 in
  let nx := JS.Math_max edgePadding
              (JS.Math_min (width layoutParams - edgePadding)
                 (JS.to_number (GraphNode.x node))) in
  let ny := JS.Math_max edgePadding
              (JS.Math_min (height layoutParams - edgePadding)
                 (JS.to_number (GraphNode.y node))) in
  GraphNode.set_y (Some ny) (GraphNode.set_x (Some nx) node).

(** A node of the copy whose coordinates are numbers. *)
Definition numeric (node : GraphNode.t) : bool :=
  negb (is_nan (JS.to_number (GraphNode.x node)))
  && negb (is_nan (JS.to_number (GraphNode.y node))).

(** A node that lies on the canvas, at least 50 from every side. *)
Definition in_canvas (layoutParams : IGraphLayoutParams) (node : GraphNode.t)
    : bool :=
  match GraphNode.x node, GraphNode.y node with
  | Some vx, Some vy =>
      (50 <=? vx) && (vx <=? width layoutParams - 50)
      && (50 <=? vy) && (vy <=? height layoutParams - 50)
  | _, _ => false
  end.

Section ForceLayout.

(** D3's force simulation is a library outside the repository. [Sim] is
    its internal state (forces, velocities, alpha); [forceSimulation] is
    the JSON copy of the graph followed by the construction of the
    simulation over the copy's nodes, and yields those nodes;
    [tick] is [forceSimulation.tick()], which moves the copy's nodes. *)
Variable Sim : Type.
Variable forceSimulation :
  Graph.t -> IGraphLayoutParams -> Sim * list GraphNode.t.
Variable tick : Sim -> list GraphNode.t -> Sim * list GraphNode.t.

(** One iteration of the [for] loop: a tick, then the bounding of every
    node of the copy. *)
Definition simulation_step (layoutParams : IGraphLayoutParams)
    (st : Sim * list GraphNode.t) : Sim * list GraphNode.t :=
  let st' := tick (fst st) (snd st) in
  (fst st', map (bound_node layoutParams) (snd st')).

(** [for (let i = 0; i < ticksToSimulate; i++)], by the number of
    iterations that remain. *)
Fixpoint run_ticks (remaining : nat) (layoutParams : IGraphLayoutParams)
    (st : Sim * list GraphNode.t) : Sim * list GraphNode.t :=
  match remaining with
  | O => st
  | S r => run_ticks r layoutParams (simulation_step layoutParams st)
  end.

Definition ticksToSimulate : nat := 300.

(** The nodes of the copy when the loop ends. *)
Definition simulated_nodes (graph : Graph.t)
    (layoutParams : IGraphLayoutParams) : list GraphNode.t :=
  snd (run_ticks ticksToSimulate layoutParams
         (forceSimulation graph layoutParams)).

Definition d3ForceLayout (graph : Graph.t)
    (layoutParams : IGraphLayoutParams) : Graph.t :=
  let graphCopy_nodes := simulated_nodes graph layoutParams in
  let scaled := scaleNodePositions layoutParams (Graph.nodes graph) in
  Graph.set_nodes (copy_positions scaled graphCopy_nodes) graph.

End ForceLayout.

(** A small stand-in for D3's simulation, used to evaluate the layout on
    concrete graphs. Its state is one velocity per node. It starts the nodes
    of the copy that have no position on a lattice, gives every node a
    velocity towards the centre of the canvas, and on every tick halves the
    velocities and moves the nodes by them. *)
Module DriftSimulation.

Definition Sim : Type := list (float * float).

Definition place (i : nat) (node : GraphNode.t) : GraphNode.t :=
  let n1 := match GraphNode.x node with
            | None => GraphNode.set_x (Some (JS.of_nat i * 100)) node
            | Some _ => node
            end in
  match GraphNode.y n1 with
  | None => GraphNode.set_y (Some (JS.of_nat ((2 * i) mod 5) * 100)) n1
  | Some _ => n1
  end.

Definition velocity (layoutParams : IGraphLayoutParams) (node : GraphNode.t)
    : float * float :=
  ((width layoutParams / 2 - JS.to_number (GraphNode.x node)) / 4,
   (height layoutParams / 2 - JS.to_number (GraphNode.y node)) / 4).

Definition forceSimulation (graph : Graph.t)
    (layoutParams : IGraphLayoutParams) : Sim * list GraphNode.t :=
  let placed := imap place (Graph.nodes graph) in
  (map (velocity layoutParams) placed, placed).

Definition decay (v : float * float) : float * float :=
  (fst v * 0.5, snd v * 0.5).

(** A coordinate that would not be a number is put at the origin. *)
Definition number_or_origin (v : float) : float :=
  if is_nan v then 0 else v.

Definition move (v : float * float) (node : GraphNode.t) : GraphNode.t :=
  GraphNode.set_y
    (Some (number_or_origin (JS.to_number (GraphNode.y node) + snd v)))
    (GraphNode.set_x
       (Some (number_or_origin (JS.to_number (GraphNode.x node) + fst v)))
       node).

Definition tick (vs : Sim) (nodes : list GraphNode.t)
    : Sim * list GraphNode.t :=
  let vs' := map decay vs in
  (vs', zip_with move (vs' ++ replicate (length nodes - length vs') (0, 0))
          nodes).

End DriftSimulation.

(** ** [d3TreeLayout] *)

(** [a === b] on properties that hold a number or are [undefined]. *)
Definition strict_eq (a b : JS.value) : bool :=
  match a, b with
  | None, None => true
  | Some u, Some v => u =? v
  | _, _ => false
  end.

(** [IHierarchyNode]: the graph node it stands for and its children. The
    objects of [map] are created once per key and never replaced, and
    [children] holds references to them: a child is kept as its key. *)
Record IHierarchyNode := {
  hnode_node : option nat;
  hnode_children : list string;
}.

Abbreviation HierarchyMap := (gmap string IHierarchyNode).

(** The id of the node object a reference points at. *)
Definition id_of (nodes : list GraphNode.t) (ref : nat) : string :=
  match nodes !! ref with
  | Some node => GraphNode.id node
  | None => ""
  end.

(** [nodeMap]: the loop [nodeMap[node.id] = node] over [graph.nodes]. *)
Definition build_nodeMap (nodes : list GraphNode.t) : gmap string nat :=
  fold_left (fun m '(i, node) => <[GraphNode.id node := i]> m)
    (imap pair nodes) ∅.

(** [graph.nodes.find(n => n.id === opts.rootId)], then the first node. *)
Definition find_root (nodes : list GraphNode.t) (rootId : option string)
    : nat :=
  match rootId with
  | None => 0%nat
  | Some r =>
      match list_find (fun n => GraphNode.id n = r) nodes with
      | Some (i, _) => i
      | None => 0%nat
      end
  end.

(** The state of the loop over [graph.edges]: [map] and [nodeMapInTree]
    (of which only the keys are read). *)
Record TreeBuild := {
  tb_map : HierarchyMap;
  tb_inTree : gset string;
}.

(** [if (!(key in map)) map[key] = { node: nodeMap[key], children: [] }].
    Ids are taken not to be names that every object inherits, for which
    [in] holds of an empty object too. *)
Definition ensure (nodeMap : gmap string nat) (key : string)
    (map : HierarchyMap) : HierarchyMap :=
  match map !! key with
  | Some _ => map
  | None => <[key := {| hnode_node := nodeMap !! key;
                        hnode_children := [] |}]> map
  end.

Definition children_of (map : HierarchyMap) (key : string) : list string :=
  match map !! key with
  | Some d => hnode_children d
  | None => []
  end.

(** [map[key].children.push(map[child])]. *)
Definition push_child (key child : string) (map : HierarchyMap)
    : HierarchyMap :=
  match map !! key with
  | Some d => <[key := {| hnode_node := hnode_node d;
                          hnode_children := hnode_children d ++ [child] |}]> map
  | None => map
  end.

(** The body of the loop over [graph.edges], for an edge whose end points
    have the ids [source] and [target]. *)
Definition attach (nodeMap : gmap string nat) (st : TreeBuild)
    (source target : string) : TreeBuild :=
  let map1 := ensure nodeMap target (tb_map st) in
  let map2 := ensure nodeMap source map1 in
  if bool_decide (source ∈ children_of map2 target)
     || bool_decide (target ∈ tb_inTree st)
  then {| tb_map := map2; tb_inTree := tb_inTree st |}
  else {| tb_map := push_child source target map2;
          tb_inTree := {[target]} ∪ tb_inTree st |}.

Definition attach_edge (nodes : list GraphNode.t) (nodeMap : gmap string nat)
    (st : TreeBuild) (edge : GraphEdge.t) : TreeBuild :=
  attach nodeMap st (id_of nodes (GraphEdge.source edge))
    (id_of nodes (GraphEdge.target edge)).

(** [map] and [nodeMapInTree] when the loop over the edges ends; the root
    is the node at [root]. *)
Definition build_hierarchy (graph : Graph.t) (root : nat) : TreeBuild :=
  let nodes := Graph.nodes graph in
  let rootData := {| hnode_node := Some root; hnode_children := [] |} in
  fold_left (attach_edge nodes (build_nodeMap nodes)) (Graph.edges graph)
    {| tb_map := {[ id_of nodes root := rootData ]}; tb_inTree := ∅ |}.

(** A node of the tree that [d3.hierarchy] makes: the key of its datum, the
    graph node of the datum, its depth, the coordinates [d3.tree] assigns
    (absent before), and its children. *)
Inductive HNode :=
  | hnode (key : string) (node : option nat) (depth : nat)
      (hx hy : JS.value) (children : list HNode).

Definition HNode_node (n : HNode) : option nat :=
  match n with hnode _ r _ _ _ _ => r end.
Definition HNode_depth (n : HNode) : nat :=
  match n with hnode _ _ d _ _ _ => d end.
Definition HNode_x (n : HNode) : JS.value :=
  match n with hnode _ _ _ u _ _ => u end.
Definition HNode_y (n : HNode) : JS.value :=
  match n with hnode _ _ _ _ v _ => v end.
Definition HNode_children (n : HNode) : list HNode :=
  match n with hnode _ _ _ _ _ cs => cs end.

(** [d3.hierarchy(rootData)]: the datum under [key] and, recursively, its
    children. It does not return when [children] loops back; [fuel] bounds
    the depth explored, and [None] says the bound was reached. *)
Fixpoint hierarchy (fuel : nat) (map : HierarchyMap) (key : string)
    (depth : nat) : option HNode :=
  match fuel with
  | O => None
  | S fuel' =>
      match map !! key with
      | None => None
      | Some d =>
          match mapM (fun k => hierarchy fuel' map k (S depth))
                  (hnode_children d) with
          | Some cs => Some (hnode key (hnode_node d) depth None None cs)
          | None => None
          end
      end
  end.

Fixpoint HNode_size (n : HNode) : nat :=
  match n with
  | hnode _ _ _ _ _ cs => S (list_sum (map HNode_size cs))
  end.

(** [root.each] and [root.descendants()]: the nodes level by level, each
    level from left to right. *)
Fixpoint each_level (fuel : nat) (current : list HNode) : list HNode :=
  match fuel with
  | O => []
  | S fuel' =>
      match current with
      | [] => []
      | _ => current ++ each_level fuel' (flat_map HNode_children current)
      end
  end.

Definition descendants (root : HNode) : list HNode :=
  each_level (HNode_size root) [root].

(** [node.prop = ...] on the graph node a datum refers to. A datum whose
    node is [undefined] would make the assignment throw; it does not arise
    for edges whose end points are nodes of the graph. *)
Definition update_node (ref : option nat) (f : GraphNode.t -> GraphNode.t)
    (nodes : list GraphNode.t) : list GraphNode.t :=
  match ref with
  | Some i => alter f i nodes
  | None => nodes
  end.

Definition node_x (nodes : list GraphNode.t) (ref : nat) : JS.value :=
  match nodes !! ref with Some n => GraphNode.x n | None => None end.
Definition node_y (nodes : list GraphNode.t) (ref : nat) : JS.value :=
  match nodes !! ref with Some n => GraphNode.y n | None => None end.

(** The callback of [root.each]: record the node in the list of its level
    and place it from the coordinates of the tree. *)
Definition place_tree_node (layoutParams : IGraphLayoutParams)
    (heightDivision : float)
    (st : list (list (option nat)) * list GraphNode.t) (n : HNode)
    : list (list (option nat)) * list GraphNode.t :=
  let levels := alter (fun l => l ++ [HNode_node n]) (HNode_depth n) (fst st) in
  let nx := JS.to_number (HNode_x n) * width layoutParams in
  let ny := JS.to_number (HNode_y n)
              * (height layoutParams - heightDivision - heightDivision)
            + heightDivision in
  (levels,
   update_node (HNode_node n)
     (fun node => GraphNode.set_y (Some ny) (GraphNode.set_x (Some nx) node))
     (snd st)).

(** [sameLevelNodes.indexOf(node)]. *)
Definition indexOf (l : list (option nat)) (ref : option nat) : float :=
  match list_find (fun r => r = ref) l with
  | Some (i, _) => JS.of_nat i
  | None => -1
  end.

(** The callback of [sameLeveNodesList.forEach]. *)
Definition layout_level (layoutParams : IGraphLayoutParams)
    (nodes : list GraphNode.t) (sameLevelNodes : list (option nat))
    : list GraphNode.t :=
  let newradius :=
    (width layoutParams / JS.of_nat (length sameLevelNodes)) / 2
    - 15 in
  let set_radius r node :=
    GraphNode.set_styles
      (NodeStyles.set_radius (Some r) (GraphNode.styles node)) node in
  if newradius <=? 0 then
    fold_left (fun ns ref => update_node ref (set_radius 1) ns)
      sameLevelNodes nodes
  else
    fold_left
      (fun ns ref =>
         let ns1 := if 50 <=? newradius
                    then update_node ref (set_radius 50) ns else ns in
         let ns2 := if (newradius <? 50) && (0 <? newradius)
                    then update_node ref (set_radius newradius) ns1 else ns1 in
         update_node ref
           (GraphNode.set_x
              (Some ((2 * indexOf sameLevelNodes ref + 1) * (newradius + 15))))
           ns2)
      sameLevelNodes nodes.

(** [Math.pow(v, 2)]. *)
Definition Math_pow_2 (v : float) : float := v * v.

(** The first loop over the edges: the end points' coordinates, written on
    the edge object. *)
Definition set_edge_ends (nodes : list GraphNode.t) (edge : GraphEdge.t)
    : GraphEdge.t :=
  GraphEdge.set_own_coords
    (node_x nodes (GraphEdge.source edge)) (node_y nodes (GraphEdge.source edge))
    (node_x nodes (GraphEdge.target edge)) (node_y nodes (GraphEdge.target edge))
    edge.

(** The test of the double loop on [e1] and [e2]. *)
Definition overlapping (e1 e2 : GraphEdge.t) : bool :=
  Nat.eqb (GraphEdge.source e1) (GraphEdge.target e2)
  && Nat.eqb (GraphEdge.target e1) (GraphEdge.source e2)
  && strict_eq (EdgeStyles.x1 (GraphEdge.styles e1))
       (EdgeStyles.x2 (GraphEdge.styles e2))
  && strict_eq (EdgeStyles.x2 (GraphEdge.styles e1))
       (EdgeStyles.x1 (GraphEdge.styles e2)).

Definition with_styles (f : EdgeStyles.t -> EdgeStyles.t) (e : GraphEdge.t)
    : GraphEdge.t :=
  GraphEdge.set_styles (f (GraphEdge.styles e)) e.

(** The direction cosine and sine of the line from [(xa, ya)] to
    [(xb, yb)], as the code names them. *)
Definition direction (xa ya xb yb : float) : float * float :=
  let len := sqrt (Math_pow_2 (yb - ya) + Math_pow_2 (xb - xa)) in
  ((yb - ya) / len, (xb - xa) / len).

(** The body of the double loop for [e1 = edges[i]] and [e2 = edges[j]]:
    the writes on [e2] come before those on [e1]. *)
Definition split_pair (nodes : list GraphNode.t) (i j : nat)
    (edges : list GraphEdge.t) : list GraphEdge.t :=
  match edges !! i, edges !! j with
  | Some e1, Some e2 =>
      if overlapping e1 e2 then
        let xa := JS.to_number (node_x nodes (GraphEdge.source e1)) in
        let ya := JS.to_number (node_y nodes (GraphEdge.source e1)) in
        let xb := JS.to_number (node_x nodes (GraphEdge.target e1)) in
        let yb := JS.to_number (node_y nodes (GraphEdge.target e1)) in
        let radius := 5 in
        let cos := fst (direction xa ya xb yb) in
        let sin := snd (direction xa ya xb yb) in
        let marked :=
          alter (with_styles (EdgeStyles.set_overlapped true)) j
            (alter (with_styles (EdgeStyles.set_overlapped true)) i edges) in
        let moved2 :=
          alter (with_styles (EdgeStyles.set_coords
                   (Some (cos * radius + xb)) (Some (yb - sin * radius))
                   (Some (cos * radius + xa)) (Some (ya - sin * radius))))
            j marked in
        alter (with_styles (EdgeStyles.set_coords
                 (Some (xa - cos * radius)) (Some (sin * radius + ya))
                 (Some (xb - cos * radius)) (Some (sin * radius + yb))))
          i moved2
      else edges
  | _, _ => edges
  end.

(** [graph.edges.forEach(e1 => graph.edges.forEach(e2 => ...))]. *)
Definition split_overlapped (nodes : list GraphNode.t)
    (edges : list GraphEdge.t) : list GraphEdge.t :=
  let idx := seq 0 (length edges) in
  fold_left (fun es '(i, j) => split_pair nodes i j es)
    (list_prod idx idx) edges.

Section TreeLayout.

(** [d3.tree()] is D3's tidy-tree layout, a library outside the
    repository: it assigns [x] and [y], in the range 0 to 1, to the nodes
    of the tree it is given. *)
Variable d3_tree : HNode -> HNode.

(** What the promise of the layout does, once the hierarchy is there. *)
Definition place_tree (graph : Graph.t) (layoutParams : IGraphLayoutParams)
    (rootData : HNode) : Graph.t :=
  let root := d3_tree rootData in
  let maxDepth :=
    fold_left (fun m n => if Nat.ltb m (HNode_depth n)
                          then HNode_depth n else m)
      (descendants root) 0%nat in
  let heightDivision :=
    height layoutParams / (JS.of_nat maxDepth + 2) in
  let placed :=
    fold_left (place_tree_node layoutParams heightDivision)
      (descendants root)
      (replicate (S maxDepth) [], Graph.nodes graph) in
  let nodes := fold_left (layout_level layoutParams) (fst placed)
                 (snd placed) in
  let edges := map (set_edge_ends nodes) (Graph.edges graph) in
  Graph.mk nodes (split_overlapped nodes edges) (Graph.idMap graph).

(** The layout function [d3TreeLayout(opts)] returns. [None] says that
    [d3.hierarchy] did not return within [fuel] levels. *)
Definition d3TreeLayout (fuel : nat) (rootId : option string)
    (graph : Graph.t) (layoutParams : IGraphLayoutParams)
    : option Graph.t :=
  match Graph.nodes graph with
  | [] => Some graph
  | _ =>
      let root := find_root (Graph.nodes graph) rootId in
      let built := build_hierarchy graph root in
      match hierarchy fuel (tb_map built)
              (id_of (Graph.nodes graph) root) 0 with
      | Some rootData => Some (place_tree graph layoutParams rootData)
      | None => None
      end
  end.

End TreeLayout.

(** A stand-in for [d3.tree()], used to evaluate the layout on concrete
    graphs: [y] is the depth over the largest depth (over 1 for a single
    node) and [x] is the middle of the range, which is what D3 computes for
    a tree that is a single path. *)
Module SimpleTree.

Fixpoint max_depth (n : HNode) : nat :=
  match n with
  | hnode _ _ d _ _ cs => fold_right Nat.max d (map max_depth cs)
  end.

Fixpoint assign (deepest : nat) (n : HNode) : HNode :=
  match n with
  | hnode k r d _ _ cs =>
      let ky := 1 / JS.of_nat (Nat.max deepest 1) in
      hnode k r d (Some 0.5) (Some (JS.of_nat d * ky))
        (map (assign deepest) cs)
  end.

Definition d3_tree (root : HNode) : HNode := assign (max_depth root) root.

End SimpleTree.

(** ** [GraphLayout] *)

(** [GraphLayout]: the class that holds the two layout functions. [R] is
    what a layout function leaves. *)
Module GraphLayout.
Section Class.
Context {R : Type}.

Definition LayoutFunction : Type := Graph.t -> IGraphLayoutParams -> R.

Record t := {
  setupLayoutFunction : LayoutFunction;
  relayoutLayoutFunction : LayoutFunction;
}.

(** The constructor: [relayout || this.setupLayoutFunction], where
    [relayout] is a function or [undefined]. *)
Definition new (setup : LayoutFunction) (relayout : option LayoutFunction)
    : t :=
  {| setupLayoutFunction := setup;
     relayoutLayoutFunction := match relayout with
                               | Some f => f
                               | None => setup
                               end |}.

Definition setup (layout : t) (graph : Graph.t)
    (layoutParams : IGraphLayoutParams) : R :=
  setupLayoutFunction layout graph layoutParams.

Definition relayout (layout : t) (graph : Graph.t)
    (layoutParams : IGraphLayoutParams) : R :=
  relayoutLayoutFunction layout graph layoutParams.

End Class.
Arguments t : clear implicits.
End GraphLayout.

(** ** [CSPViewer]: the messages of the constraint-graph widget *)

(** Messages from the controller. The guards of [SearchVisualizerEvents]
    ([isHighlightArcsEvent] and the others) discriminate them by their tag;
    [OtherEvent] is a message none of the guards accepts. *)
Inductive IEvent :=
  | HighlightArcsEvent (arcIds : option (list string))
      (colour : option string) (style : string)
  | SetDomainsEvent (nodeIds : list string) (domains : list (list string))
  | HighlightNodesEvent (nodeIds : list string) (colour : option string)
  | ChooseDomainSplitEvent (domain : list string)
  | OutputEvent (text : string)
  | OtherEvent.

(** Messages to the controller ([this.send]). *)
Inductive Outbound :=
  | initial_render
  | domain_split (domain : option (list string))
  | fine_step_click
  | step_click
  | auto_step_click
  | arc_click (constId : nat) (varName : string)
  | var_click (varName : string).

(** How a handler ends: it returns, or a [TypeError] is thrown out of it
    (a property read or written on [undefined]). *)
Inductive Completion :=
  | Returns
  | TypeError.

(** The data of the Vue component mounted by [render]. *)
Record Vue := {
  output : option string;
}.

(** The view: its graph, the component ([undefined] before the first
    render) and the [previouslyRendered] property of its model, which the
    view only reads. *)
Record CSPViewer := {
  graph : Graph.t;
  vue : option Vue;
  previouslyRendered : bool;
}.

Definition set_graph (g : Graph.t) (v : CSPViewer) : CSPViewer :=
  {| graph := g; vue := vue v; previouslyRendered := previouslyRendered v |}.

(** A string used as a condition: [undefined], [null] and the empty string
    are falsy. *)
Definition truthy (s : option string) : bool :=
  match s with
  | Some (String _ _) => true
  | _ => false
  end.

(** [object.styles.stroke] of the object a reference points at. *)
Definition stroke_of (g : Graph.t) (r : Ref) : option string :=
  match r with
  | NodeRef i =>
      match Graph.nodes g !! i with
      | Some n => NodeStyles.stroke (GraphNode.styles n)
      | None => None
      end
  | EdgeRef i =>
      match Graph.edges g !! i with
      | Some e => EdgeStyles.stroke (GraphEdge.styles e)
      | None => None
      end
  end.

(** [this.vue.$set(object.styles, "stroke", stroke)] followed by
    [this.vue.$set(object.styles, "strokeWidth", strokeWidth)]. *)
Definition set_stroke (r : Ref) (stroke : option string) (strokeWidth : float)
    (g : Graph.t) : Graph.t :=
  match r with
  | NodeRef i =>
      Graph.set_nodes
        (alter (fun n => GraphNode.set_styles
                  (NodeStyles.set_strokeWidth (Some strokeWidth)
                     (NodeStyles.set_stroke stroke (GraphNode.styles n))) n)
           i (Graph.nodes g)) g
  | EdgeRef i =>
      Graph.set_edges
        (alter (with_styles (fun s =>
                  EdgeStyles.set_strokeWidth (Some strokeWidth)
                    (EdgeStyles.set_stroke stroke s)))
           i (Graph.edges g)) g
  end.

(** The body of the loop of [highlightArcs] over all the edges. *)
Definition highlight_edge (colour : option string) (strokeWidth : float)
    (edge : GraphEdge.t) : GraphEdge.t :=
  let stroke := if truthy colour then colour
                else EdgeStyles.stroke (GraphEdge.styles edge) in
  with_styles (fun s =>
    EdgeStyles.set_strokeWidth (Some strokeWidth)
      (EdgeStyles.set_stroke stroke s)) edge.

(** The loop of [highlightArcs] over [event.arcIds]. *)
Fixpoint highlight_named_arcs (arcIds : list string) (colour : option string)
    (strokeWidth : float) (g : Graph.t) : Graph.t * Completion :=
  match arcIds with
  | [] => (g, Returns)
  | arcId :: rest =>
      match Graph.idMap g !! arcId with
      | None => (g, TypeError)
      | Some r =>
          let stroke := if truthy colour then colour else stroke_of g r in
          highlight_named_arcs rest colour strokeWidth
            (set_stroke r stroke strokeWidth g)
      end
  end.

(** [highlightArcs(event)]. Without a component, the first [this.vue.$set]
    throws. *)
Definition highlightArcs (arcIds : option (list string))
    (colour : option string) (style : string) (view : CSPViewer)
    : CSPViewer * Completion :=
  let strokeWidth := if String.eqb style "bold" then 7 else 4 in
  let g := graph view in
  match arcIds with
  | None =>
      match vue view, Graph.edges g with
      | None, _ :: _ => (view, TypeError)
      | _, _ =>
          (set_graph
             (Graph.set_edges
                (map (highlight_edge colour strokeWidth) (Graph.edges g)) g)
             view, Returns)
      end
  | Some ids =>
      match vue view, ids with
      | None, _ :: _ => (view, TypeError)
      | _, _ =>
          let r := highlight_named_arcs ids colour strokeWidth g in
          (set_graph (fst r) view, snd r)
      end
  end.

(** The loop of [setDomains], from index [i] on:
    [this.graph.idMap[event.nodeIds[i]].domain = event.domains[i]]. The
    cast of the object to a node is erased when the code is compiled: an id
    that names an edge puts the domain on that edge object. *)
Fixpoint setDomains_from (i : nat) (nodeIds : list string)
    (domains : list (list string)) (g : Graph.t) : Graph.t * Completion :=
  match nodeIds with
  | [] => (g, Returns)
  | nodeId :: rest =>
      match Graph.idMap g !! nodeId with
      | None => (g, TypeError)
      | Some (NodeRef k) =>
          setDomains_from (S i) rest domains
            (Graph.set_nodes
               (alter (GraphNode.set_domain (domains !! i)) k (Graph.nodes g))
               g)
      | Some (EdgeRef k) =>
          setDomains_from (S i) rest domains
            (Graph.set_edges
               (alter (GraphEdge.set_domain (domains !! i)) k (Graph.edges g))
               g)
      end
  end.

Definition setDomains (nodeIds : list string) (domains : list (list string))
    (view : CSPViewer) : CSPViewer * Completion :=
  let r := setDomains_from 0 nodeIds domains (graph view) in
  (set_graph (fst r) view, snd r).

(** The loop of [highlightNodes]. *)
Fixpoint highlight_named_nodes (nodeIds : list string)
    (colour : option string) (g : Graph.t) : Graph.t * Completion :=
  match nodeIds with
  | [] => (g, Returns)
  | nodeId :: rest =>
      match Graph.idMap g !! nodeId with
      | None => (g, TypeError)
      | Some r => highlight_named_nodes rest colour (set_stroke r colour 2 g)
      end
  end.

Definition highlightNodes (nodeIds : list string) (colour : option string)
    (view : CSPViewer) : CSPViewer * Completion :=
  match vue view, nodeIds with
  | None, _ :: _ => (view, TypeError)
  | _, _ =>
      let r := highlight_named_nodes nodeIds colour (graph view) in
      (set_graph (fst r) view, snd r)
  end.

(** [domainString.split(",")]; the comma is the character of code 44. *)
Fixpoint split_comma (s : string) : list string :=
  match s with
  | EmptyString => [EmptyString]
  | String c rest =>
      if Ascii.eqb c (Ascii.ascii_of_nat 44) then EmptyString :: split_comma rest
      else
        match split_comma rest with
        | piece :: pieces => String c piece :: pieces
        | [] => [String c EmptyString]
        end
  end.

(** A string without a comma. *)
Fixpoint no_comma (s : string) : bool :=
  match s with
  | EmptyString => true
  | String c rest => negb (Ascii.eqb c (Ascii.ascii_of_nat 44)) && no_comma rest
  end.

(** What a handler leaves: the view, the messages sent, how it ended. *)
Record Handled := {
  after : CSPViewer;
  sent : list Outbound;
  completion : Completion;
}.

Definition handled (r : CSPViewer * Completion) : Handled :=
  {| after := fst r; sent := []; completion := snd r |}.

Section Viewer.

(** [window.prompt(message, default)]: what the user types, or [None]
    when the user cancels. *)
Variable window_prompt : string -> string -> option string.

(** The listener of ["view:msg"] installed by [initialize]. *)
Definition on_msg (view : CSPViewer) (event : IEvent) : Handled :=
  match event with
  | HighlightArcsEvent arcIds colour style =>
      handled (highlightArcs arcIds colour style view)
  | SetDomainsEvent nodeIds domains =>
      handled (setDomains nodeIds domains view)
  | HighlightNodesEvent nodeIds colour =>
      handled (highlightNodes nodeIds colour view)
  | ChooseDomainSplitEvent domain =>
      let domainString :=
        window_prompt
          "Choose domain for first split. Cancel to choose a default split."
          (String.concat "," domain) in
      let newDomain :=
        match domainString with
        | Some s => Some (List.filter (fun d => truthy (Some d))
                            (split_comma s))
        | None => None
        end in
      {| after := view; sent := [domain_split newDomain];
         completion := Returns |}
  | OutputEvent text =>
      match vue view with
      | Some _ =>
          {| after := {| graph := graph view;
                         vue := Some {| output := Some text |};
                         previouslyRendered := previouslyRendered view |};
             sent := []; completion := Returns |}
      | None => {| after := view; sent := []; completion := TypeError |}
      end
  | OtherEvent => {| after := view; sent := []; completion := Returns |}
  end.

(** D3's force simulation, as for [d3ForceLayout]. *)
Variable Sim : Type.
Variable forceSimulation :
  Graph.t -> IGraphLayoutParams -> Sim * list GraphNode.t.
Variable tick : Sim -> list GraphNode.t -> Sim * list GraphNode.t.

(** Modelled from the spec: the width and height that the mounted component
    measures of its container, which are the layout params of the calls of
    its layout. *)
Variable measured : IGraphLayoutParams.

(** Modelled from the spec:
    [new CSPGraphVisualizer({ data: { graph: this.graph, layout: new
    GraphLayout(d3ForceLayout()), ..., output: null } }).$mount(this.el)].
    The component is not part of these sources. By the contract stated with
    [GraphLayout], the [setup] of the layout it is given is called on the
    graph it is given, right before the graph is displayed: mounting lays
    out the graph of the view, which the component shares. *)
Definition mount (view : CSPViewer) : CSPViewer :=
  {| graph := GraphLayout.setup
                (GraphLayout.new (d3ForceLayout Sim forceSimulation tick)
                   None)
                (graph view) measured;
     vue := Some {| output := None |};
     previouslyRendered := previouslyRendered view |}.

(** The callback [render] schedules: mount a new component, then, when
    the model says the view was not rendered before, send
    [initial_render] and highlight every arc in blue. *)
Definition render (view : CSPViewer) : Handled :=
  let mounted := mount view in
  if negb (previouslyRendered view) then
    let r := highlightArcs None (Some "blue") "normal" mounted in
    {| after := fst r; sent := [initial_render]; completion := snd r |}
  else {| after := mounted; sent := []; completion := Returns |}.

(** What happens to a view: a message arrives, or the view is rendered. *)
Inductive Activity :=
  | Message (event : IEvent)
  | Display.

Definition perform (view : CSPViewer) (a : Activity) : Handled :=
  match a with
  | Message event => on_msg view event
  | Display => render view
  end.

(** The host delivers every message and every render on its own: an
    exception thrown out of one handler ends that handler only. *)
Fixpoint run (view : CSPViewer) (activities : list Activity)
    : CSPViewer * list Outbound :=
  match activities with
  | [] => (view, [])
  | a :: rest =>
      let h := perform view a in
      let r := run (after h) rest in
      (fst r, sent h ++ snd r)
  end.

End Viewer.

(** The model's [previouslyRendered] property is written outside the view
    (it is synchronised with the controller). *)
Definition model_set_previouslyRendered (b : bool) (view : CSPViewer)
    : CSPViewer :=
  {| graph := graph view; vue := vue view; previouslyRendered := b |}.

(** The invariant of [Graph] that the handlers rely on: [idMap] sends an
    id to a live node or edge, and that object carries the id. *)
Definition Graph_wf (g : Graph.t) : Prop :=
  forall id r,
    Graph.idMap g !! id = Some r ->
    match r with
    | NodeRef k => exists n, Graph.nodes g !! k = Some n /\ GraphNode.id n = id
    | EdgeRef k => exists e, Graph.edges g !! k = Some e /\ GraphEdge.id e = id
    end.

(** What the loop over the edges keeps true: a child is recorded in
    [nodeMapInTree], no datum lists a child twice, no two data list the same
    child, and no two distinct data list each other. *)
Record hierarchy_inv (st : TreeBuild) : Prop := {
  inv_inTree : forall a b,
    b ∈ children_of (tb_map st) a -> b ∈ tb_inTree st;
  inv_NoDup : forall a, NoDup (children_of (tb_map st) a);
  inv_parent : forall a a' b,
    b ∈ children_of (tb_map st) a -> b ∈ children_of (tb_map st) a' ->
    a = a';
  inv_one_way : forall a b,
    a <> b -> b ∈ children_of (tb_map st) a ->
    a ∈ children_of (tb_map st) b -> False;
}.

(** The overlap flag and the end points an edge is drawn between. *)
Definition drawn (e : GraphEdge.t)
    : bool * (JS.value * JS.value) * (JS.value * JS.value) :=
  (EdgeStyles.overlapped (GraphEdge.styles e),
   (EdgeStyles.x1 (GraphEdge.styles e), EdgeStyles.y1 (GraphEdge.styles e)),
   (EdgeStyles.x2 (GraphEdge.styles e), EdgeStyles.y2 (GraphEdge.styles e))).

(** ** Graphs and views on which the definitions are evaluated *)

Module Examples.

Definition node (id : string) (x y : JS.value) : GraphNode.t :=
  GraphNode.mk id id x y None NodeStyles.empty.

Definition edge (id : string) (source target : nat) : GraphEdge.t :=
  GraphEdge.mk id source target None None None None None EdgeStyles.empty.

Definition position (n : GraphNode.t) : JS.value * JS.value :=
  (GraphNode.x n, GraphNode.y n).

Definition positions (g : Graph.t) : list (JS.value * JS.value) :=
  map position (Graph.nodes g).

Definition canvas : IGraphLayoutParams := {| width := 500; height := 500 |}.

Definition narrow : IGraphLayoutParams := {| width := 80; height := 500 |}.

(** Two nodes that both have a position. *)
Definition pinned : Graph.t :=
  Graph.mk [node "a" (Some 100) (Some 100); node "b" (Some 200) (Some 300)]
    [] (list_to_map [("a", NodeRef 0); ("b", NodeRef 1)]).

(** Three nodes without a position. *)
Definition fresh : Graph.t :=
  Graph.mk [node "a" None None; node "b" None None; node "c" None None]
    [edge "ab" 0 1]
    (list_to_map [("a", NodeRef 0); ("b", NodeRef 1); ("c", NodeRef 2);
                  ("ab", EdgeRef 0)]).

(** Two nodes on one vertical line. *)
Definition column : Graph.t :=
  Graph.mk [node "a" (Some 100) (Some 100); node "b" (Some 100) (Some 300)]
    [] (list_to_map [("a", NodeRef 0); ("b", NodeRef 1)]).

(** A node at [x = 0] between two nodes that have a position. *)
Definition origin : Graph.t :=
  Graph.mk [node "a" (Some 100) (Some 100); node "o" (Some 0) (Some 40);
            node "b" (Some 200) (Some 300)]
    [] (list_to_map [("a", NodeRef 0); ("o", NodeRef 1); ("b", NodeRef 2)]).

Definition force_layout : Graph.t -> IGraphLayoutParams -> Graph.t :=
  d3ForceLayout DriftSimulation.Sim DriftSimulation.forceSimulation
    DriftSimulation.tick.

(** The two nodes [A] and [B] with the edges from [A] to [B] and back. *)
Definition two_cycle : Graph.t :=
  Graph.mk [node "A" None None; node "B" None None]
    [edge "AB" 0 1; edge "BA" 1 0]
    (list_to_map [("A", NodeRef 0); ("B", NodeRef 1);
                  ("AB", EdgeRef 0); ("BA", EdgeRef 1)]).

(** The same graph with the two edges in the other order. *)
Definition two_cycle_reversed : Graph.t :=
  Graph.mk [node "A" None None; node "B" None None]
    [edge "BA" 1 0; edge "AB" 0 1]
    (list_to_map [("A", NodeRef 0); ("B", NodeRef 1);
                  ("BA", EdgeRef 0); ("AB", EdgeRef 1)]).

(** The two-node cycle, and a path from [B] through [C] back to the root. *)
Definition cycle_to_root : Graph.t :=
  Graph.mk [node "A" None None; node "B" None None; node "C" None None]
    [edge "AB" 0 1; edge "BA" 1 0; edge "BC" 1 2; edge "CA" 2 0]
    (list_to_map [("A", NodeRef 0); ("B", NodeRef 1); ("C", NodeRef 2);
                  ("AB", EdgeRef 0); ("BA", EdgeRef 1);
                  ("BC", EdgeRef 2); ("CA", EdgeRef 3)]).

Definition wide_canvas : IGraphLayoutParams :=
  {| width := 500; height := 300 |}.

Definition tree_layout :
    nat -> option string -> Graph.t -> IGraphLayoutParams -> option Graph.t :=
  d3TreeLayout SimpleTree.d3_tree.

(** A constraint graph: two variables with their domains, and an arc. *)
Definition variable (id : string) (domain : list string) : GraphNode.t :=
  GraphNode.mk id id None None (Some domain) NodeStyles.empty.

Definition csp_graph : Graph.t :=
  Graph.mk [variable "n1" ["1"; "2"; "3"]; variable "n2" ["1"; "2"]]
    [edge "e1" 0 1]
    (list_to_map [("n1", NodeRef 0); ("n2", NodeRef 1); ("e1", EdgeRef 0)]).

(** The view of that graph when it is created, and when it holds a
    component. *)
Definition created : CSPViewer :=
  {| graph := csp_graph; vue := None; previouslyRendered := false |}.

Definition rendered : CSPViewer :=
  {| graph := csp_graph; vue := Some {| output := None |};
     previouslyRendered := true |}.

(** The renders and the runs of a view whose component measures a canvas of
    500 by 500, with the stand-in for D3's simulation. *)
Definition render : CSPViewer -> Handled :=
  render DriftSimulation.Sim DriftSimulation.forceSimulation
    DriftSimulation.tick canvas.

Definition run
    : (string -> string -> option string) -> CSPViewer -> list Activity ->
      CSPViewer * list Outbound :=
  fun window_prompt =>
    run window_prompt DriftSimulation.Sim DriftSimulation.forceSimulation
      DriftSimulation.tick canvas.

(** A user who types [text] in the prompt, and one who cancels it. *)
Definition types (text : string) : string -> string -> option string :=
  fun _ _ => Some text.

Definition cancels : string -> string -> option string :=
  fun _ _ => None.

(** A user who keeps the text the prompt starts with. *)
Definition accepts : string -> string -> option string :=
  fun _ offered => Some offered.

Definition domains_of (view : CSPViewer) : list (option (list string)) :=
  map GraphNode.domain (Graph.nodes (graph view)).

Definition strokes_of (view : CSPViewer)
    : list (option string * option float) :=
  map (fun n => (NodeStyles.stroke (GraphNode.styles n),
                 NodeStyles.strokeWidth (GraphNode.styles n)))
    (Graph.nodes (graph view)).

(** Three nodes spread over the canvas, and what the relative layout makes
    of them on the canvas of 500 by 500. *)
Definition scattered : Graph.t :=
  Graph.mk [node "a" (Some 81.25) (Some 81.25);
            node "b" (Some 137.49999999999997) (Some 212.5);
            node "c" (Some 212.5) (Some 362.50000000000006)]
    [] (list_to_map [("a", NodeRef 0); ("b", NodeRef 1); ("c", NodeRef 2)]).

Definition rescaled : Graph.t := relativeLayout scattered canvas.

End Examples.

(** ** The components that draw the graphs *)

(** ** [SearchVisualizer]: how a node of the search graph is drawn *)

Module SearchVisualizer.

(** What the methods read of an [ISearchGraphNode]: its [type] and its
    [styles], which the methods allow to be absent. *)
Record ISearchGraphNode := {
  type : string;
  styles : option NodeStyles.t;
}.

Definition nodeFillColour (node : ISearchGraphNode) (hover : bool) : string :=
  if hover then "black"
  else if String.eqb (type node) "search:start" then "orchid"
  else if String.eqb (type node) "search:goal" then "gold"
  else "white".

Definition nodeTextColour (node : ISearchGraphNode) (hover : bool) : string :=
  if hover then "white" else "black".

Definition nodeStroke (node : ISearchGraphNode) : string :=
  match styles node with
  | Some s =>
      match NodeStyles.stroke s with
      | Some c => if truthy (Some c) then c else "black"
      | None => "black"
      end
  | None => "black"
  end.

Definition nodeStrokeWidth (node : ISearchGraphNode) : float :=
  match styles node with
  | Some s =>
      match NodeStyles.strokeWidth s with
      | Some w => if JS.falsy (Some w) then 1 else w
      | None => 1
      end
  | None => 1
  end.

End SearchVisualizer.

(** ** [BayesNetInteractor]: the observation panel *)

Module BayesNetInteractor.

(** What [nodeClicked] reads and writes of an [IBayesGraphNode]. *)
Record IBayesGraphNode := {
  name : string;
  domain : option (list string);
  displaying : option bool;
}.

(** [FocusNode]. [checkedNames] is a value of the domain, the empty string,
    or [undefined]. *)
Record FocusNode := {
  focus_domain : option (list string);
  checkedNames : option string;
  nodeName : string;
}.

(** The data of the component that the two methods use. [isQuerying] is
    only ever tested, so [undefined] is kept as [false]. *)
Record t := {
  isQuerying : bool;
  focus : FocusNode;
}.

Inductive Emitted :=
  | click_query_node (node : IBayesGraphNode).

(** [nodeClicked(node)]: the component, the node and what is emitted. *)
Definition nodeClicked (st : t) (node : IBayesGraphNode)
    : t * IBayesGraphNode * list Emitted :=
  if isQuerying st then
    (st,
     {| name := name node; domain := domain node; displaying := Some true |},
     [click_query_node node])
  else
    ({| isQuerying := isQuerying st;
        focus := {| focus_domain := domain node;
                    checkedNames := match domain node with
                                    | Some d => d !! 0%nat
                                    | None => Some EmptyString
                                    end;
                    nodeName := name node |} |},
     node, []).

(** [onModeChange(newVal)], the watcher of [mode]. *)
Definition onModeChange (st : t) (newVal : string) : t :=
  {| isQuerying := String.eqb newVal "query";
     focus := {| focus_domain := Some [];
                 checkedNames := checkedNames (focus st);
                 nodeName := nodeName (focus st) |} |}.

(** The condition of the panel in the template,
    [FocusNode.domain.length > 0 && !isQuerying]; [None] when reading
    [length] throws. *)
Definition panel_shown (st : t) : option bool :=
  match focus_domain (focus st) with
  | Some d => Some (match d with [] => false | _ :: _ => negb (isQuerying st) end)
  | None => None
  end.

(** What happens to the component. *)
Inductive Action :=
  | Click (node : IBayesGraphNode)
  | Mode (newVal : string).

Definition act (st : t) (a : Action) : t :=
  match a with
  | Click node => fst (fst (nodeClicked st node))
  | Mode newVal => onModeChange st newVal
  end.

(** When the panel is shown, the value it starts with is the first value
    of the domain it lists. *)
Definition first_value_checked (st : t) : Prop :=
  forall d, focus_domain (focus st) = Some d -> d <> [] ->
    checkedNames (focus st) = d !! 0%nat.

End BayesNetInteractor.

(** ** The vocabulary of the properties *)

(** A datum of the hierarchy is reached from the root along the path
    [path], which lists the keys from the datum back to the root. *)
Inductive reached (map : HierarchyMap) (root : string)
    : string -> list string -> Prop :=
  | reached_root : reached map root root [root]
  | reached_child a b path :
      reached map root a path -> b ∈ children_of map a ->
      reached map root b (b :: path).

Definition edge_ids (nodes : list GraphNode.t) (e : GraphEdge.t)
    : string * string :=
  (id_of nodes (GraphEdge.source e), id_of nodes (GraphEdge.target e)).

(** What holds of [map] and [nodeMapInTree] once the edges [done] have been
    seen: a child comes from an edge, a datum that is listed is a key of
    [map], as is the root, and a key of [nodeMapInTree] is listed. *)
Record hierarchy_sound (nodes : list GraphNode.t) (rootId : string)
    (done : list GraphEdge.t) (st : TreeBuild) : Prop := {
  sound_edge : forall a b,
    b ∈ children_of (tb_map st) a ->
    exists e, e ∈ done /\ edge_ids nodes e = (a, b);
  sound_child_key : forall a b,
    b ∈ children_of (tb_map st) a -> is_Some (tb_map st !! b);
  sound_root_key : is_Some (tb_map st !! rootId);
  sound_inTree : forall b,
    b ∈ tb_inTree st -> exists a, b ∈ children_of (tb_map st) a;
}.

(** What a layout may not touch in a node, and in an edge. *)
Definition node_frame (n : GraphNode.t)
    : string * string * option (list string) * option string * option float :=
  (GraphNode.id n, GraphNode.name n, GraphNode.domain n,
   NodeStyles.stroke (GraphNode.styles n),
   NodeStyles.strokeWidth (GraphNode.styles n)).

Definition edge_frame (e : GraphEdge.t)
    : string * nat * nat * option string * option float :=
  (GraphEdge.id e, GraphEdge.source e, GraphEdge.target e,
   EdgeStyles.stroke (GraphEdge.styles e),
   EdgeStyles.strokeWidth (GraphEdge.styles e)).

(** A radius the tree layout assigns: positive and at most 50. *)
Definition radius_in_range (r : float) : bool := (0 <? r) && (r <=? 50).

(** What the tree layout may make of a node. *)
Definition tree_placed (n n' : GraphNode.t) : Prop :=
  node_frame n' = node_frame n
  /\ (NodeStyles.radius (GraphNode.styles n')
      = NodeStyles.radius (GraphNode.styles n)
      \/ exists r,
           NodeStyles.radius (GraphNode.styles n') = Some r
           /\ radius_in_range r = true).

(** The end points of an edge. *)
Definition ends (e : GraphEdge.t) : nat * nat :=
  (GraphEdge.source e, GraphEdge.target e).

(** [e2] runs from the target of [e1] back to its source. *)
Definition reverse_of (e1 e2 : GraphEdge.t) : Prop :=
  GraphEdge.source e1 = GraphEdge.target e2
  /\ GraphEdge.target e1 = GraphEdge.source e2.

(** [maxDepth] as the loop over [root.descendants()] computes it. *)
Definition maxDepth (root : HNode) : nat :=
  fold_left (fun m n => if Nat.ltb m (HNode_depth n) then HNode_depth n else m)
    (descendants root) 0%nat.

(** The [y] that the callback of [root.each] gives the graph node of the
    tree node [n], in a tree of depth [depth]. *)
Definition level_y (layoutParams : IGraphLayoutParams) (depth : nat)
    (n : HNode) : float :=
  let heightDivision := height layoutParams / (JS.of_nat depth + 2) in
  JS.to_number (HNode_y n)
    * (height layoutParams - heightDivision - heightDivision)
  + heightDivision.

(** A node without its position. *)
Definition unplaced (n : GraphNode.t) : GraphNode.t :=
  GraphNode.set_y None (GraphNode.set_x None n).

(** [g'] differs from [g] in the positions of its nodes at most. *)
Definition moves_nodes_only (g g' : Graph.t) : Prop :=
  unplaced <$> Graph.nodes g' = unplaced <$> Graph.nodes g
  /\ Graph.edges g' = Graph.edges g
  /\ Graph.idMap g' = Graph.idMap g
  /\ (Graph_wf g -> Graph_wf g').

(** The node lies between the bounds, on both axes. *)
Definition inside (b : Bounds) (node : GraphNode.t) : bool :=
  match GraphNode.x node, GraphNode.y node with
  | Some vx, Some vy =>
      (minX b <=? vx) && (vx <=? maxX b)
      && (minY b <=? vy) && (vy <=? maxY b)
  | _, _ => false
  end.

(** The four bounds are numbers. *)
Definition numbers (b : Bounds) : Prop :=
  is_nan (minX b) = false /\ is_nan (minY b) = false
  /\ is_nan (maxX b) = false /\ is_nan (maxY b) = false.

(** [b'] is at least as wide as [b]. *)
Definition widens (b b' : Bounds) : Prop :=
  (minX b' <=? minX b) = true /\ (minY b' <=? minY b) = true
  /\ (maxX b <=? maxX b') = true /\ (maxY b <=? maxY b') = true.

(** The handlers of [CSPViewer] are loops that look an id up in [idMap] and
    write to the object found. [resolve] is the list of the objects such a
    loop reaches, each with the index of its id in the event, and how the loop
    ends: it stops at the first id that [idMap] does not hold. *)
Fixpoint resolve (i : nat) (idMap : gmap string Ref) (ids : list string)
    : list (Ref * nat) * Completion :=
  match ids with
  | [] => ([], Returns)
  | id :: rest =>
      match idMap !! id with
      | None => ([], TypeError)
      | Some r =>
          let rs := resolve (S i) idMap rest in
          ((r, i) :: fst rs, snd rs)
      end
  end.

Definition node_targets (rs : list (Ref * nat)) : list (nat * nat) :=
  omap (fun w => match fst w with
                 | NodeRef k => Some (k, snd w)
                 | EdgeRef _ => None
                 end) rs.

Definition edge_targets (rs : list (Ref * nat)) : list (nat * nat) :=
  omap (fun w => match fst w with
                 | EdgeRef k => Some (k, snd w)
                 | NodeRef _ => None
                 end) rs.

(** The writes [ws], in order: [(k, j)] applies [f j] to the object at [k]. *)
Definition writes_to {A : Type} (f : nat -> A -> A) (ws : list (nat * nat))
    (l : list A) : list A :=
  fold_left (fun l w => alter (f (snd w)) (fst w) l) ws l.

(** The index in the event of the last write to the object at [k]. *)
Fixpoint last_write (k : nat) (ws : list (nat * nat)) : option nat :=
  match ws with
  | [] => None
  | w :: rest =>
      match last_write k rest with
      | Some j => Some j
      | None => if decide (fst w = k) then Some (snd w) else None
      end
  end.

Definition apply_writes (fn : nat -> GraphNode.t -> GraphNode.t)
    (fe : nat -> GraphEdge.t -> GraphEdge.t) (rs : list (Ref * nat))
    (g : Graph.t) : Graph.t :=
  Graph.mk (writes_to fn (node_targets rs) (Graph.nodes g))
    (writes_to fe (edge_targets rs) (Graph.edges g)) (Graph.idMap g).

(** A node with the given stroke and stroke width. *)
Definition stroked_node (stroke : option string) (strokeWidth : float)
    (n : GraphNode.t) : GraphNode.t :=
  GraphNode.set_styles
    (NodeStyles.set_strokeWidth (Some strokeWidth)
       (NodeStyles.set_stroke stroke (GraphNode.styles n))) n.

Definition stroked_edge (stroke : option string) (strokeWidth : float)
    (e : GraphEdge.t) : GraphEdge.t :=
  with_styles (fun s => EdgeStyles.set_strokeWidth (Some strokeWidth)
                          (EdgeStyles.set_stroke stroke s)) e.

(** What [highlightArcs] writes when the object an id names is a node: as
    [highlight_edge], on the styles of the node. *)
Definition highlight_node (colour : option string) (strokeWidth : float)
    (n : GraphNode.t) : GraphNode.t :=
  stroked_node (if truthy colour then colour
                else NodeStyles.stroke (GraphNode.styles n)) strokeWidth n.

(** A node, and an edge, without what the messages write: its domain, stroke
    and stroke width. *)
Definition plain_node (n : GraphNode.t) : GraphNode.t :=
  GraphNode.set_domain None
    (GraphNode.set_styles
       (NodeStyles.set_strokeWidth None
          (NodeStyles.set_stroke None (GraphNode.styles n))) n).

Definition plain_edge (e : GraphEdge.t) : GraphEdge.t :=
  GraphEdge.set_domain None
    (with_styles (fun s => EdgeStyles.set_strokeWidth None
                             (EdgeStyles.set_stroke None s)) e).

(** [g'] differs from [g] in what the messages write at most. *)
Definition repaints (g g' : Graph.t) : Prop :=
  plain_node <$> Graph.nodes g' = plain_node <$> Graph.nodes g
  /\ plain_edge <$> Graph.edges g' = plain_edge <$> Graph.edges g
  /\ Graph.idMap g' = Graph.idMap g.

(** [g'] differs from [g] in what the messages write and in the positions
    of the nodes at most. *)
Definition rearranges (g g' : Graph.t) : Prop :=
  (fun n => unplaced (plain_node n)) <$> Graph.nodes g'
  = (fun n => unplaced (plain_node n)) <$> Graph.nodes g
  /\ plain_edge <$> Graph.edges g' = plain_edge <$> Graph.edges g
  /\ Graph.idMap g' = Graph.idMap g.

(** Some id of [ids] names the object [r]. *)
Definition named (idMap : gmap string Ref) (ids : list string) (r : Ref)
    : Prop :=
  exists id, id ∈ ids /\ idMap !! id = Some r.

(** The objects [highlightArcs] writes to: every edge when [arcIds] is
    [null], the objects the ids name otherwise. *)
Definition targeted (idMap : gmap string Ref) (arcIds : option (list string))
    (r : Ref) : Prop :=
  match arcIds with
  | None => exists k, r = EdgeRef k
  | Some ids => named idMap ids r
  end.

(** The object a reference points at, a node or an edge, and that object
    with the domain [d]. *)
Definition object (g : Graph.t) (r : Ref)
    : option (GraphNode.t + GraphEdge.t) :=
  match r with
  | NodeRef k => inl <$> Graph.nodes g !! k
  | EdgeRef k => inr <$> Graph.edges g !! k
  end.

Definition with_domain (d : option (list string))
    (o : GraphNode.t + GraphEdge.t) : GraphNode.t + GraphEdge.t :=
  match o with
  | inl n => inl (GraphNode.set_domain d n)
  | inr e => inr (GraphEdge.set_domain d e)
  end.

(** The messages whose handler uses the component: a highlight that names an
    object, a highlight of all the arcs of a graph that has one, and an
    output. *)
Definition uses_component (g : Graph.t) (event : IEvent) : bool :=
  match event with
  | HighlightArcsEvent None _ _ =>
      match Graph.edges g with [] => false | _ :: _ => true end
  | HighlightArcsEvent (Some ids) _ _ | HighlightNodesEvent ids _ =>
      match ids with [] => false | _ :: _ => true end
  | OutputEvent _ => true
  | SetDomainsEvent _ _ | ChooseDomainSplitEvent _ | OtherEvent => false
  end.

(** ** A tree on which the tree layout is evaluated *)

Module TreeCases.

(** A root with an edge to each of two children, and a node on its own. *)
Definition family : Graph.t :=
  Graph.mk [Examples.node "r" None None; Examples.node "c1" None None;
            Examples.node "c2" None None;
            Examples.node "far" (Some 7) (Some 9)]
    [Examples.edge "r1" 0 1; Examples.edge "r2" 0 2]
    (list_to_map [("r", NodeRef 0); ("c1", NodeRef 1); ("c2", NodeRef 2);
                  ("far", NodeRef 3); ("r1", EdgeRef 0); ("r2", EdgeRef 1)]).

Definition laid_out : option Graph.t :=
  Examples.tree_layout 4 None family Examples.wide_canvas.

End TreeCases.

(** * Properties *)

(** A closed statement about concrete graphs is settled by evaluation. *)
Ltac evaluated := vm_compute; repeat split; reflexivity.

(** ** Comparisons of binary64 numbers *)

Section FloatOrder.

Lemma SFcompare_antisym a b :
  SFcompare b a = CompOpp <$> SFcompare a b.
Proof.
  destruct a as [sa|sa| |sa ma ea], b as [sb|sb| |sb mb eb]; simpl;
    try reflexivity;
    try (destruct sa; reflexivity); try (destruct sb; reflexivity);
    try (destruct sa, sb; reflexivity).
  destruct sa, sb; simpl; try reflexivity;
    rewrite (Z.compare_antisym ea eb);
    destruct (ea ?= eb)%Z; simpl; try reflexivity;
    repeat f_equal;
    change (Pos.compare mb ma = CompOpp (Pos.compare ma mb));
    apply Pos.compare_antisym.
Qed.

Lemma SFcompare_refl a : a <> S754_nan -> SFcompare a a = Some Eq.
Proof.
  destruct a as [sa|sa| |sa ma ea]; simpl; intros H; try congruence.
  - destruct sa; reflexivity.
  - rewrite Z.compare_refl. destruct sa; f_equal.
    + change (CompOpp (Pos.compare ma ma) = Eq). now rewrite Pos.compare_refl.
    + change (Pos.compare ma ma = Eq). now rewrite Pos.compare_refl.
Qed.

Lemma SFcompare_defined a b :
  a <> S754_nan -> b <> S754_nan -> SFcompare a b <> None.
Proof. destruct a, b; simpl; congruence. Qed.

Lemma is_nan_false a : is_nan a = false -> Prim2SF a <> S754_nan.
Proof.
  unfold is_nan. rewrite FloatAxioms.eqb_spec. unfold SFeqb.
  intros H E. rewrite E in H. discriminate.
Qed.

Lemma leb_of_ltb a b : (a <? b) = true -> (a <=? b) = true.
Proof.
  rewrite FloatAxioms.ltb_spec, FloatAxioms.leb_spec. unfold SFltb, SFleb.
  destruct (SFcompare _ _) as [[]|]; congruence.
Qed.

Lemma leb_refl a : is_nan a = false -> (a <=? a) = true.
Proof.
  intros H. rewrite FloatAxioms.leb_spec. unfold SFleb.
  rewrite SFcompare_refl; [reflexivity | now apply is_nan_false].
Qed.

Lemma leb_of_not_ltb a b :
  is_nan a = false -> is_nan b = false -> (a <? b) = false ->
  (b <=? a) = true.
Proof.
  intros Ha Hb. rewrite FloatAxioms.ltb_spec, FloatAxioms.leb_spec.
  unfold SFltb, SFleb.
  rewrite (SFcompare_antisym (Prim2SF a) (Prim2SF b)).
  pose proof (SFcompare_defined _ _ (is_nan_false _ Ha) (is_nan_false _ Hb)).
  destruct (SFcompare (Prim2SF a) (Prim2SF b)) as [[]|]; simpl; congruence.
Qed.

Lemma leb_not_nan_l a b : (a <=? b) = true -> is_nan a = false.
Proof.
  rewrite FloatAxioms.leb_spec. unfold is_nan.
  rewrite FloatAxioms.eqb_spec. unfold SFleb, SFeqb. intros H.
  rewrite SFcompare_refl; [reflexivity|].
  intros E. rewrite E in H. discriminate.
Qed.

Lemma leb_not_nan_r a b : (a <=? b) = true -> is_nan b = false.
Proof.
  rewrite FloatAxioms.leb_spec. unfold is_nan.
  rewrite FloatAxioms.eqb_spec. unfold SFleb, SFeqb. intros H.
  rewrite SFcompare_refl; [reflexivity|].
  intros E. rewrite E in H. destruct (Prim2SF a); discriminate.
Qed.

(** [Math.min(a, b)] is a number below [a] when both are numbers. *)
Lemma Math_min_le a b :
  is_nan a = false -> is_nan b = false ->
  (JS.Math_min a b <=? a) = true /\ is_nan (JS.Math_min a b) = false.
Proof.
  intros Ha Hb. unfold JS.Math_min. rewrite Ha, Hb. simpl.
  destruct (a <? b) eqn:E1.
  - split; [now apply leb_refl | done].
  - destruct (b <? a) eqn:E2.
    + split; [now apply leb_of_ltb | done].
    + destruct (classify a); try (split; [now apply leb_refl | done]).
      split; [now apply leb_of_not_ltb | done].
Qed.

(** [Math.max(lo, v)] stays between [lo] and any bound of both. *)
Lemma Math_max_bounds lo hi v :
  is_nan v = false -> (lo <=? hi) = true -> (v <=? hi) = true ->
  (lo <=? JS.Math_max lo v) = true /\ (JS.Math_max lo v <=? hi) = true.
Proof.
  intros Hv Hlh Hvh.
  pose proof (leb_not_nan_l _ _ Hlh) as Hlo.
  unfold JS.Math_max. rewrite Hlo, Hv. simpl.
  destruct (lo <? v) eqn:E1.
  - split; [now apply leb_of_ltb | done].
  - destruct (v <? lo) eqn:E2.
    + split; [now apply leb_refl | done].
    + destruct (classify lo); try (split; [now apply leb_refl | done]).
      split; [now apply leb_of_not_ltb | done].
Qed.

(** The bounding expression of the tick loop. *)
Lemma clamp_bounds lo hi v :
  is_nan v = false -> (lo <=? hi) = true ->
  (lo <=? JS.Math_max lo (JS.Math_min hi v)) = true
  /\ (JS.Math_max lo (JS.Math_min hi v) <=? hi) = true.
Proof.
  intros Hv Hlh.
  destruct (Math_min_le hi v (leb_not_nan_r _ _ Hlh) Hv) as [H1 H2].
  now apply Math_max_bounds.
Qed.

(** Below 30 is below 50. *)
Lemma below_30_below_50 m :
  (m <=? 30) = true -> (m <? 50) = true /\ (50 <? m) = false.
Proof.
  rewrite FloatAxioms.leb_spec, !FloatAxioms.ltb_spec.
  unfold SFleb, SFltb.
  rewrite (SFcompare_antisym (Prim2SF m) (Prim2SF 50)).
  assert (E30 : Prim2SF 30 = S754_finite false 8444249301319680 (-48))
    by reflexivity.
  assert (E50 : Prim2SF 50 = S754_finite false 7036874417766400 (-47))
    by reflexivity.
  rewrite E30, E50.
  destruct (Prim2SF m) as [s|s| |s mm e];
    cbn [SFcompare fmap option_fmap option_map CompOpp]; try done.
  - destruct s; done.
  - destruct s; cbn [fmap option_fmap option_map CompOpp]; [done|].
    destruct (Z.compare_spec e (-48)), (Z.compare_spec e (-47));
      try lia; try done.
Qed.

(** The bounding expression when the upper bound is 30: the lower bound 50
    wins. *)
Lemma clamp_collapses v :
  is_nan v = false -> JS.Math_max 50 (JS.Math_min 30 v) = 50.
Proof.
  intros Hv.
  destruct (Math_min_le 30 v eq_refl Hv) as [Hle Hnan].
  destruct (below_30_below_50 _ Hle) as [Hlt Hgt].
  unfold JS.Math_max at 1. rewrite Hnan. simpl.
  now rewrite Hgt, Hlt.
Qed.

End FloatOrder.

(** ** [scaleNodePositions] *)

Lemma bounds_step_skipped b node :
  skipped node = true -> bounds_step b node = b.
Proof. unfold bounds_step. now intros ->. Qed.

Lemma scale_node_skipped p b node :
  skipped node = true -> scale_node p b node = node.
Proof. unfold scale_node. now intros ->. Qed.

(** A skipped node adds nothing to the bounding box. *)
Lemma bounding_box_delete nodes i node :
  nodes !! i = Some node -> skipped node = true ->
  bounding_box nodes = bounding_box (delete i nodes).
Proof.
  unfold bounding_box. generalize initial_bounds.
  revert i. induction nodes as [|a l IH]; intros i b Hi Hs; [done|].
  destruct i as [|i]; simpl in *.
  - injection Hi as ->. now rewrite bounds_step_skipped.
  - now apply IH.
Qed.

Lemma scaleNodePositions_lookup p nodes i node :
  nodes !! i = Some node ->
  scaleNodePositions p nodes !! i
  = Some (scale_node p (bounding_box nodes) node).
Proof.
  intros H. unfold scaleNodePositions.
  now rewrite list_lookup_fmap, H.
Qed.

Lemma scaleNodePositions_length p nodes :
  length (scaleNodePositions p nodes) = length nodes.
Proof. unfold scaleNodePositions. apply length_map. Qed.

(** ** The copy of the simulated positions *)

Lemma copy_positions_lookup orig copy i o c :
  orig !! i = Some o -> copy !! i = Some c ->
  copy_positions orig copy !! i = Some (copy_position o c).
Proof.
  revert copy i. induction orig as [|a l IH]; intros [|b copy] i Ho Hc;
    try done.
  destruct i as [|i]; simpl in *.
  - congruence.
  - now apply IH.
Qed.

Lemma copy_positions_length orig copy :
  length (copy_positions orig copy) = length orig.
Proof.
  revert copy. induction orig as [|a l IH]; intros [|b copy]; simpl;
    try done.
  now rewrite IH.
Qed.

Lemma copy_position_x orig node :
  GraphNode.x (copy_position orig node)
  = if JS.falsy (GraphNode.x orig) then GraphNode.x node
    else GraphNode.x orig.
Proof.
  unfold copy_position.
  destruct (JS.falsy (GraphNode.x orig)); simpl;
    match goal with |- context [if ?c then _ else _] => destruct c end;
    reflexivity.
Qed.

Lemma copy_position_y orig node :
  GraphNode.y (copy_position orig node)
  = if JS.falsy (GraphNode.y orig) then GraphNode.y node
    else GraphNode.y orig.
Proof.
  unfold copy_position.
  destruct (JS.falsy (GraphNode.x orig)); simpl;
    destruct (JS.falsy (GraphNode.y orig)); reflexivity.
Qed.

Lemma copy_position_frame orig node :
  GraphNode.id (copy_position orig node) = GraphNode.id orig
  /\ GraphNode.name (copy_position orig node) = GraphNode.name orig
  /\ GraphNode.domain (copy_position orig node) = GraphNode.domain orig
  /\ GraphNode.styles (copy_position orig node) = GraphNode.styles orig.
Proof.
  unfold copy_position.
  destruct (JS.falsy (GraphNode.x orig)); simpl;
    match goal with |- context [if ?c then _ else _] => destruct c end;
    simpl; repeat split.
Qed.

Lemma copy_position_positioned orig node :
  skipped orig = false -> copy_position orig node = orig.
Proof.
  unfold skipped, copy_position. intros [Hx Hy]%orb_false_iff.
  now rewrite Hx, Hy.
Qed.

Lemma copy_positions_positioned orig copy :
  Forall (fun n => skipped n = false) orig -> copy_positions orig copy = orig.
Proof.
  intros H. revert copy. induction H as [|o orig Ho _ IH]; intros [|c copy];
    simpl; try done.
  now rewrite IH, copy_position_positioned.
Qed.

(** ** The force layout *)

Section ForceLayoutFacts.

Variable Sim : Type.
Variable forceSimulation :
  Graph.t -> IGraphLayoutParams -> Sim * list GraphNode.t.
Variable tick : Sim -> list GraphNode.t -> Sim * list GraphNode.t.

Local Abbreviation simulated := (simulated_nodes Sim forceSimulation tick).
Local Abbreviation layout := (d3ForceLayout Sim forceSimulation tick).

(** The node the layout leaves at an index: the rescaled node, completed
    from the simulated one. *)
Lemma d3ForceLayout_lookup g p i n c :
  Graph.nodes g !! i = Some n -> simulated g p !! i = Some c ->
  Graph.nodes (layout g p) !! i
  = Some (copy_position (scale_node p (bounding_box (Graph.nodes g)) n) c).
Proof.
  intros Hn Hc. unfold d3ForceLayout. simpl.
  apply copy_positions_lookup; [|done].
  now apply scaleNodePositions_lookup.
Qed.

Lemma run_ticks_iter k p st :
  run_ticks Sim tick k p st = Nat.iter k (simulation_step Sim tick p) st.
Proof.
  revert st. induction k as [|k IH]; intros st; [done|].
  simpl run_ticks. rewrite IH. now rewrite Nat.iter_succ_r.
Qed.

End ForceLayoutFacts.




(** ** The relative layout *)

(** C4, as the code has it. The relative layout does not know the
    dimensions the nodes were placed under. On a graph of which the nodes
    that have both coordinates do not all share one [x], nor all share one
    [y], it gives each of those nodes, whatever the dimensions were, the
    binary64 value of [(width - 120) * (x - minX) / (maxX - minX) + 60] for
    [x], and likewise for [y], where the minima and maxima are those of the
    bounding box of those nodes. It leaves a node unchanged when one of its
    coordinates is falsy, and it changes nothing but [x] and [y]. *)
Theorem relativeLayout_remap :
  forall (g : Graph.t) (p : IGraphLayoutParams) (i : nat) (n : GraphNode.t),
    Graph.nodes g !! i = Some n ->
    let b := bounding_box (Graph.nodes g) in
    (minX b <? maxX b) = true ->
    (minY b <? maxY b) = true ->
    exists n',
      Graph.nodes (relativeLayout g p) !! i = Some n'
      /\ (skipped n = true -> n' = n)
      /\ (skipped n = false ->
          GraphNode.x n'
          = Some (rescale (width p) (minX b) (maxX b)
                    (JS.to_number (GraphNode.x n)))
          /\ GraphNode.y n'
             = Some (rescale (height p) (minY b) (maxY b)
                       (JS.to_number (GraphNode.y n))))
      /\ GraphNode.id n' = GraphNode.id n
      /\ GraphNode.name n' = GraphNode.name n
      /\ GraphNode.domain n' = GraphNode.domain n
      /\ GraphNode.styles n' = GraphNode.styles n
      /\ length (Graph.nodes (relativeLayout g p)) = length (Graph.nodes g)
      /\ Graph.edges (relativeLayout g p) = Graph.edges g
      /\ Graph.idMap (relativeLayout g p) = Graph.idMap g.
Proof.
  intros g p i n Hn b _ _.
  exists (scale_node p b n). split.
  - unfold relativeLayout. simpl. now apply scaleNodePositions_lookup.
  - unfold scale_node. destruct (skipped n); simpl;
      repeat split; try done;
      apply scaleNodePositions_length.
Qed.

(** The theorem at the second node of the pinned graph, of which the
    bounding box runs from 100 to 200 in [x] and from 100 to 300 in [y]. *)
Lemma relativeLayout_remap_witness :
  exists n',
    Graph.nodes (relativeLayout Examples.pinned Examples.canvas) !! 1%nat
    = Some n'
    /\ Examples.position n' = (Some 440, Some 440).
Proof.
  destruct (relativeLayout_remap Examples.pinned Examples.canvas 1
              (Examples.node "b" (Some 200) (Some 300)))
    as (n' & Hl & _ & Hpos & _); [reflexivity..|].
  exists n'. split; [exact Hl|].
  destruct Hpos as [Hx Hy]; [vm_compute; reflexivity|].
  unfold Examples.position. rewrite Hx, Hy. vm_compute. reflexivity.
Defined.

(** C4 fails as stated, on the canvas of 500 by 500 throughout. The
    relative layout moves the two nodes of the pinned graph. And applied to
    the graph it has just made of the scattered graph, it moves the second
    node again: the [y] of that node loses one unit in the last place. *)
Lemma relativeLayout_not_identity :
  Examples.positions (relativeLayout Examples.pinned Examples.canvas)
  = [(Some 60, Some 60); (Some 440, Some 440)]
  /\ Examples.positions Examples.pinned
     = [(Some 100, Some 100); (Some 200, Some 300)]
  /\ Examples.positions Examples.rescaled
     = [(Some 60, Some 60);
        (Some 222.85714285714278, Some 237.33333333333329);
        (Some 440, Some 440)]
  /\ Examples.positions (relativeLayout Examples.rescaled Examples.canvas)
     = [(Some 60, Some 60);
        (Some 222.85714285714278, Some 237.33333333333326);
        (Some 440, Some 440)]
  /\ (237.33333333333329 =? 237.33333333333326) = false.
Proof. evaluated. Qed.

(** C5 at two nodes on one vertical line: the relative layout divides zero
    by zero and leaves [NaN] in the [x] of both nodes. *)
Theorem relativeLayout_zero_extent :
  Examples.positions (relativeLayout Examples.column Examples.canvas)
  = [(Some nan, Some 60); (Some nan, Some 440)]
  /\ is_nan nan = true.
Proof. vm_compute. split; reflexivity. Qed.

(** ** A coordinate equal to zero *)

(** C10. A node of which [x] (or [y]) is zero is skipped by
    [scaleNodePositions]: it stays as it is and the bounding box is the one
    of the other nodes; and the force layout overwrites that coordinate with
    the simulated one, as it does for an absent coordinate. *)
Theorem zero_coordinate_is_absent :
  forall (Sim : Type)
    (forceSimulation : Graph.t -> IGraphLayoutParams -> Sim * list GraphNode.t)
    (tick : Sim -> list GraphNode.t -> Sim * list GraphNode.t)
    (g : Graph.t) (p : IGraphLayoutParams) (i : nat) (n c : GraphNode.t)
    (v : float),
    Graph.nodes g !! i = Some n ->
    simulated_nodes Sim forceSimulation tick g p !! i = Some c ->
    GraphNode.x n = Some v \/ GraphNode.y n = Some v ->
    is_zero v = true ->
    scaleNodePositions p (Graph.nodes g) !! i = Some n
    /\ bounding_box (Graph.nodes g) = bounding_box (delete i (Graph.nodes g))
    /\ Graph.nodes (relativeLayout g p) !! i = Some n
    /\ (GraphNode.x n = Some v ->
        GraphNode.x (copy_position n c) = GraphNode.x c)
    /\ (GraphNode.y n = Some v ->
        GraphNode.y (copy_position n c) = GraphNode.y c)
    /\ Graph.nodes (d3ForceLayout Sim forceSimulation tick g p) !! i
       = Some (copy_position n c).
Proof.
  intros Sim fs tick g p i n c v Hn Hc Hv Hz.
  assert (Hs : skipped n = true).
  { unfold skipped. destruct Hv as [-> | ->]; simpl; rewrite Hz; simpl;
      [reflexivity | apply orb_true_r]. }
  assert (Hl : scaleNodePositions p (Graph.nodes g) !! i = Some n).
  { rewrite (scaleNodePositions_lookup _ _ _ _ Hn).
    now rewrite scale_node_skipped. }
  repeat split.
  - exact Hl.
  - now apply (bounding_box_delete _ _ n).
  - exact Hl.
  - intros E. rewrite copy_position_x, E. simpl. now rewrite Hz.
  - intros E. rewrite copy_position_y, E. simpl. now rewrite Hz.
  - rewrite (d3ForceLayout_lookup _ _ _ _ _ _ _ _ Hn Hc).
    now rewrite scale_node_skipped.
Qed.

(** The theorem at the node of the origin graph whose [x] is zero: the force
    layout gives it the simulated [x] and keeps its [y]. *)
Lemma zero_coordinate_is_absent_witness :
  Graph.nodes (Examples.force_layout Examples.origin Examples.canvas) !! 1%nat
  = Some (Examples.node "o" (Some 81.25) (Some 40))
  /\ Graph.nodes (relativeLayout Examples.origin Examples.canvas) !! 1%nat
     = Some (Examples.node "o" (Some 0) (Some 40)).
Proof.
  pose (n := Examples.node "o" (Some 0) (Some 40)).
  pose (c := default n
               (simulated_nodes DriftSimulation.Sim
                  DriftSimulation.forceSimulation DriftSimulation.tick
                  Examples.origin Examples.canvas !! 1%nat)).
  destruct (zero_coordinate_is_absent DriftSimulation.Sim
              DriftSimulation.forceSimulation DriftSimulation.tick
              Examples.origin Examples.canvas 1 n c 0)
    as (_ & _ & Hr & _ & _ & Hf);
    [ vm_compute; reflexivity | vm_compute; reflexivity
    | left; reflexivity | reflexivity | ].
  split; [|exact Hr].
  unfold Examples.force_layout. rewrite Hf. vm_compute. reflexivity.
Defined.

(** ** The bounds of the force layout *)

Lemma bound_node_in_canvas p node :
  numeric node = true ->
  (50 <=? width p - 50) = true -> (50 <=? height p - 50) = true ->
  in_canvas p (bound_node p node) = true.
Proof.
  unfold numeric, in_canvas, bound_node. simpl.
  intros [Hx Hy]%andb_true_iff Hw Hh.
  apply negb_true_iff in Hx, Hy.
  destruct (clamp_bounds 50 _ _ Hx Hw) as [-> ->].
  destruct (clamp_bounds 50 _ _ Hy Hh) as [-> ->].
  reflexivity.
Qed.

Lemma copy_positions_in_canvas p orig copy :
  length copy = length orig ->
  Forall (fun n => GraphNode.x n = None /\ GraphNode.y n = None) orig ->
  Forall (fun n => in_canvas p n = true) copy ->
  Forall (fun n => in_canvas p n = true) (copy_positions orig copy).
Proof.
  revert copy. induction orig as [|o orig IH]; intros [|c copy] Hlen Ho Hc;
    simpl in *; try done.
  inversion Ho as [|? ? [Hx Hy] Ho']; subst.
  inversion Hc as [|? ? Hin Hc']; subst.
  constructor.
  - unfold in_canvas in *.
    rewrite copy_position_x, copy_position_y, Hx, Hy. simpl. exact Hin.
  - apply IH; [lia | done | done].
Qed.

Lemma scaleNodePositions_unpositioned p nodes :
  Forall (fun n => GraphNode.x n = None /\ GraphNode.y n = None) nodes ->
  scaleNodePositions p nodes = nodes.
Proof.
  intros H. unfold scaleNodePositions.
  generalize (bounding_box nodes). intros b.
  induction H as [|n l [Hx Hy] _ IH]; [done|].
  simpl. rewrite IH. f_equal.
  apply scale_node_skipped. unfold skipped. now rewrite Hx.
Qed.

Section Bounded.

Variable Sim : Type.
Variable forceSimulation :
  Graph.t -> IGraphLayoutParams -> Sim * list GraphNode.t.
Variable tick : Sim -> list GraphNode.t -> Sim * list GraphNode.t.

(** What is expected of the simulation: a tick keeps the nodes it is given
    and leaves numbers in their coordinates. *)
Hypothesis tick_numeric :
  forall s ns,
    length (snd (tick s ns)) = length ns
    /\ Forall (fun n => numeric n = true) (snd (tick s ns)).

Variable g : Graph.t.
Variable p : IGraphLayoutParams.

Hypothesis copy_length :
  length (snd (forceSimulation g p)) = length (Graph.nodes g).
Hypothesis wide : (50 <=? width p - 50) = true.
Hypothesis high : (50 <=? height p - 50) = true.

Local Abbreviation step := (simulation_step Sim tick p).

Lemma simulation_step_in_canvas st :
  length (snd (step st)) = length (snd st)
  /\ Forall (fun n => in_canvas p n = true) (snd (step st)).
Proof.
  unfold simulation_step. simpl.
  destruct (tick_numeric (fst st) (snd st)) as [Hlen Hnum].
  split; [now rewrite length_map|].
  apply Forall_fmap. eapply Forall_impl; [exact Hnum|].
  intros n Hn. simpl. now apply bound_node_in_canvas.
Qed.

Lemma iter_step_length k :
  length (snd (Nat.iter k step (forceSimulation g p)))
  = length (Graph.nodes g).
Proof.
  induction k as [|k IH]; [exact copy_length|].
  rewrite Nat.iter_succ.
  destruct (simulation_step_in_canvas (Nat.iter k step (forceSimulation g p)))
    as [-> _].
  exact IH.
Qed.

Lemma d3ForceLayout_in_canvas :
  Forall (fun n => GraphNode.x n = None /\ GraphNode.y n = None)
    (Graph.nodes g) ->
  simulated_nodes Sim forceSimulation tick g p
  = snd (Nat.iter 300 step (forceSimulation g p))
  /\ (forall k,
        Forall (fun n => in_canvas p n = true)
          (snd (Nat.iter (S k) step (forceSimulation g p))))
  /\ length (Graph.nodes (d3ForceLayout Sim forceSimulation tick g p))
     = length (Graph.nodes g)
  /\ Forall (fun n => in_canvas p n = true)
       (Graph.nodes (d3ForceLayout Sim forceSimulation tick g p)).
Proof.
  intros Hun.
  assert (Hsim : simulated_nodes Sim forceSimulation tick g p
                 = snd (Nat.iter 300 step (forceSimulation g p))).
  { unfold simulated_nodes, ticksToSimulate. now rewrite run_ticks_iter. }
  assert (Hall : forall k,
             Forall (fun n => in_canvas p n = true)
               (snd (Nat.iter (S k) step (forceSimulation g p)))).
  { intros k. rewrite Nat.iter_succ. apply simulation_step_in_canvas. }
  split; [exact Hsim|]. split; [exact Hall|]. split.
  - unfold d3ForceLayout. simpl. rewrite copy_positions_length.
    apply scaleNodePositions_length.
  - unfold d3ForceLayout. simpl.
    rewrite (scaleNodePositions_unpositioned _ _ Hun).
    apply copy_positions_in_canvas; [|exact Hun|].
    + rewrite Hsim. apply iter_step_length.
    + rewrite Hsim. apply Hall.
Qed.

End Bounded.


Lemma DriftSimulation_move_numeric vs ns :
  Forall (fun n => numeric n = true) (zip_with DriftSimulation.move vs ns).
Proof.
  revert ns. induction vs as [|v vs IH]; intros [|n ns]; simpl;
    try constructor; [|apply IH].
  unfold numeric, DriftSimulation.move, DriftSimulation.number_or_origin.
  simpl.
  destruct (is_nan (JS.to_number (GraphNode.x n) + fst v)) eqn:Ex;
    destruct (is_nan (JS.to_number (GraphNode.y n) + snd v)) eqn:Ey;
    rewrite ?Ex, ?Ey; reflexivity.
Qed.

Lemma DriftSimulation_tick_numeric s ns :
  length (snd (DriftSimulation.tick s ns)) = length ns
  /\ Forall (fun n => numeric n = true) (snd (DriftSimulation.tick s ns)).
Proof.
  unfold DriftSimulation.tick. simpl. split.
  - rewrite length_zip_with, length_app, length_replicate, length_map. lia.
  - apply DriftSimulation_move_numeric.
Qed.


Lemma bound_node_narrow node :
  numeric node = true ->
  GraphNode.x (bound_node Examples.narrow node) = Some 50.
Proof.
  unfold numeric, bound_node. simpl.
  intros [Hx _]%andb_true_iff. apply negb_true_iff in Hx.
  change (80 - 50) with 30. now rewrite clamp_collapses.
Qed.

Lemma copy_positions_x orig copy v :
  length copy = length orig ->
  Forall (fun n => GraphNode.x n = None /\ GraphNode.y n = None) orig ->
  Forall (fun n => GraphNode.x n = Some v) copy ->
  Forall (fun n => GraphNode.x n = Some v) (copy_positions orig copy).
Proof.
  revert copy. induction orig as [|o orig IH]; intros [|c copy] Hlen Ho Hc;
    simpl in *; try done.
  inversion Ho as [|? ? [Hx Hy] Ho']; subst.
  inversion Hc as [|? ? Hin Hc']; subst.
  constructor.
  - now rewrite copy_position_x, Hx.
  - apply IH; [lia | done | done].
Qed.


(** ** The hierarchy of the tree layout *)

Lemma children_of_ensure nodeMap key map k :
  children_of (ensure nodeMap key map) k = children_of map k.
Proof.
  unfold ensure. destruct (map !! key) eqn:E; [done|].
  unfold children_of. destruct (decide (key = k)) as [->|Hne].
  - now rewrite lookup_insert_eq, E.
  - now rewrite lookup_insert_ne.
Qed.

Lemma ensure_is_Some nodeMap key map :
  is_Some (ensure nodeMap key map !! key).
Proof.
  unfold ensure. destruct (map !! key) eqn:E.
  - rewrite E. eauto.
  - rewrite lookup_insert_eq. eauto.
Qed.

Lemma children_of_push_child key child map k :
  is_Some (map !! key) ->
  children_of (push_child key child map) k
  = if decide (k = key) then children_of map key ++ [child]
    else children_of map k.
Proof.
  intros [d Hd]. unfold push_child, children_of. rewrite Hd.
  destruct (decide (k = key)) as [->|Hne].
  - now rewrite lookup_insert_eq.
  - now rewrite lookup_insert_ne.
Qed.

Lemma attach_inv nodeMap st source target :
  hierarchy_inv st -> hierarchy_inv (attach nodeMap st source target).
Proof.
  intros [I1 I2 I3 I4]. unfold attach.
  set (map2 := ensure nodeMap source (ensure nodeMap target (tb_map st))).
  assert (Hch : forall k, children_of map2 k = children_of (tb_map st) k).
  { intros k. unfold map2. now rewrite !children_of_ensure. }
  assert (Hs : is_Some (map2 !! source)) by apply ensure_is_Some.
  destruct (bool_decide (source ∈ children_of map2 target)) eqn:Hrev;
    [|destruct (bool_decide (target ∈ tb_inTree st)) eqn:Hin]; simpl.
  - constructor; simpl; intros *; rewrite ?Hch; eauto.
  - constructor; simpl; intros *; rewrite ?Hch; eauto.
  - apply bool_decide_eq_false in Hrev, Hin. rewrite Hch in Hrev.
    assert (Hfresh : forall a, target ∉ children_of (tb_map st) a).
    { intros a Ha. apply Hin. eauto. }
    constructor; simpl.
    + intros a b. rewrite children_of_push_child by done.
      case_decide; rewrite !Hch; [|set_solver].
      rewrite elem_of_app, list_elem_of_singleton. set_solver.
    + intros a. rewrite children_of_push_child by done.
      case_decide; rewrite !Hch; [|done].
      apply NoDup_app. split; [done|]. split; [|apply NoDup_singleton].
      intros x Hx ->%list_elem_of_singleton. now apply (Hfresh source).
    + intros a a' b. rewrite !children_of_push_child by done.
      repeat case_decide; rewrite ?Hch, ?elem_of_app, ?list_elem_of_singleton;
        subst; try done.
      * intros [H1 | ->] H2; [eauto|]. now apply Hfresh in H2.
      * intros H1 [H2 | ->]; [eauto|]. now apply Hfresh in H1.
      * eauto.
    + intros a b Hab. rewrite !children_of_push_child by done.
      repeat case_decide; rewrite ?Hch, ?elem_of_app, ?list_elem_of_singleton;
        subst; try done.
      * intros [H1 | ->] H2; [eauto|]. now apply Hrev.
      * intros H1 [H2 | ->]; [eauto|]. now apply Hrev.
      * eauto.
Qed.

Lemma build_hierarchy_inv graph root :
  hierarchy_inv (build_hierarchy graph root).
Proof.
  unfold build_hierarchy.
  set (nodes := Graph.nodes graph).
  set (st0 := {| tb_map := _; tb_inTree := ∅ |}).
  assert (H0 : hierarchy_inv st0).
  { assert (Hnil : forall k, children_of (tb_map st0) k = []).
    { intros k. unfold children_of, st0. simpl.
      destruct (decide (id_of nodes root = k)) as [->|Hne].
      - now rewrite lookup_singleton_eq.
      - now rewrite lookup_singleton_ne. }
    constructor; intros *; rewrite ?Hnil; try (intros H; inversion H; fail).
    - apply NoDup_nil_2.
    - intros _ H; inversion H. }
  revert H0. generalize st0.
  induction (Graph.edges graph) as [|e es IH]; intros st H; simpl; [done|].
  apply IH. unfold attach_edge. now apply attach_inv.
Qed.

(** [d3.hierarchy] does not return on the hierarchy of the graph in which a
    path leads from [B] back to the root. *)
Lemma cycle_to_root_diverges fuel depth :
  hierarchy fuel (tb_map (build_hierarchy Examples.cycle_to_root 0)) "A" depth
  = None.
Proof.
  set (m := tb_map (build_hierarchy Examples.cycle_to_root 0)).
  assert (HA : m !! "A" = Some {| hnode_node := Some 0%nat;
                                  hnode_children := ["B"] |})
    by (vm_compute; reflexivity).
  assert (HB : m !! "B" = Some {| hnode_node := Some 1%nat;
                                  hnode_children := ["C"] |})
    by (vm_compute; reflexivity).
  assert (HC : m !! "C" = Some {| hnode_node := Some 2%nat;
                                  hnode_children := ["A"] |})
    by (vm_compute; reflexivity).
  clearbody m.
  assert (H : forall f d,
             hierarchy f m "A" d = None /\ hierarchy f m "B" d = None
             /\ hierarchy f m "C" d = None).
  { induction f as [|f IH]; intros d; [done|].
    destruct (IH (S d)) as (IA & IB & IC).
    simpl. rewrite HA, HB, HC. simpl. now rewrite IA, IB, IC. }
  apply H.
Qed.

(** C7 at the graph of [A], [B] and [C] with the edges from [A] to [B], from
    [B] to [A], from [B] to [C] and from [C] to [A], which holds the cycle of
    [A] and [B]; the root is [A], the first node. The root is never entered in
    [nodeMapInTree]: the edge from [C] to [A] makes the root a child of [C],
    the hierarchy is a cycle, and [d3.hierarchy] does not return, whatever
    [d3.tree] is, whatever the canvas and however many levels are allowed.
    Nothing is laid out and no edge is marked. The same omission shows on the
    cycle of [A] and [B] alone when the edge from [B] to [A] comes first: the
    root [A] becomes the child of [B], the tree under the root is [A] alone,
    [B] gets no position and both edges are drawn between end points that
    are [NaN]. *)
Theorem d3TreeLayout_cycle_to_root :
  Graph.edges Examples.cycle_to_root
  = [Examples.edge "AB" 0 1; Examples.edge "BA" 1 0;
     Examples.edge "BC" 1 2; Examples.edge "CA" 2 0]
  /\ find_root (Graph.nodes Examples.cycle_to_root) None = 0%nat
  /\ children_of (tb_map (build_hierarchy Examples.cycle_to_root 0)) "A"
     = ["B"]
  /\ children_of (tb_map (build_hierarchy Examples.cycle_to_root 0)) "B"
     = ["C"]
  /\ children_of (tb_map (build_hierarchy Examples.cycle_to_root 0)) "C"
     = ["A"]
  /\ (forall (d3_tree : HNode -> HNode) (fuel : nat)
        (p : IGraphLayoutParams),
        d3TreeLayout d3_tree fuel None Examples.cycle_to_root p = None)
  /\ children_of (tb_map (build_hierarchy Examples.two_cycle_reversed 0)) "A"
     = []
  /\ children_of (tb_map (build_hierarchy Examples.two_cycle_reversed 0)) "B"
     = ["A"]
  /\ (fun g => (Examples.positions g, drawn <$> Graph.edges g))
       <$> Examples.tree_layout 2 None Examples.two_cycle_reversed
             Examples.wide_canvas
     = Some ([(Some 250, Some 150); (None, None)],
             [(true, (Some nan, Some nan), (Some nan, Some nan));
              (true, (Some nan, Some nan), (Some nan, Some nan))]).
Proof.
  split; [reflexivity|]. split; [reflexivity|].
  split; [vm_compute; reflexivity|].
  split; [vm_compute; reflexivity|].
  split; [vm_compute; reflexivity|].
  split.
  { intros d3_tree fuel p. unfold d3TreeLayout.
    cbn [Graph.nodes Examples.cycle_to_root find_root].
    change (id_of _ 0) with "A".
    now rewrite cycle_to_root_diverges. }
  split; [vm_compute; reflexivity|].
  split; vm_compute; reflexivity.
Qed.

(** ** The handlers of [CSPViewer] *)

Lemma set_domain_set_domain d d' n :
  GraphNode.set_domain d (GraphNode.set_domain d' n) = GraphNode.set_domain d n.
Proof. reflexivity. Qed.

Lemma set_domain_same n : GraphNode.set_domain (GraphNode.domain n) n = n.
Proof. now destruct n. Qed.

(** Writing the domain of a node keeps the invariant of the graph. *)
Lemma Graph_wf_set_domain g k d :
  Graph_wf g ->
  Graph_wf (Graph.set_nodes
              (alter (GraphNode.set_domain d) k (Graph.nodes g)) g).
Proof.
  intros Hwf id r Hr. specialize (Hwf id r Hr). simpl in *.
  destruct r as [k'|k']; [|exact Hwf].
  destruct Hwf as (n & Hn & Hid).
  rewrite list_lookup_alter. case_decide; subst.
  - rewrite Hn. simpl. eauto.
  - eauto.
Qed.

(** The loop of [setDomains] on distinct ids that all name nodes. *)
Lemma setDomains_from_spec nodeIds :
  forall i domains g,
    Graph_wf g -> NoDup nodeIds ->
    (forall id, id ∈ nodeIds ->
       exists k, Graph.idMap g !! id = Some (NodeRef k)) ->
    let r := setDomains_from i nodeIds domains g in
    snd r = Returns
    /\ Graph.idMap (fst r) = Graph.idMap g
    /\ Graph.edges (fst r) = Graph.edges g
    /\ (forall j id k,
          nodeIds !! j = Some id -> Graph.idMap g !! id = Some (NodeRef k) ->
          GraphNode.domain <$> Graph.nodes (fst r) !! k
          = Some (domains !! (i + j)%nat))
    /\ (forall k,
          (forall id, id ∈ nodeIds ->
             Graph.idMap g !! id <> Some (NodeRef k)) ->
          Graph.nodes (fst r) !! k = Graph.nodes g !! k)
    /\ (forall k n,
          Graph.nodes g !! k = Some n ->
          exists d,
            Graph.nodes (fst r) !! k = Some (GraphNode.set_domain d n)).
Proof.
  induction nodeIds as [|id0 rest IH]; intros i domains g Hwf Hnd Hres r.
  - subst r. simpl. repeat split; try done.
    intros k n Hn. exists (GraphNode.domain n). now rewrite set_domain_same.
  - destruct (Hres id0) as [k0 Hk0]; [set_solver|].
    apply NoDup_cons in Hnd as [Hnotin Hnd].
    set (g1 := Graph.set_nodes
                 (alter (GraphNode.set_domain (domains !! i)) k0
                    (Graph.nodes g)) g).
    assert (Hr : r = setDomains_from (S i) rest domains g1).
    { subst r. simpl. now rewrite Hk0. }
    destruct (Hwf id0 _ Hk0) as (n0 & Hn0 & Hid0).
    assert (Hwf1 : Graph_wf g1) by now apply Graph_wf_set_domain.
    assert (Hres1 : forall id, id ∈ rest ->
              exists k, Graph.idMap g1 !! id = Some (NodeRef k)).
    { intros id Hin. apply Hres. set_solver. }
    destruct (IH (S i) domains g1 Hwf1 Hnd Hres1) as (R1 & R2 & R3 & R4 & R5 & R6).
    rewrite Hr. split; [exact R1|]. split; [exact R2|]. split; [exact R3|].
    assert (Hk0_free : forall id, id ∈ rest ->
              Graph.idMap g1 !! id <> Some (NodeRef k0)).
    { intros id Hin Hid. destruct (Hwf id _ Hid) as (n & Hn & Hidn).
      rewrite Hn0 in Hn. injection Hn as <-. congruence. }
    split; [|split].
    + intros [|j] id k Hj Hk.
      * assert (id = id0) by (simpl in Hj; congruence). subst id.
        assert (k = k0) by congruence. subst k.
        rewrite (R5 k0 Hk0_free). unfold g1. simpl.
        rewrite list_lookup_alter. case_decide; [|done].
        rewrite Hn0. simpl. now rewrite Nat.add_0_r.
      * rewrite (R4 j id k Hj Hk). f_equal. f_equal. lia.
    + intros k Hfree. rewrite R5.
      * unfold g1. simpl. rewrite list_lookup_alter.
        case_decide as Hk; [|done].
        exfalso. apply (Hfree id0); [set_solver | now rewrite <- Hk].
      * intros id Hin. apply Hfree. set_solver.
    + intros k n Hn.
      destruct (decide (k = k0)) as [->|Hne].
      * destruct (R6 k0 (GraphNode.set_domain (domains !! i) n)) as [d Hd].
        { unfold g1. simpl. rewrite list_lookup_alter.
          case_decide; [|done]. now rewrite Hn. }
        exists d. now rewrite Hd.
      * apply R6. unfold g1. simpl. rewrite list_lookup_alter.
        case_decide; [congruence | exact Hn].
Qed.

(** C2, as the code has it. [setDomains] compares no lengths and rejects
    nothing. When the ids of the event are distinct and name nodes of the
    graph, the handler returns and the node named by [nodeIds[i]] has the
    domain [domains[i]], which is [undefined] when [domains] is the shorter
    array; the nodes that are not named are unchanged, and nothing but
    domains is written. *)
Theorem setDomains_assigns :
  forall (view : CSPViewer) (nodeIds : list string)
    (domains : list (list string)),
    Graph_wf (graph view) -> NoDup nodeIds ->
    (forall id, id ∈ nodeIds ->
       exists k, Graph.idMap (graph view) !! id = Some (NodeRef k)) ->
    let r := setDomains nodeIds domains view in
    snd r = Returns
    /\ (forall i id k,
          nodeIds !! i = Some id ->
          Graph.idMap (graph view) !! id = Some (NodeRef k) ->
          GraphNode.domain <$> Graph.nodes (graph (fst r)) !! k
          = Some (domains !! i))
    /\ (forall k,
          (forall id, id ∈ nodeIds ->
             Graph.idMap (graph view) !! id <> Some (NodeRef k)) ->
          Graph.nodes (graph (fst r)) !! k = Graph.nodes (graph view) !! k)
    /\ (forall k n,
          Graph.nodes (graph view) !! k = Some n ->
          exists d,
            Graph.nodes (graph (fst r)) !! k
            = Some (GraphNode.set_domain d n))
    /\ Graph.edges (graph (fst r)) = Graph.edges (graph view)
    /\ Graph.idMap (graph (fst r)) = Graph.idMap (graph view)
    /\ vue (fst r) = vue view
    /\ previouslyRendered (fst r) = previouslyRendered view.
Proof.
  intros view nodeIds domains Hwf Hnd Hres r.
  destruct (setDomains_from_spec nodeIds 0 domains (graph view) Hwf Hnd Hres)
    as (R1 & R2 & R3 & R4 & R5 & R6).
  subst r. unfold setDomains. simpl.
  split; [exact R1|]. split; [exact R4|]. split; [exact R5|].
  split; [exact R6|]. now repeat split.
Qed.

Lemma csp_graph_wf : Graph_wf Examples.csp_graph.
Proof.
  intros id r H. apply elem_of_list_to_map_2 in H.
  repeat (apply elem_of_cons in H as [H|H];
          [injection H as -> ->; simpl; eexists; split; reflexivity|]).
  inversion H.
Qed.

(** The theorem at the event that gives [n1] the domain [a, b] and [n2] the
    domain [c]. *)
Lemma setDomains_assigns_witness :
  GraphNode.domain
    <$> Graph.nodes
          (graph (fst (setDomains ["n1"; "n2"] [["a"; "b"]; ["c"]]
                         Examples.rendered))) !! 0%nat
  = Some (Some ["a"; "b"])
  /\ GraphNode.domain
       <$> Graph.nodes
             (graph (fst (setDomains ["n1"; "n2"] [["a"; "b"]; ["c"]]
                            Examples.rendered))) !! 1%nat
     = Some (Some ["c"]).
Proof.
  destruct (setDomains_assigns Examples.rendered ["n1"; "n2"]
              [["a"; "b"]; ["c"]]) as (_ & H & _).
  - exact csp_graph_wf.
  - repeat constructor; set_solver.
  - intros id Hin.
    repeat (apply elem_of_cons in Hin as [->|Hin];
            [eexists; vm_compute; reflexivity|]).
    inversion Hin.
  - split.
    + apply (H 0%nat "n1" 0%nat); [reflexivity | vm_compute; reflexivity].
    + apply (H 1%nat "n2" 1%nat); [reflexivity | vm_compute; reflexivity].
Defined.

(** C2 fails as stated. An event with two ids and one domain is not
    rejected: the handler returns, [n1] gets the domain and [n2] loses its
    own. And with arrays of equal lengths that name [n1] twice, [n1] ends
    with the second domain, not with the first. *)
Lemma setDomains_mismatch_applied :
  Examples.domains_of Examples.rendered
  = [Some ["1"; "2"; "3"]; Some ["1"; "2"]]
  /\ snd (setDomains ["n1"; "n2"] [["a"; "b"]] Examples.rendered) = Returns
  /\ Examples.domains_of
       (fst (setDomains ["n1"; "n2"] [["a"; "b"]] Examples.rendered))
     = [Some ["a"; "b"]; None]
  /\ Examples.domains_of
       (fst (setDomains ["n1"; "n1"] [["a"]; ["b"]] Examples.rendered))
     = [Some ["b"]; Some ["1"; "2"]].
Proof. evaluated. Qed.

Lemma set_stroke_idMap r stroke strokeWidth g :
  Graph.idMap (set_stroke r stroke strokeWidth g) = Graph.idMap g.
Proof. now destruct r. Qed.

Lemma set_graph_same view : set_graph (graph view) view = view.
Proof. now destruct view. Qed.

(** Each loop stops at an id that [idMap] does not hold, having done what it
    does for the ids before it. *)
Lemma highlight_named_nodes_stops pre bad post colour :
  forall g,
    Graph.idMap g !! bad = None ->
    highlight_named_nodes (pre ++ bad :: post) colour g
    = (fst (highlight_named_nodes pre colour g), TypeError).
Proof.
  induction pre as [|a pre IH]; intros g Hbad; simpl.
  - now rewrite Hbad.
  - destruct (Graph.idMap g !! a) as [r|]; [|done].
    apply IH. now rewrite set_stroke_idMap.
Qed.

Lemma highlight_named_arcs_stops pre bad post colour strokeWidth :
  forall g,
    Graph.idMap g !! bad = None ->
    highlight_named_arcs (pre ++ bad :: post) colour strokeWidth g
    = (fst (highlight_named_arcs pre colour strokeWidth g), TypeError).
Proof.
  induction pre as [|a pre IH]; intros g Hbad; simpl.
  - now rewrite Hbad.
  - destruct (Graph.idMap g !! a) as [r|]; [|done].
    apply IH. now rewrite set_stroke_idMap.
Qed.

Lemma setDomains_from_stops pre bad post domains :
  forall i g,
    Graph.idMap g !! bad = None ->
    setDomains_from i (pre ++ bad :: post) domains g
    = (fst (setDomains_from i pre domains g), TypeError).
Proof.
  induction pre as [|a pre IH]; intros i g Hbad; simpl.
  - now rewrite Hbad.
  - destruct (Graph.idMap g !! a) as [[k|k]|]; [| |done]; now apply IH.
Qed.

(** C3, as the code has it. A [HighlightNodes], [HighlightArcs] (with ids)
    or [SetDomains] message that names an id absent from [idMap] is handled
    up to that id: the handler leaves the view as the same message cut
    before that id would, and ends there with a [TypeError], so that the ids
    after it are not handled. When the absent id comes first the view is
    unchanged. The messages that follow are handled on the view so left. *)
Theorem unknown_id_stops_handler :
  forall (window_prompt : string -> string -> option string)
    (view : CSPViewer) (pre : list string) (bad : string)
    (post : list string),
    Graph.idMap (graph view) !! bad = None ->
    (forall colour,
        on_msg window_prompt view
          (HighlightNodesEvent (pre ++ bad :: post) colour)
        = {| after := after (on_msg window_prompt view
                               (HighlightNodesEvent pre colour));
             sent := []; completion := TypeError |})
    /\ (forall colour style,
          on_msg window_prompt view
            (HighlightArcsEvent (Some (pre ++ bad :: post)) colour style)
          = {| after := after (on_msg window_prompt view
                                 (HighlightArcsEvent (Some pre) colour style));
               sent := []; completion := TypeError |})
    /\ (forall domains,
          on_msg window_prompt view
            (SetDomainsEvent (pre ++ bad :: post) domains)
          = {| after := after (on_msg window_prompt view
                                 (SetDomainsEvent pre domains));
               sent := []; completion := TypeError |})
    /\ (forall colour style domains,
          after (on_msg window_prompt view
                   (HighlightNodesEvent (bad :: post) colour)) = view
          /\ after (on_msg window_prompt view
                      (HighlightArcsEvent (Some (bad :: post)) colour style))
             = view
          /\ after (on_msg window_prompt view
                      (SetDomainsEvent (bad :: post) domains)) = view)
    /\ (forall (Sim : Type)
          (forceSimulation :
             Graph.t -> IGraphLayoutParams -> Sim * list GraphNode.t)
          (tick : Sim -> list GraphNode.t -> Sim * list GraphNode.t)
          (measured : IGraphLayoutParams) event rest,
          run window_prompt Sim forceSimulation tick measured view
            (Message event :: rest)
          = (fst (run window_prompt Sim forceSimulation tick measured
                    (after (on_msg window_prompt view event)) rest),
             sent (on_msg window_prompt view event)
             ++ snd (run window_prompt Sim forceSimulation tick measured
                       (after (on_msg window_prompt view event)) rest))).
Proof.
  intros wp view pre bad post Hbad.
  split; [|split; [|split; [|split]]].
  - intros colour. simpl. unfold handled, highlightNodes.
    rewrite highlight_named_nodes_stops by done.
    destruct (vue view), pre; simpl; try reflexivity.
    now rewrite set_graph_same.
  - intros colour style. simpl. unfold handled, highlightArcs.
    rewrite highlight_named_arcs_stops by done.
    destruct (vue view), pre; simpl; try reflexivity.
    now rewrite set_graph_same.
  - intros domains. simpl. unfold handled, setDomains.
    now rewrite setDomains_from_stops by done.
  - intros colour style domains. simpl.
    unfold highlightNodes, highlightArcs, setDomains. simpl.
    rewrite Hbad. simpl.
    destruct (vue view); simpl; rewrite ?set_graph_same; done.
  - reflexivity.
Qed.

(** The theorem at a message that names [n1], an unknown id and [n2]. *)
Lemma unknown_id_stops_handler_witness :
  on_msg Examples.cancels Examples.rendered
    (HighlightNodesEvent ["n1"; "bogus"; "n2"] (Some "red"))
  = {| after := after (on_msg Examples.cancels Examples.rendered
                         (HighlightNodesEvent ["n1"] (Some "red")));
       sent := []; completion := TypeError |}.
Proof.
  destruct (unknown_id_stops_handler Examples.cancels Examples.rendered
              ["n1"] "bogus" ["n2"]) as (H & _).
  - vm_compute. reflexivity.
  - exact (H (Some "red")).
Defined.

(** C3 fails as stated: the message that names [n1], an unknown id and [n2]
    changes the stroke of [n1], leaves [n2] as it was and ends with a
    [TypeError]. *)
Lemma unknown_id_partial_effect :
  Examples.strokes_of Examples.rendered = [(None, None); (None, None)]
  /\ Examples.strokes_of
       (after (on_msg Examples.cancels Examples.rendered
                 (HighlightNodesEvent ["n1"; "bogus"; "n2"] (Some "red"))))
     = [(Some "red", Some 2); (None, None)]
  /\ completion (on_msg Examples.cancels Examples.rendered
                   (HighlightNodesEvent ["n1"; "bogus"; "n2"] (Some "red")))
     = TypeError
  /\ Examples.domains_of
       (after (on_msg Examples.cancels Examples.rendered
                 (SetDomainsEvent ["n1"; "bogus"; "n2"]
                    [["a"]; ["b"]; ["c"]])))
     = [Some ["a"]; Some ["1"; "2"]].
Proof. evaluated. Qed.

(** ** The first render *)

Lemma rerender_sends_nothing window_prompt Sim forceSimulation tick measured
    n :
  forall view,
    previouslyRendered view = true ->
    snd (run window_prompt Sim forceSimulation tick measured view
           (replicate n Display)) = [].
Proof.
  induction n as [|n IH]; intros view Hflag; [done|].
  cbn [replicate run perform]. unfold render. rewrite Hflag.
  cbn [negb sent after app]. now apply IH.
Qed.

(** C8, as the code has it. A render mounts a new component, which lays the
    graph out with the force layout on the canvas it measures, whatever the
    [previouslyRendered] property of the model. It sends [initial_render] and
    highlights every arc in blue exactly when that property is false at that
    render; when it is true the render sends nothing and leaves the edges as
    they are. The render does not write the property: it is the same after
    as before. Once the model holds true, no number of renders sends
    anything. *)
Theorem render_initial_render :
  forall (Sim : Type)
    (forceSimulation : Graph.t -> IGraphLayoutParams -> Sim * list GraphNode.t)
    (tick : Sim -> list GraphNode.t -> Sim * list GraphNode.t)
    (measured : IGraphLayoutParams)
    (window_prompt : string -> string -> option string)
    (view : CSPViewer),
    let rendered := render Sim forceSimulation tick measured view in
    let laid :=
      d3ForceLayout Sim forceSimulation tick (graph view) measured in
    sent rendered
    = (if previouslyRendered view then [] else [initial_render])
    /\ completion rendered = Returns
    /\ previouslyRendered (after rendered) = previouslyRendered view
    /\ vue (after rendered) = Some {| output := None |}
    /\ graph (after rendered)
       = (if previouslyRendered view then laid
          else Graph.set_edges
                 (map (highlight_edge (Some "blue") 4)
                    (Graph.edges (graph view))) laid)
    /\ Graph.edges (graph (after rendered))
       = (if previouslyRendered view then Graph.edges (graph view)
          else map (highlight_edge (Some "blue") 4)
                 (Graph.edges (graph view)))
    /\ (forall n,
          snd (run window_prompt Sim forceSimulation tick measured
                 (model_set_previouslyRendered true (after rendered))
                 (replicate n Display)) = []).
Proof.
  intros Sim fs tick measured wp view. cbn zeta. unfold render.
  destruct (previouslyRendered view) eqn:Hflag; cbn [negb];
    (split; [reflexivity|]); (split; [reflexivity|]);
    (split; [cbn; now rewrite ?Hflag|]); (split; [reflexivity|]);
    (split; [reflexivity|]); (split; [reflexivity|]);
    intros n; now apply rerender_sends_nothing.
Qed.

(** C8 fails as stated: two renders of the view, with nothing in between
    that writes the property of the model, send [initial_render] twice. *)
Lemma render_twice_sends_twice :
  previouslyRendered Examples.created = false
  /\ snd (Examples.run Examples.cancels Examples.created [Display; Display])
     = [initial_render; initial_render]
  /\ previouslyRendered
       (fst (Examples.run Examples.cancels Examples.created
               [Display; Display]))
     = false.
Proof. evaluated. Qed.

(** ** The choice of a domain split *)

Lemma split_comma_no_comma s : no_comma s = true -> split_comma s = [s].
Proof.
  induction s as [|c s IH]; simpl; [done|].
  intros [Hc Hs]%andb_true_iff. apply negb_true_iff in Hc.
  now rewrite Hc, IH.
Qed.

Lemma split_comma_app s t :
  no_comma s = true ->
  split_comma (String.append s (String (Ascii.ascii_of_nat 44) t))
  = s :: split_comma t.
Proof.
  induction s as [|c s IH]; simpl; [done|].
  intros [Hc Hs]%andb_true_iff. apply negb_true_iff in Hc.
  now rewrite Hc, IH.
Qed.

Lemma split_comma_concat l :
  Forall (fun d => no_comma d = true) l -> l <> [] ->
  split_comma (String.concat "," l) = l.
Proof.
  induction 1 as [|d l Hd Hl IH]; intros Hne; [done|].
  destruct l as [|d' l'].
  - simpl. now apply split_comma_no_comma.
  - change (String.concat "," (d :: d' :: l'))
      with (String.append d
              (String (Ascii.ascii_of_nat 44) (String.concat "," (d' :: l')))).
    rewrite split_comma_app by done. now rewrite IH.
Qed.

Lemma split_comma_pieces s :
  Forall (fun d => no_comma d = true) (split_comma s).
Proof.
  induction s as [|c s IH]; simpl; [repeat constructor|].
  destruct (Ascii.eqb c (Ascii.ascii_of_nat 44)) eqn:Hc.
  - now constructor.
  - destruct (split_comma s) as [|piece pieces]; constructor; simpl.
    + now rewrite Hc.
    + constructor.
    + rewrite Hc. simpl. now inversion IH.
    + now inversion IH.
Qed.

(** C9, as the code has it. The view answers a [ChooseDomainSplit] message
    with one [domain_split] message and leaves itself unchanged. The domain
    of the reply is [null] when the user cancels the prompt; otherwise it is
    the list of the non-empty pieces between the commas of the text the user
    typed, whether or not they are values of the domain offered. It is the
    domain offered when the user keeps the text the prompt starts with and
    the values offered are non-empty and hold no comma. *)
Theorem domain_split_reply :
  forall (window_prompt : string -> string -> option string)
    (view : CSPViewer) (domain : list string),
    let offered := String.concat "," domain in
    let answer :=
      window_prompt
        "Choose domain for first split. Cancel to choose a default split."
        offered in
    let h := on_msg window_prompt view (ChooseDomainSplitEvent domain) in
    after h = view
    /\ completion h = Returns
    /\ (exists reply,
          sent h = [domain_split reply]
          /\ (answer = None -> reply = None)
          /\ (forall text,
                answer = Some text ->
                reply = Some (List.filter (fun d => truthy (Some d))
                                (split_comma text))
                /\ forall values,
                     reply = Some values ->
                     Forall (fun d => truthy (Some d) = true
                                      /\ no_comma d = true) values))
    /\ (answer = Some offered ->
        Forall (fun d => truthy (Some d) = true /\ no_comma d = true) domain ->
        sent h = [domain_split (Some domain)]).
Proof.
  intros wp view domain offered answer h.
  split; [reflexivity|]. split; [reflexivity|]. split.
  - subst h. simpl. fold offered. fold answer.
    destruct answer as [text|] eqn:Ha.
    + eexists. split; [reflexivity|]. split; [discriminate|].
      intros text' [= <-]. split; [reflexivity|].
      intros values [= <-].
      apply Forall_forall. intros d Hd.
      apply list_elem_of_In, filter_In in Hd as [Hin Htr].
      split; [exact Htr|].
      pose proof (split_comma_pieces text) as Hp.
      rewrite Forall_forall in Hp. apply Hp. now apply list_elem_of_In.
    + exists None. split; [reflexivity|]. split; [reflexivity|].
      intros text'. discriminate.
  - intros Ha Hdom. subst h. simpl. fold offered. fold answer. rewrite Ha.
    do 3 f_equal. subst offered.
    destruct domain as [|d l]; [reflexivity|].
    rewrite split_comma_concat; [| |done].
    + apply forallb_filter_id. apply forallb_forall. intros x Hx.
      rewrite Forall_forall in Hdom. apply Hdom. now apply list_elem_of_In.
    + eapply Forall_impl; [exact Hdom|]. now intros x [_ Hx].
Qed.

(** C9 fails as stated: offered the domain [a, b, c], a user who types [z]
    is answered for with the domain [z], which is no subset of it. *)
Lemma domain_split_not_subset :
  sent (on_msg (Examples.types "z") Examples.rendered
          (ChooseDomainSplitEvent ["a"; "b"; "c"]))
  = [domain_split (Some ["z"])]
  /\ forallb (fun v => bool_decide (v ∈ ["a"; "b"; "c"])) ["z"] = false
  /\ sent (on_msg Examples.cancels Examples.rendered
             (ChooseDomainSplitEvent ["a"; "b"; "c"]))
     = [domain_split None]
  /\ sent (on_msg Examples.accepts Examples.rendered
             (ChooseDomainSplitEvent ["a"; "b"; "c"]))
     = [domain_split (Some ["a"; "b"; "c"])].
Proof. evaluated. Qed.

(** * Further properties of the layouts and of the views *)

(** ** The root and the hierarchy of the tree layout *)

(** X1. The root of the tree layout is a node of the graph. When [rootId]
    is the id of a node, the root is the first node with that id; when no node
    has that id, or no [rootId] is given, it is the first node. *)
Theorem find_root_is_a_node :
  forall (nodes : list GraphNode.t) (rootId : option string),
    nodes <> [] ->
    find_root nodes rootId < length nodes
    /\ (forall r i n,
          rootId = Some r -> nodes !! i = Some n -> GraphNode.id n = r ->
          find_root nodes rootId <= i
          /\ id_of nodes (find_root nodes rootId) = r)
    /\ ((forall n, n ∈ nodes -> Some (GraphNode.id n) <> rootId) ->
        find_root nodes rootId = 0%nat).
Proof.
  intros nodes rootId Hne.
  assert (H0 : 0 < length nodes) by (destruct nodes; [done|simpl; lia]).
  unfold find_root. destruct rootId as [r|]; [|repeat split; [done|done|done]].
  destruct (list_find _ nodes) as [[i n]|] eqn:Hf.
  - apply list_find_Some in Hf as (Hi & Hid & Hmin).
    split; [eapply lookup_lt_Some; eauto|]. split.
    + intros r' j m [= <-] Hj Hm. split.
      * destruct (decide (i <= j)); [done|].
        exfalso. apply (Hmin j m Hj); [lia | done].
      * unfold id_of. now rewrite Hi.
    + intros Hnone. exfalso. apply (Hnone n); [|now rewrite Hid].
      eapply list_elem_of_lookup_2; eauto.
  - apply list_find_None in Hf. rewrite Forall_forall in Hf.
    split; [done|]. split; [|done].
    intros r' j m [= <-] Hj Hm. exfalso.
    apply (Hf m); [eapply list_elem_of_lookup_2; eauto | done].
Qed.

(** The theorem at the tree with the nodes [r], [c1], [c2] and [far], for the
    root id [c2]. *)
Lemma find_root_is_a_node_witness :
  find_root (Graph.nodes TreeCases.family) (Some "c2") = 2%nat
  /\ id_of (Graph.nodes TreeCases.family) (find_root (Graph.nodes TreeCases.family) (Some "c2"))
     = "c2".
Proof.
  destruct (find_root_is_a_node (Graph.nodes TreeCases.family) (Some "c2"))
    as (_ & H & _); [discriminate|].
  destruct (H "c2" 2%nat (Examples.node "c2" None None)) as [_ Hid];
    [reflexivity..|].
  split; [vm_compute; reflexivity | exact Hid].
Defined.

Lemma ensure_keeps_keys nodeMap key map k :
  is_Some (map !! k) -> is_Some (ensure nodeMap key map !! k).
Proof.
  intros Hk. unfold ensure. destruct (map !! key) eqn:E; [done|].
  destruct (decide (key = k)) as [->|Hne].
  - rewrite lookup_insert_eq. eauto.
  - now rewrite lookup_insert_ne.
Qed.

Lemma push_child_keeps_keys key child map k :
  is_Some (map !! k) -> is_Some (push_child key child map !! k).
Proof.
  intros Hk. unfold push_child. destruct (map !! key) eqn:E; [|done].
  destruct (decide (key = k)) as [->|Hne].
  - rewrite lookup_insert_eq. eauto.
  - now rewrite lookup_insert_ne.
Qed.

Lemma attach_edge_sound nodes nodeMap rootId done st e :
  hierarchy_sound nodes rootId done st ->
  hierarchy_sound nodes rootId (done ++ [e]) (attach_edge nodes nodeMap st e).
Proof.
  intros [S1 S2 S3 S4]. unfold attach_edge, attach.
  set (source := id_of nodes (GraphEdge.source e)).
  set (target := id_of nodes (GraphEdge.target e)).
  set (map2 := ensure nodeMap source (ensure nodeMap target (tb_map st))).
  assert (Hch : forall k, children_of map2 k = children_of (tb_map st) k).
  { intros k. unfold map2. now rewrite !children_of_ensure. }
  assert (Hkeys : forall k, is_Some (tb_map st !! k) -> is_Some (map2 !! k)).
  { intros k Hk. unfold map2. now do 2 apply ensure_keeps_keys. }
  assert (Hs : is_Some (map2 !! source)) by apply ensure_is_Some.
  assert (Ht : is_Some (map2 !! target)).
  { unfold map2. apply ensure_keeps_keys, ensure_is_Some. }
  destruct (bool_decide (source ∈ children_of map2 target)
            || bool_decide (target ∈ tb_inTree st)); simpl.
  - constructor; simpl.
    + intros a b. rewrite Hch. intros Hin. destruct (S1 a b Hin) as (e' & He' & Hid).
      exists e'. split; [set_solver | done].
    + intros a b. rewrite Hch. eauto.
    + eauto.
    + intros b Hb. destruct (S4 b Hb) as [a Ha]. exists a. now rewrite Hch.
  - constructor; simpl.
    + intros a b. rewrite children_of_push_child by done.
      case_decide; rewrite Hch.
      * subst a. rewrite elem_of_app, list_elem_of_singleton.
        intros [Hin | ->].
        -- destruct (S1 _ _ Hin) as (e' & He' & Hid). exists e'. set_solver.
        -- exists e. split; [set_solver | done].
      * intros Hin. destruct (S1 _ _ Hin) as (e' & He' & Hid).
        exists e'. set_solver.
    + intros a b. rewrite children_of_push_child by done.
      intros Hin. apply push_child_keeps_keys.
      case_decide; rewrite Hch in Hin.
      * apply elem_of_app in Hin as [Hin | ->%list_elem_of_singleton]; eauto.
      * eauto.
    + apply push_child_keeps_keys. eauto.
    + intros b [->%elem_of_singleton | Hb]%elem_of_union.
      * exists source. rewrite children_of_push_child by done.
        rewrite decide_True by done. set_solver.
      * destruct (S4 b Hb) as [a Ha]. exists a.
        rewrite children_of_push_child by done.
        case_decide; rewrite Hch; [subst; set_solver | done].
Qed.

Lemma fold_attach_sound nodes nodeMap rootId rest :
  forall done st,
    hierarchy_sound nodes rootId done st ->
    hierarchy_sound nodes rootId (done ++ rest)
      (fold_left (attach_edge nodes nodeMap) rest st).
Proof.
  induction rest as [|e rest IH]; intros done st H; simpl.
  - now rewrite app_nil_r.
  - replace (done ++ e :: rest) with ((done ++ [e]) ++ rest)
      by now rewrite <- app_assoc.
    apply IH. now apply attach_edge_sound.
Qed.

Lemma build_hierarchy_sound graph root :
  hierarchy_sound (Graph.nodes graph) (id_of (Graph.nodes graph) root)
    (Graph.edges graph) (build_hierarchy graph root).
Proof.
  unfold build_hierarchy.
  apply (fold_attach_sound _ _ _ (Graph.edges graph) []).
  assert (Hnil : forall k,
            children_of {[id_of (Graph.nodes graph) root :=
                            {| hnode_node := Some root;
                               hnode_children := [] |}]} k = []).
  { intros k. unfold children_of.
    destruct (decide (id_of (Graph.nodes graph) root = k)) as [->|Hne].
    - now rewrite lookup_singleton_eq.
    - now rewrite lookup_singleton_ne. }
  constructor; simpl.
  - intros a b. rewrite Hnil. intros H. inversion H.
  - intros a b. rewrite Hnil. intros H. inversion H.
  - rewrite lookup_singleton_eq. eauto.
  - intros b Hb. set_solver.
Qed.

(** X2. Every parent/child link of the hierarchy comes from an edge of the
    graph between the nodes with those ids; a datum has at most one parent, is
    a key of [map] and is recorded in [nodeMapInTree]. *)
Theorem hierarchy_edges_are_graph_edges :
  forall (graph : Graph.t) (root : nat) (a b : string),
    let built := build_hierarchy graph root in
    b ∈ children_of (tb_map built) a ->
    (exists e,
        e ∈ Graph.edges graph
        /\ id_of (Graph.nodes graph) (GraphEdge.source e) = a
        /\ id_of (Graph.nodes graph) (GraphEdge.target e) = b)
    /\ (forall a', b ∈ children_of (tb_map built) a' -> a' = a)
    /\ is_Some (tb_map built !! b)
    /\ b ∈ tb_inTree built.
Proof.
  intros graph root a b built Hb.
  destruct (build_hierarchy_sound graph root) as [S1 S2 _ _].
  destruct (build_hierarchy_inv graph root) as [I1 _ I3 _].
  split; [|split; [|split]].
  - destruct (S1 a b Hb) as (e & He & Hid). exists e.
    unfold edge_ids in Hid. injection Hid as H1 H2. done.
  - intros a' Ha'. exact (I3 a' a b Ha' Hb).
  - exact (S2 a b Hb).
  - exact (I1 a b Hb).
Qed.

(** The theorem at the graph of [A] and [B], for the link from [A] to
    [B]. *)
Lemma hierarchy_edges_are_graph_edges_witness :
  exists e,
    e ∈ Graph.edges Examples.two_cycle
    /\ id_of (Graph.nodes Examples.two_cycle) (GraphEdge.source e) = "A"
    /\ id_of (Graph.nodes Examples.two_cycle) (GraphEdge.target e) = "B".
Proof.
  destruct (hierarchy_edges_are_graph_edges Examples.two_cycle 0 "A" "B")
    as (H & _).
  - vm_compute. apply list_elem_of_here.
  - exact H.
Defined.

Section Reached.

Variable map : HierarchyMap.
Variable root : string.

(** No datum lists the root, and no two data list the same child. *)
Hypothesis root_free : forall a, root ∉ children_of map a.
Hypothesis one_parent : forall a a' b,
  b ∈ children_of map a -> b ∈ children_of map a' -> a = a'.
Hypothesis child_key : forall a b,
  b ∈ children_of map a -> is_Some (map !! b).
Hypothesis root_key : is_Some (map !! root).

Lemma reached_head b path : reached map root b path -> exists p, path = b :: p.
Proof. destruct 1; eauto. Qed.

Lemma reached_unique b p :
  reached map root b p -> forall q, reached map root b q -> p = q.
Proof.
  induction 1 as [|a b p Hp IH Hb]; intros q Hq.
  - inversion Hq as [|a' b' q' Hq' Hb']; subst; [done|].
    now destruct (root_free a').
  - inversion Hq as [|a' b' q' Hq' Hb']; subst.
    + now destruct (root_free a).
    + assert (a = a') by eauto. subst a'. f_equal. now apply IH.
Qed.

Lemma reached_suffix b p :
  reached map root b p ->
  forall x, x ∈ p -> exists pre s, p = pre ++ s /\ reached map root x s.
Proof.
  induction 1 as [|a b p Hp IH Hb]; intros x Hx.
  - apply list_elem_of_singleton in Hx as ->.
    exists [], [root]. split; [done | constructor].
  - apply elem_of_cons in Hx as [->|Hx].
    + exists [], (b :: p). split; [done | eapply reached_child; eauto].
    + destruct (IH x Hx) as (pre & s & -> & Hs).
      exists (b :: pre), s. split; [done | done].
Qed.

Lemma reached_NoDup b p : reached map root b p -> NoDup p.
Proof.
  induction 1 as [|a b p Hp IH Hb]; [apply NoDup_singleton|].
  apply NoDup_cons. split; [|done].
  intros Hin. destruct (reached_suffix a p Hp b Hin) as (pre & s & E & Hs).
  assert (E' : b :: p = s)
    by (apply (reached_unique b); [eapply reached_child; eauto | done]).
  apply (f_equal length) in E. rewrite <- E', length_app in E. simpl in E. lia.
Qed.

Lemma reached_keys b p :
  reached map root b p -> forall x, x ∈ p -> x ∈ dom map.
Proof.
  induction 1 as [|a b p Hp IH Hb]; intros x Hx.
  - apply list_elem_of_singleton in Hx as ->. now apply elem_of_dom.
  - apply elem_of_cons in Hx as [->|Hx]; [|eauto].
    apply elem_of_dom. eauto.
Qed.

Lemma reached_length b p : reached map root b p -> length p <= size map.
Proof.
  intros H. rewrite <- (size_list_to_set (C := gset string) p)
    by now apply (reached_NoDup b).
  rewrite <- size_dom. apply subseteq_size.
  intros x Hx%elem_of_list_to_set. now apply (reached_keys b p).
Qed.

Lemma hierarchy_returns fuel :
  forall b p depth,
    reached map root b p -> size map < fuel + length p ->
    is_Some (hierarchy fuel map b depth).
Proof.
  induction fuel as [|fuel IH]; intros b p depth Hp Hfuel.
  - pose proof (reached_length b p Hp). simpl in Hfuel. lia.
  - assert (Hb : is_Some (map !! b)).
    { apply elem_of_dom, (reached_keys b p Hp).
      destruct (reached_head b p Hp) as [p' ->]. set_solver. }
    destruct Hb as [d Hd]. simpl. rewrite Hd.
    assert (Hcs : is_Some (mapM (fun k => hierarchy fuel map k (S depth))
                             (hnode_children d))).
    { apply mapM_is_Some, Forall_forall. intros c Hc. simpl.
      apply (IH c (c :: p)).
      - eapply reached_child; [exact Hp|]. unfold children_of.
        now rewrite Hd.
      - simpl. lia. }
    destruct Hcs as [cs ->]. eauto.
Qed.

End Reached.

Lemma hierarchy_more_fuel map fuel :
  forall key depth tree,
    hierarchy fuel map key depth = Some tree ->
    hierarchy (S fuel) map key depth = Some tree.
Proof.
  induction fuel as [|fuel IH]; intros key depth tree H; [done|].
  cbn [hierarchy] in H. change (hierarchy (S (S fuel)) map key depth)
    with (match map !! key with
          | None => None
          | Some d =>
              match mapM (fun k => hierarchy (S fuel) map k (S depth))
                      (hnode_children d) with
              | Some cs => Some (hnode key (hnode_node d) depth None None cs)
              | None => None
              end
          end).
  destruct (map !! key) as [d|]; [|done].
  destruct (mapM (fun k => hierarchy fuel map k (S depth)) (hnode_children d))
    as [cs|] eqn:Hcs; [|done].
  apply mapM_Some in Hcs.
  assert (Hcs' : mapM (fun k => hierarchy (S fuel) map k (S depth))
                   (hnode_children d) = Some cs).
  { apply mapM_Some. eapply Forall2_impl; [exact Hcs|].
    intros k t Hk. now apply IH. }
  now rewrite Hcs'.
Qed.

Lemma hierarchy_fuel_le map fuel fuel' key depth tree :
  fuel <= fuel' ->
  hierarchy fuel map key depth = Some tree ->
  hierarchy fuel' map key depth = Some tree.
Proof.
  induction 1 as [|fuel' Hle IH]; [done|].
  intros H. now apply hierarchy_more_fuel, IH.
Qed.

(** X3. When no edge of the graph points at the root, the root is nobody's
    child, [d3.hierarchy] returns within as many levels as [map] has keys, and
    the tree layout of a graph that has a node returns the graph that
    [place_tree] makes of that tree. *)
Theorem d3TreeLayout_returns :
  forall (d3_tree : HNode -> HNode) (rootId : option string)
    (graph : Graph.t) (layoutParams : IGraphLayoutParams),
    let nodes := Graph.nodes graph in
    let root := find_root nodes rootId in
    let built := build_hierarchy graph root in
    (forall e, e ∈ Graph.edges graph ->
       id_of nodes (GraphEdge.target e) <> id_of nodes root) ->
    (id_of nodes root ∉ tb_inTree built)
    /\ exists tree,
         forall fuel,
           size (tb_map built) < fuel ->
           hierarchy fuel (tb_map built) (id_of nodes root) 0 = Some tree
           /\ (nodes <> [] ->
               d3TreeLayout d3_tree fuel rootId graph layoutParams
               = Some (place_tree d3_tree graph layoutParams tree)).
Proof.
  intros d3_tree rootId graph p nodes root built Hroot.
  destruct (build_hierarchy_sound graph root) as [S1 S2 S3 S4].
  destruct (build_hierarchy_inv graph root) as [I1 _ I3 _].
  fold nodes built in S1, S2, S3, S4, I1, I3.
  assert (Hfree : forall a, id_of nodes root ∉ children_of (tb_map built) a).
  { intros a Ha. destruct (S1 a _ Ha) as (e & He & Hid).
    apply (Hroot e He). unfold edge_ids in Hid. now injection Hid. }
  split.
  { intros Hin. destruct (S4 _ Hin) as [a Ha]. now apply (Hfree a). }
  destruct (hierarchy_returns (tb_map built) (id_of nodes root)
              Hfree I3 S2 S3 (S (size (tb_map built)))
              (id_of nodes root) [id_of nodes root] 0)
    as [tree Htree]; [constructor | simpl; lia |].
  exists tree. intros fuel Hfuel.
  assert (Hf : hierarchy fuel (tb_map built) (id_of nodes root) 0 = Some tree)
    by (apply (hierarchy_fuel_le _ (S (size (tb_map built)))); [lia | done]).
  split; [exact Hf|].
  intros Hne. clear - Hf Hne. unfold d3TreeLayout.
  unfold built, root, nodes in *.
  destruct (Graph.nodes graph) as [|n ns] eqn:En; [done|].
  now rewrite Hf.
Qed.

(** The theorem at the tree with the root [r] and the children [c1] and
    [c2]. *)
Lemma d3TreeLayout_returns_witness :
  exists tree,
    hierarchy 4 (tb_map (build_hierarchy TreeCases.family 0)) "r" 0 = Some tree
    /\ TreeCases.laid_out
       = Some (place_tree SimpleTree.d3_tree TreeCases.family Examples.wide_canvas tree).
Proof.
  destruct (d3TreeLayout_returns SimpleTree.d3_tree None TreeCases.family
              Examples.wide_canvas) as (_ & tree & H).
  - intros e He. vm_compute in He.
    apply elem_of_cons in He as [-> | He];
      [vm_compute; discriminate|].
    apply elem_of_cons in He as [-> | He];
      [vm_compute; discriminate|].
    now apply elem_of_nil in He.
  - exists tree. destruct (H 4%nat) as [Hh Hl]; [vm_compute; lia|].
    split; [exact Hh | apply Hl; discriminate].
Defined.

(** ** What the tree layout changes *)

Lemma tree_placed_refl n : tree_placed n n.
Proof. split; [done | now left]. Qed.

Lemma update_node_placed ref f orig nodes :
  (forall n n', tree_placed n n' -> tree_placed n (f n')) ->
  Forall2 tree_placed orig nodes ->
  Forall2 tree_placed orig (update_node ref f nodes).
Proof.
  intros Hf H. destruct ref as [i|]; [|done]. simpl.
  apply Forall2_alter_r; [done|]. eauto.
Qed.

Lemma placed_set_xy n n' vx vy :
  tree_placed n n' ->
  tree_placed n (GraphNode.set_y vy (GraphNode.set_x vx n')).
Proof. now intros [H1 H2]. Qed.

Lemma placed_set_x n n' vx :
  tree_placed n n' -> tree_placed n (GraphNode.set_x vx n').
Proof. now intros [H1 H2]. Qed.

Lemma placed_set_radius n n' r :
  radius_in_range r = true ->
  tree_placed n n' ->
  tree_placed n
    (GraphNode.set_styles
       (NodeStyles.set_radius (Some r) (GraphNode.styles n')) n').
Proof.
  intros Hr [H1 H2]. split; [exact H1|]. right. exists r. now split.
Qed.

Lemma place_tree_node_placed p hd orig st n :
  Forall2 tree_placed orig (snd st) ->
  Forall2 tree_placed orig (snd (place_tree_node p hd st n)).
Proof.
  intros H. unfold place_tree_node. cbn [snd].
  apply update_node_placed; [|done]. intros. now apply placed_set_xy.
Qed.

Lemma fold_left_placed {B} (f : list GraphNode.t -> B -> list GraphNode.t)
    orig l :
  (forall ns b,
      Forall2 tree_placed orig ns -> Forall2 tree_placed orig (f ns b)) ->
  forall nodes,
    Forall2 tree_placed orig nodes ->
    Forall2 tree_placed orig (fold_left f l nodes).
Proof.
  intros Hf. induction l as [|b l IH]; intros nodes H; simpl; [done|].
  apply IH, Hf, H.
Qed.

Lemma layout_level_placed p orig nodes level :
  Forall2 tree_placed orig nodes ->
  Forall2 tree_placed orig (layout_level p nodes level).
Proof.
  unfold layout_level.
  set (newradius := width p / JS.of_nat (length level) / 2 - 15).
  destruct (newradius <=? 0) eqn:E0; apply fold_left_placed.
  - intros ns ref H. apply update_node_placed; [|done].
    intros. now apply placed_set_radius.
  - intros ns ref H.
    apply update_node_placed; [intros; now apply placed_set_x|].
    destruct ((newradius <? 50) && (0 <? newradius)) eqn:E2.
    + apply update_node_placed.
      { intros. apply placed_set_radius; [|done].
        apply andb_true_iff in E2 as [E2 E3]. unfold radius_in_range.
        now rewrite E3, (leb_of_ltb _ _ E2). }
      destruct (50 <=? newradius);
        [apply update_node_placed; [|done]|done].
      intros. now apply placed_set_radius.
    + destruct (50 <=? newradius);
        [apply update_node_placed; [|done]|done].
      intros. now apply placed_set_radius.
Qed.

Lemma fmap_alter_same {A B} (g : A -> B) (f : A -> A) i (l : list A) :
  (forall x, g (f x) = g x) -> g <$> alter f i l = g <$> l.
Proof.
  intros H. rewrite (list_fmap_alter g f id).
  - now apply list_alter_id.
  - apply Forall_forall. intros x _. apply H.
Qed.

Lemma split_pair_frame nodes i j es :
  edge_frame <$> split_pair nodes i j es = edge_frame <$> es.
Proof.
  unfold split_pair.
  destruct (es !! i) as [e1|]; [|done].
  destruct (es !! j) as [e2|]; [|done].
  destruct (overlapping e1 e2); [|done].
  now rewrite !fmap_alter_same.
Qed.

Lemma split_overlapped_frame nodes es :
  edge_frame <$> split_overlapped nodes es = edge_frame <$> es.
Proof.
  unfold split_overlapped. generalize (list_prod (seq 0 (length es))
                                         (seq 0 (length es))).
  intros pairs. revert es. induction pairs as [|[i j] pairs IH]; intros es;
    simpl; [done|].
  now rewrite IH, split_pair_frame.
Qed.

Lemma fold_place_tree_node_placed p hd orig l :
  forall st,
    Forall2 tree_placed orig (snd st) ->
    Forall2 tree_placed orig (snd (fold_left (place_tree_node p hd) l st)).
Proof.
  induction l as [|n l IH]; intros st H; simpl; [done|].
  now apply IH, place_tree_node_placed.
Qed.

Lemma place_tree_placed d3_tree g p rootData :
  Forall2 tree_placed (Graph.nodes g)
    (Graph.nodes (place_tree d3_tree g p rootData)).
Proof.
  unfold place_tree. cbn [Graph.nodes].
  apply fold_left_placed; [intros; now apply layout_level_placed|].
  apply fold_place_tree_node_placed. cbn [snd].
  apply Forall_Forall2_diag, Forall_forall. intros. apply tree_placed_refl.
Qed.

Lemma Graph_wf_frames g g' :
  Graph.idMap g' = Graph.idMap g ->
  GraphNode.id <$> Graph.nodes g' = GraphNode.id <$> Graph.nodes g ->
  GraphEdge.id <$> Graph.edges g' = GraphEdge.id <$> Graph.edges g ->
  Graph_wf g -> Graph_wf g'.
Proof.
  intros Hm Hn He Hwf id r Hr. rewrite Hm in Hr.
  specialize (Hwf id r Hr). destruct r as [k|k].
  - destruct Hwf as (n & Hk & Hid).
    assert (H : (GraphNode.id <$> Graph.nodes g') !! k = Some id)
      by (rewrite Hn, list_lookup_fmap, Hk; simpl; congruence).
    rewrite list_lookup_fmap in H.
    destruct (Graph.nodes g' !! k) as [n'|]; [|done].
    exists n'. split; [done|]. simpl in H. congruence.
  - destruct Hwf as (e & Hk & Hid).
    assert (H : (GraphEdge.id <$> Graph.edges g') !! k = Some id)
      by (rewrite He, list_lookup_fmap, Hk; simpl; congruence).
    rewrite list_lookup_fmap in H.
    destruct (Graph.edges g' !! k) as [e'|]; [|done].
    exists e'. split; [done|]. simpl in H. congruence.
Qed.

Lemma Forall2_frame_fmap orig nodes :
  Forall2 tree_placed orig nodes ->
  node_frame <$> nodes = node_frame <$> orig.
Proof.
  induction 1 as [|n n' l l' [H _] _ IH]; [done|].
  now rewrite !fmap_cons, H, IH.
Qed.

Lemma update_node_other ref f nodes k :
  ref <> Some k -> update_node ref f nodes !! k = nodes !! k.
Proof.
  intros Hne. destruct ref as [i|]; [|done]. simpl.
  apply list_lookup_alter_ne. congruence.
Qed.

Lemma fold_place_tree_node_other p hd k l :
  Forall (fun h => HNode_node h <> Some k) l ->
  forall st,
    Forall (Forall (fun r => r <> Some k)) (fst st) ->
    Forall (Forall (fun r => r <> Some k))
      (fst (fold_left (place_tree_node p hd) l st))
    /\ snd (fold_left (place_tree_node p hd) l st) !! k = snd st !! k.
Proof.
  induction 1 as [|h l Hh Hl IH]; intros st Hst; simpl; [done|].
  destruct (IH (place_tree_node p hd st h)) as [H1 H2].
  - unfold place_tree_node. cbn [fst]. apply Forall_alter; [done|].
    intros lv _ Hlv. apply Forall_app. split; [done|]. now constructor.
  - split; [exact H1|]. rewrite H2. unfold place_tree_node. cbn [snd].
    now apply update_node_other.
Qed.

Lemma fold_update_other {B} (f : list GraphNode.t -> B -> list GraphNode.t)
    k l :
  (forall ns b, b ∈ l -> f ns b !! k = ns !! k) ->
  forall nodes, fold_left f l nodes !! k = nodes !! k.
Proof.
  induction l as [|b l IH]; intros Hf nodes; simpl; [done|].
  rewrite IH by (intros; apply Hf; set_solver).
  apply Hf. set_solver.
Qed.

Lemma layout_level_other p k nodes level :
  Forall (fun r => r <> Some k) level ->
  layout_level p nodes level !! k = nodes !! k.
Proof.
  intros Hl. rewrite Forall_forall in Hl. unfold layout_level.
  set (newradius := width p / JS.of_nat (length level) / 2 - 15).
  destruct (newradius <=? 0); apply fold_update_other; intros ns r Hr.
  - now apply update_node_other, Hl.
  - rewrite update_node_other by now apply Hl.
    destruct ((newradius <? 50) && (0 <? newradius));
      destruct (50 <=? newradius);
      rewrite ?update_node_other by (now apply Hl); done.
Qed.

(** The tree layout leaves alone the nodes that are not in the tree. *)
Lemma place_tree_other d3_tree g p rootData k :
  Forall (fun h => HNode_node h <> Some k) (descendants (d3_tree rootData)) ->
  Graph.nodes (place_tree d3_tree g p rootData) !! k = Graph.nodes g !! k.
Proof.
  intros Hd. unfold place_tree. cbn [Graph.nodes].
  match goal with
  | |- context [fold_left (place_tree_node p ?hd) ?l ?st] =>
      destruct (fold_place_tree_node_other p hd k l Hd st) as [H1 H2]
  end.
  { cbn [fst]. apply Forall_replicate. constructor. }
  rewrite fold_update_other; [exact H2|].
  intros ns level Hlevel. apply layout_level_other.
  rewrite Forall_forall in H1. now apply H1.
Qed.

Lemma d3TreeLayout_cases d3_tree fuel rootId g p g' :
  d3TreeLayout d3_tree fuel rootId g p = Some g' ->
  (Graph.nodes g = [] /\ g' = g)
  \/ exists rootData,
       hierarchy fuel
         (tb_map (build_hierarchy g (find_root (Graph.nodes g) rootId)))
         (id_of (Graph.nodes g) (find_root (Graph.nodes g) rootId)) 0
       = Some rootData
       /\ g' = place_tree d3_tree g p rootData.
Proof.
  unfold d3TreeLayout. destruct (Graph.nodes g) as [|n ns] eqn:En.
  - intros [= <-]. now left.
  - rewrite <- En.
    destruct (hierarchy _ _ _ _) as [rootData|] eqn:Hh; [|done].
    intros [= <-]. right. eauto.
Qed.

(** The end points of an edge. *)
Lemma overlapping_reverse e1 e2 : overlapping e1 e2 = true -> reverse_of e1 e2.
Proof.
  unfold overlapping, reverse_of.
  intros [[[H1 H2]%andb_true_iff _]%andb_true_iff _]%andb_true_iff.
  split; now apply Nat.eqb_eq.
Qed.

Lemma split_pair_ends nodes i j es :
  ends <$> split_pair nodes i j es = ends <$> es.
Proof.
  unfold split_pair.
  destruct (es !! i) as [e1|]; [|done].
  destruct (es !! j) as [e2|]; [|done].
  destruct (overlapping e1 e2); [|done].
  now rewrite !fmap_alter_same.
Qed.

Lemma split_pair_single nodes i j es k e :
  es !! k = Some e ->
  (forall m e2, es !! m = Some e2 -> ~ reverse_of e e2) ->
  split_pair nodes i j es !! k = Some e.
Proof.
  intros Hk Hnone. unfold split_pair.
  destruct (es !! i) as [e1|] eqn:Hi; [|done].
  destruct (es !! j) as [e2|] eqn:Hj; [|done].
  destruct (overlapping e1 e2) eqn:Hov; [|done].
  apply overlapping_reverse in Hov.
  assert (i <> k).
  { intros ->. rewrite Hk in Hi. injection Hi as <-. now apply (Hnone j e2). }
  assert (j <> k).
  { intros ->. rewrite Hk in Hj. injection Hj as <-.
    apply (Hnone i e1 Hi). destruct Hov. now split. }
  now rewrite !list_lookup_alter_ne.
Qed.

Lemma fold_split_pair_single nodes es k e pairs :
  (forall m e2, es !! m = Some e2 -> ~ reverse_of e e2) ->
  forall cur,
    cur !! k = Some e -> ends <$> cur = ends <$> es ->
    fold_left (fun es' '(i, j) => split_pair nodes i j es') pairs cur !! k
    = Some e.
Proof.
  intros Hnone.
  induction pairs as [|[i j] pairs IH]; intros cur Hk Hinv; simpl; [done|].
  apply IH.
  - apply split_pair_single; [done|]. intros m e2 Hm Hrev.
    assert (H : (ends <$> es) !! m = Some (ends e2))
      by now rewrite <- Hinv, list_lookup_fmap, Hm.
    rewrite list_lookup_fmap in H.
    destruct (es !! m) as [e2'|] eqn:Hm'; [|done].
    apply (Hnone m e2' Hm'). injection H as H1 H2.
    destruct Hrev. split; congruence.
  - now rewrite split_pair_ends.
Qed.

Lemma split_overlapped_single nodes es k e :
  es !! k = Some e ->
  (forall m e2, es !! m = Some e2 -> ~ reverse_of e e2) ->
  split_overlapped nodes es !! k = Some e.
Proof.
  intros Hk Hnone. unfold split_overlapped.
  now apply (fold_split_pair_single nodes es).
Qed.

Lemma update_node_y ref f nodes :
  (forall n, GraphNode.y (f n) = GraphNode.y n) ->
  GraphNode.y <$> update_node ref f nodes = GraphNode.y <$> nodes.
Proof.
  intros Hf. destruct ref as [i|]; [|reflexivity]. cbn [update_node].
  now apply fmap_alter_same.
Qed.

Lemma fold_left_y {B} (f : list GraphNode.t -> B -> list GraphNode.t) l :
  (forall ns b, GraphNode.y <$> f ns b = GraphNode.y <$> ns) ->
  forall nodes, GraphNode.y <$> fold_left f l nodes = GraphNode.y <$> nodes.
Proof.
  intros Hf. induction l as [|b l IH]; intros nodes; cbn [fold_left];
    [reflexivity|]. now rewrite IH, Hf.
Qed.

Lemma layout_level_y p nodes level :
  GraphNode.y <$> layout_level p nodes level = GraphNode.y <$> nodes.
Proof.
  unfold layout_level.
  set (newradius := width p / JS.of_nat (length level) / 2 - 15).
  destruct (newradius <=? 0); apply fold_left_y; intros ns r.
  - now apply update_node_y.
  - rewrite update_node_y by reflexivity.
    destruct ((newradius <? 50) && (0 <? newradius));
      destruct (50 <=? newradius);
      rewrite ?update_node_y by reflexivity; reflexivity.
Qed.

Lemma fold_place_tree_node_y p hd k l :
  forall st n,
    snd st !! k = Some n ->
    let st' := fold_left (place_tree_node p hd) l st in
    (exists h, h ∈ l /\ HNode_node h = Some k
               /\ GraphNode.y <$> snd st' !! k
                  = Some (Some (JS.to_number (HNode_y h)
                                * (height p - hd - hd) + hd)))
    \/ (Forall (fun h => HNode_node h <> Some k) l
        /\ GraphNode.y <$> snd st' !! k = Some (GraphNode.y n)).
Proof.
  induction l as [|h l IH] using rev_ind; intros st n Hn; cbn zeta.
  { right. split; [constructor|]. cbn [fold_left]. now rewrite Hn. }
  rewrite fold_left_app. cbn [fold_left].
  set (st1 := fold_left (place_tree_node p hd) l st).
  destruct (IH st n Hn) as [(h' & Hin & Hk & Hy) | [Hall Hy]];
    fold st1 in Hy.
  - destruct (decide (HNode_node h = Some k)) as [E|E].
    + left. exists h. split; [set_solver|]. split; [exact E|].
      unfold place_tree_node. cbn [snd]. rewrite E. cbn [update_node].
      rewrite list_lookup_alter, decide_True by reflexivity.
      destruct (snd st1 !! k); [reflexivity | discriminate].
    + left. exists h'. split; [set_solver|]. split; [exact Hk|].
      unfold place_tree_node. cbn [snd].
      now rewrite update_node_other.
  - destruct (decide (HNode_node h = Some k)) as [E|E].
    + left. exists h. split; [set_solver|]. split; [exact E|].
      unfold place_tree_node. cbn [snd]. rewrite E. cbn [update_node].
      rewrite list_lookup_alter, decide_True by reflexivity.
      destruct (snd st1 !! k); [reflexivity | discriminate].
    + right. split.
      * apply Forall_app. split; [exact Hall | now constructor].
      * unfold place_tree_node. cbn [snd]. now rewrite update_node_other.
Qed.

Lemma family_wf : Graph_wf TreeCases.family.
Proof.
  intros id r H. apply elem_of_list_to_map_2 in H.
  repeat (apply elem_of_cons in H as [H|H];
          [injection H as -> ->; simpl; eexists; split; reflexivity|]).
  inversion H.
Qed.

(** X4. The tree layout changes no id, name, domain, stroke or stroke width
    of a node, no id, end point, stroke or stroke width of an edge, and not
    [idMap]; it neither adds nor removes a node or an edge, and it keeps
    [idMap] sound. *)
Theorem d3TreeLayout_keeps_graph :
  forall (d3_tree : HNode -> HNode) (fuel : nat) (rootId : option string)
    (g : Graph.t) (p : IGraphLayoutParams) (g' : Graph.t),
    d3TreeLayout d3_tree fuel rootId g p = Some g' ->
    node_frame <$> Graph.nodes g' = node_frame <$> Graph.nodes g
    /\ edge_frame <$> Graph.edges g' = edge_frame <$> Graph.edges g
    /\ Graph.idMap g' = Graph.idMap g
    /\ (Graph_wf g -> Graph_wf g').
Proof.
  intros d3_tree fuel rootId g p g' H.
  apply d3TreeLayout_cases in H as [[_ ->] | (rootData & _ & ->)]; [done|].
  assert (Hn : node_frame <$> Graph.nodes (place_tree d3_tree g p rootData)
               = node_frame <$> Graph.nodes g)
    by apply Forall2_frame_fmap, place_tree_placed.
  assert (He : edge_frame <$> Graph.edges (place_tree d3_tree g p rootData)
               = edge_frame <$> Graph.edges g).
  { unfold place_tree. cbn [Graph.edges].
    rewrite split_overlapped_frame, <- list_fmap_compose.
    apply list_fmap_ext. now intros i e _. }
  split; [exact Hn|]. split; [exact He|]. split; [reflexivity|].
  apply Graph_wf_frames; [reflexivity| |].
  - apply (f_equal (fmap (fun f => f.1.1.1.1))) in Hn.
    rewrite <- !list_fmap_compose in Hn. exact Hn.
  - apply (f_equal (fmap (fun f => f.1.1.1.1))) in He.
    rewrite <- !list_fmap_compose in He. exact He.
Qed.

(** The theorem at the tree with the root [r]. *)
Lemma d3TreeLayout_keeps_graph_witness :
  exists g',
    TreeCases.laid_out = Some g'
    /\ node_frame <$> Graph.nodes g' = node_frame <$> Graph.nodes TreeCases.family
    /\ Graph_wf g'.
Proof.
  destruct TreeCases.laid_out as [g'|] eqn:E; [|vm_compute in E; discriminate].
  exists g'. split; [reflexivity|].
  destruct (d3TreeLayout_keeps_graph SimpleTree.d3_tree 4 None TreeCases.family
              Examples.wide_canvas g' E) as (Hn & _ & _ & Hwf).
  split; [exact Hn | exact (Hwf family_wf)].
Defined.



(** X6. The tree layout leaves a node that no node of the tree stands for
    exactly as it was. *)
Theorem d3TreeLayout_outside_tree :
  forall (d3_tree : HNode -> HNode) (fuel : nat) (rootId : option string)
    (g : Graph.t) (p : IGraphLayoutParams) (g' : Graph.t) (rootData : HNode)
    (k : nat),
    d3TreeLayout d3_tree fuel rootId g p = Some g' ->
    hierarchy fuel
      (tb_map (build_hierarchy g (find_root (Graph.nodes g) rootId)))
      (id_of (Graph.nodes g) (find_root (Graph.nodes g) rootId)) 0
    = Some rootData ->
    Forall (fun h => HNode_node h <> Some k)
      (descendants (d3_tree rootData)) ->
    Graph.nodes g' !! k = Graph.nodes g !! k.
Proof.
  intros d3_tree fuel rootId g p g' rootData k H Hh Hout.
  apply d3TreeLayout_cases in H as [[_ ->] | (rootData' & Hh' & ->)]; [done|].
  rewrite Hh in Hh'. injection Hh' as <-.
  now apply place_tree_other.
Qed.

(** The theorem at the node [far], which no edge reaches. *)
Lemma d3TreeLayout_outside_tree_witness :
  exists g',
    TreeCases.laid_out = Some g'
    /\ Graph.nodes g' !! 3%nat
       = Some (Examples.node "far" (Some 7) (Some 9)).
Proof.
  destruct TreeCases.laid_out as [g'|] eqn:E; [|vm_compute in E; discriminate].
  exists g'. split; [reflexivity|].
  destruct (hierarchy 4 (tb_map (build_hierarchy TreeCases.family 0)) "r" 0)
    as [rootData|] eqn:Eh; [|vm_compute in Eh; discriminate].
  rewrite (d3TreeLayout_outside_tree SimpleTree.d3_tree 4 None TreeCases.family
             Examples.wide_canvas g' rootData 3 E Eh); [reflexivity|].
  vm_compute in Eh. injection Eh as <-.
  repeat constructor; discriminate.
Defined.

(** X7. The loop over the levels never changes [y]: a node of the graph that
    a node of the tree stands for ends with the [y] that [root.each] computes
    from the [y] of such a tree node, [y * (height - 2 * heightDivision) +
    heightDivision] with [heightDivision = height / (maxDepth + 2)]. *)
Theorem d3TreeLayout_level_y :
  forall (d3_tree : HNode -> HNode) (fuel : nat) (rootId : option string)
    (g : Graph.t) (p : IGraphLayoutParams) (g' : Graph.t) (rootData : HNode)
    (h : HNode) (k : nat),
    d3TreeLayout d3_tree fuel rootId g p = Some g' ->
    hierarchy fuel
      (tb_map (build_hierarchy g (find_root (Graph.nodes g) rootId)))
      (id_of (Graph.nodes g) (find_root (Graph.nodes g) rootId)) 0
    = Some rootData ->
    h ∈ descendants (d3_tree rootData) ->
    HNode_node h = Some k ->
    k < length (Graph.nodes g) ->
    exists h',
      h' ∈ descendants (d3_tree rootData)
      /\ HNode_node h' = Some k
      /\ GraphNode.y <$> Graph.nodes g' !! k
         = Some (Some (level_y p (maxDepth (d3_tree rootData)) h')).
Proof.
  intros d3_tree fuel rootId g p g' rootData h k H Hh Hin Hk Hlt.
  apply d3TreeLayout_cases in H as [[Hnil _] | (rootData' & Hh' & ->)];
    [rewrite Hnil in Hlt; cbn in Hlt; lia|].
  rewrite Hh in Hh'. injection Hh' as <-.
  destruct (lookup_lt_is_Some_2 _ _ Hlt) as [n Hn].
  unfold place_tree. cbn [Graph.nodes].
  fold (maxDepth (d3_tree rootData)).
  set (hd := height p / (JS.of_nat (maxDepth (d3_tree rootData)) + 2)).
  set (st0 := (replicate (S (maxDepth (d3_tree rootData))) [],
               Graph.nodes g)).
  destruct (fold_place_tree_node_y p hd k (descendants (d3_tree rootData))
              st0 n Hn) as [(h' & Hin' & Hk' & Hy) | [Hall _]].
  - exists h'. split; [exact Hin'|]. split; [exact Hk'|].
    rewrite <- list_lookup_fmap, fold_left_y by apply layout_level_y.
    rewrite list_lookup_fmap. exact Hy.
  - exfalso. rewrite Forall_forall in Hall. now apply (Hall h Hin).
Qed.

(** The theorem at the child [c1] of the tree with the root [r]. *)
Lemma d3TreeLayout_level_y_witness :
  exists g' rootData h',
    TreeCases.laid_out = Some g'
    /\ h' ∈ descendants (SimpleTree.d3_tree rootData)
    /\ HNode_node h' = Some 1%nat
    /\ GraphNode.y <$> Graph.nodes g' !! 1%nat
       = Some (Some (level_y Examples.wide_canvas
                       (maxDepth (SimpleTree.d3_tree rootData)) h')).
Proof.
  destruct TreeCases.laid_out as [g'|] eqn:E; [|vm_compute in E; discriminate].
  destruct (hierarchy 4 (tb_map (build_hierarchy TreeCases.family 0)) "r" 0)
    as [rootData|] eqn:Eh; [|vm_compute in Eh; discriminate].
  destruct (descendants (SimpleTree.d3_tree rootData) !! 1%nat) as [h|] eqn:Ed;
    [|vm_compute in Eh; injection Eh as <-; vm_compute in Ed; discriminate].
  destruct (d3TreeLayout_level_y SimpleTree.d3_tree 4 None TreeCases.family
              Examples.wide_canvas g' rootData h 1 E Eh)
    as (h' & H1 & H2 & H3).
  - eapply list_elem_of_lookup_2; exact Ed.
  - vm_compute in Eh. injection Eh as <-. vm_compute in Ed.
    injection Ed as <-. reflexivity.
  - cbn. lia.
  - exists g', rootData, h'. repeat split; assumption.
Defined.

(** When no edge points at the root, the layout of a graph that has a node
    returns, within as many levels as [map] has keys. *)
Lemma d3TreeLayout_produces d3_tree rootId g p fuel :
  Graph.nodes g <> [] ->
  (forall e, e ∈ Graph.edges g ->
     id_of (Graph.nodes g) (GraphEdge.target e)
     <> id_of (Graph.nodes g) (find_root (Graph.nodes g) rootId)) ->
  size (tb_map (build_hierarchy g (find_root (Graph.nodes g) rootId))) < fuel ->
  exists tree,
    d3TreeLayout d3_tree fuel rootId g p
    = Some (place_tree d3_tree g p tree).
Proof.
  intros Hne Hroot Hfuel.
  set (root := find_root (Graph.nodes g) rootId) in *.
  set (built := build_hierarchy g root) in *.
  destruct (build_hierarchy_sound g root) as [S1 S2 S3 _].
  destruct (build_hierarchy_inv g root) as [_ _ I3 _].
  fold built in S1, S2, S3, I3.
  assert (Hfree : forall a,
            id_of (Graph.nodes g) root ∉ children_of (tb_map built) a).
  { intros a Ha. destruct (S1 a _ Ha) as (e & He & Hid).
    apply (Hroot e He). unfold edge_ids in Hid. now injection Hid. }
  destruct (hierarchy_returns (tb_map built) (id_of (Graph.nodes g) root)
              Hfree I3 S2 S3 fuel
              (id_of (Graph.nodes g) root) [id_of (Graph.nodes g) root] 0)
    as [tree Htree]; [constructor | cbn [length]; lia |].
  exists tree. unfold d3TreeLayout. fold root. fold built.
  destruct (Graph.nodes g) as [|n ns] eqn:En; [done|].
  now rewrite Htree.
Qed.



(** [nodeMap] sends an id to a node that carries it. *)
Lemma build_nodeMap_Some nodes key k :
  build_nodeMap nodes !! key = Some k ->
  exists node, nodes !! k = Some node /\ GraphNode.id node = key.
Proof.
  unfold build_nodeMap.
  assert (H : forall (l : list (nat * GraphNode.t)) (m : gmap string nat),
            Forall (fun w => nodes !! fst w = Some (snd w)) l ->
            (forall key k, m !! key = Some k ->
               exists node, nodes !! k = Some node /\ GraphNode.id node = key) ->
            forall key k,
              fold_left (fun m '(i, node) => <[GraphNode.id node := i]> m) l m
              !! key = Some k ->
              exists node, nodes !! k = Some node /\ GraphNode.id node = key).
  { induction l as [|[i node] l IH]; intros m Hl Hm key' k' Hk;
      cbn [fold_left] in Hk; [now apply Hm|].
    inversion Hl as [|? ? Hi Hl']; subst. cbn [fst snd] in Hi.
    apply (IH (<[GraphNode.id node := i]> m) Hl'); [|exact Hk].
    intros key2 k2. destruct (decide (GraphNode.id node = key2)) as [<-|Hne].
    - rewrite lookup_insert_eq. intros [= <-]. eauto.
    - rewrite lookup_insert_ne by done. apply Hm. }
  apply H.
  - apply Forall_forall. intros [i node] Hin.
    apply elem_of_lookup_imap in Hin as (j & node' & [= -> ->] & Hj).
    exact Hj.
  - intros key' k'. now rewrite lookup_empty.
Qed.

(** The graph node of a datum of [map] is the root, or the node that
    [nodeMap] holds for the key of the datum, which is the id of an end point
    of an edge. *)
Lemma fold_attach_nodes nodes nodeMap (root : nat) rest :
  forall done st,
    (forall key d, tb_map st !! key = Some d ->
       hnode_node d = Some root
       \/ (hnode_node d = nodeMap !! key
           /\ exists e, e ∈ done
                /\ (key = id_of nodes (GraphEdge.source e)
                    \/ key = id_of nodes (GraphEdge.target e)))) ->
    forall key d,
      tb_map (fold_left (attach_edge nodes nodeMap) rest st) !! key = Some d ->
      hnode_node d = Some root
      \/ (hnode_node d = nodeMap !! key
          /\ exists e, e ∈ done ++ rest
               /\ (key = id_of nodes (GraphEdge.source e)
                   \/ key = id_of nodes (GraphEdge.target e))).
Proof.
  induction rest as [|e rest IH]; intros done st Hst; cbn [fold_left].
  { rewrite app_nil_r. exact Hst. }
  replace (done ++ e :: rest) with ((done ++ [e]) ++ rest)
    by now rewrite <- app_assoc.
  apply IH. clear IH. unfold attach_edge, attach.
  set (source := id_of nodes (GraphEdge.source e)).
  set (target := id_of nodes (GraphEdge.target e)).
  assert (Hens : forall key0 m,
            (key0 = source \/ key0 = target) ->
            (forall key d, m !! key = Some d ->
               hnode_node d = Some root
               \/ (hnode_node d = nodeMap !! key
                   /\ exists e0, e0 ∈ done ++ [e]
                        /\ (key = id_of nodes (GraphEdge.source e0)
                            \/ key = id_of nodes (GraphEdge.target e0)))) ->
            forall key d, ensure nodeMap key0 m !! key = Some d ->
              hnode_node d = Some root
              \/ (hnode_node d = nodeMap !! key
                  /\ exists e0, e0 ∈ done ++ [e]
                       /\ (key = id_of nodes (GraphEdge.source e0)
                           \/ key = id_of nodes (GraphEdge.target e0)))).
  { intros key0 m Hkey0 Hm key d. unfold ensure.
    destruct (m !! key0) eqn:E0; [apply Hm|].
    destruct (decide (key0 = key)) as [<-|Hne].
    - rewrite lookup_insert_eq. intros [= <-]. right. cbn [hnode_node].
      split; [reflexivity|]. exists e. split; [set_solver|].
      destruct Hkey0 as [-> | ->]; [now left | now right].
    - rewrite lookup_insert_ne by done. apply Hm. }
  assert (H0 : forall key d, tb_map st !! key = Some d ->
            hnode_node d = Some root
            \/ (hnode_node d = nodeMap !! key
                /\ exists e0, e0 ∈ done ++ [e]
                     /\ (key = id_of nodes (GraphEdge.source e0)
                         \/ key = id_of nodes (GraphEdge.target e0)))).
  { intros key d Hd. destruct (Hst key d Hd) as [H | (H & e0 & He0 & Hk)];
      [now left | right]. split; [exact H|]. exists e0. set_solver. }
  pose proof (Hens target _ (or_intror eq_refl) H0) as H1.
  pose proof (Hens source _ (or_introl eq_refl) H1) as H2.
  destruct (bool_decide _ || bool_decide _); cbn [tb_map]; [exact H2|].
  intros key d. unfold push_child.
  destruct (ensure nodeMap source (ensure nodeMap target (tb_map st))
            !! source) as [ds|] eqn:Es; [|apply H2].
  destruct (decide (source = key)) as [<-|Hne].
  - rewrite lookup_insert_eq. intros [= <-]. cbn [hnode_node].
    exact (H2 source ds Es).
  - rewrite lookup_insert_ne by done. apply H2.
Qed.

Lemma build_hierarchy_nodes graph root key d :
  tb_map (build_hierarchy graph root) !! key = Some d ->
  hnode_node d = Some root
  \/ (hnode_node d = build_nodeMap (Graph.nodes graph) !! key
      /\ exists e, e ∈ Graph.edges graph
           /\ (key = id_of (Graph.nodes graph) (GraphEdge.source e)
               \/ key = id_of (Graph.nodes graph) (GraphEdge.target e))).
Proof.
  unfold build_hierarchy.
  apply (fold_attach_nodes _ _ root (Graph.edges graph) []).
  intros key' d'. cbn [tb_map].
  destruct (decide (id_of (Graph.nodes graph) root = key')) as [<-|Hne].
  - rewrite lookup_singleton_eq. intros [= <-]. now left.
  - now rewrite lookup_singleton_ne.
Qed.

(** The nodes of the tree that [d3.hierarchy] makes stand for the graph
    nodes of data of [map]. *)
Lemma hierarchy_node map fuel key depth t :
  hierarchy fuel map key depth = Some t ->
  (exists d, map !! key = Some d /\ HNode_node t = hnode_node d)
  /\ Forall (fun c => exists fuel' key' depth',
               hierarchy fuel' map key' depth' = Some c) (HNode_children t).
Proof.
  destruct fuel as [|fuel]; [done|]. cbn [hierarchy].
  destruct (map !! key) as [d|]; [|done].
  destruct (mapM _ (hnode_children d)) as [cs|] eqn:Hcs; [|done].
  intros [= <-]. cbn [HNode_node HNode_children]. split; [eauto|].
  apply mapM_Some in Hcs. apply Forall_forall. intros c Hc.
  apply list_elem_of_lookup in Hc as [i Hi].
  destruct (Forall2_lookup_r _ _ _ _ _ Hcs Hi) as (k & _ & Hk).
  eauto.
Qed.

Lemma each_level_nodes map fuel :
  forall current,
    Forall (fun c => exists fuel' key' depth',
              hierarchy fuel' map key' depth' = Some c) current ->
    Forall (fun h => exists key d,
              map !! key = Some d /\ HNode_node h = hnode_node d)
      (each_level fuel current).
Proof.
  induction fuel as [|fuel IH]; intros current Hc; cbn [each_level];
    [constructor|].
  destruct current as [|c cs]; [constructor|].
  apply Forall_app. split.
  - eapply Forall_impl; [exact Hc|]. intros h (f & key & depth & Hh).
    destruct (hierarchy_node _ _ _ _ _ Hh) as [(d & Hd & Hn) _]. eauto.
  - apply IH. apply Forall_flat_map.
    eapply Forall_impl; [exact Hc|]. intros h (f & key & depth & Hh).
    now destruct (hierarchy_node _ _ _ _ _ Hh) as [_ H].
Qed.

(** X20. When [d3.tree] keeps the nodes of the tree it is given, a node that
    is not the root and whose id is the id of no end point of an edge is left
    by the tree layout exactly as it was: a node that no edge touches is not
    laid out. *)
Theorem d3TreeLayout_unconnected :
  forall (d3_tree : HNode -> HNode) (fuel : nat) (rootId : option string)
    (g : Graph.t) (p : IGraphLayoutParams) (g' : Graph.t) (rootData : HNode)
    (k : nat) (n : GraphNode.t),
    d3TreeLayout d3_tree fuel rootId g p = Some g' ->
    hierarchy fuel
      (tb_map (build_hierarchy g (find_root (Graph.nodes g) rootId)))
      (id_of (Graph.nodes g) (find_root (Graph.nodes g) rootId)) 0
    = Some rootData ->
    HNode_node <$> descendants (d3_tree rootData)
    = HNode_node <$> descendants rootData ->
    Graph.nodes g !! k = Some n ->
    k <> find_root (Graph.nodes g) rootId ->
    (forall e, e ∈ Graph.edges g ->
       id_of (Graph.nodes g) (GraphEdge.source e) <> GraphNode.id n
       /\ id_of (Graph.nodes g) (GraphEdge.target e) <> GraphNode.id n) ->
    Graph.nodes g' !! k = Some n.
Proof.
  intros d3_tree fuel rootId g p g' rootData k n H Hh Hkeep Hn Hroot Hfree.
  apply d3TreeLayout_cases in H as [[_ ->] | (rootData' & Hh' & ->)]; [done|].
  rewrite Hh in Hh'. injection Hh' as <-.
  rewrite <- Hn. apply place_tree_other.
  apply Forall_forall. intros h Hin Hk.
  assert (Hin' : Some k ∈ HNode_node <$> descendants rootData).
  { rewrite <- Hkeep, <- Hk. now apply list_elem_of_fmap_2. }
  apply list_elem_of_fmap in Hin' as (h0 & Hk0 & Hin0).
  assert (Hall : Forall (fun h => exists key d,
                    tb_map (build_hierarchy g
                              (find_root (Graph.nodes g) rootId)) !! key
                    = Some d /\ HNode_node h = hnode_node d)
                   (descendants rootData)).
  { apply each_level_nodes. constructor; [eauto | constructor]. }
  rewrite Forall_forall in Hall.
  destruct (Hall h0 Hin0) as (key & d & Hd & Hnode).
  destruct (build_hierarchy_nodes _ _ _ _ Hd)
    as [Hr | (Hm & e & He & Hkey)].
  - rewrite <- Hk0, Hnode, Hr in *. congruence.
  - rewrite Hnode, Hm in Hk0. symmetry in Hk0.
    apply build_nodeMap_Some in Hk0 as (n' & Hn' & Hid).
    rewrite Hn in Hn'. injection Hn' as <-.
    destruct (Hfree e He) as [Hs Ht]. destruct Hkey as [-> | ->]; congruence.
Qed.

(** The theorem at the node [far], which no edge touches. *)
Lemma d3TreeLayout_unconnected_witness :
  exists g',
    TreeCases.laid_out = Some g'
    /\ Graph.nodes g' !! 3%nat
       = Some (Examples.node "far" (Some 7) (Some 9)).
Proof.
  destruct TreeCases.laid_out as [g'|] eqn:E; [|vm_compute in E; discriminate].
  exists g'. split; [reflexivity|].
  destruct (hierarchy 4 (tb_map (build_hierarchy TreeCases.family 0)) "r" 0)
    as [rootData|] eqn:Eh; [|vm_compute in Eh; discriminate].
  apply (d3TreeLayout_unconnected SimpleTree.d3_tree 4 None TreeCases.family
           Examples.wide_canvas g' rootData 3 _ E Eh).
  - vm_compute in Eh. injection Eh as <-. reflexivity.
  - reflexivity.
  - discriminate.
  - intros e He.
    apply elem_of_cons in He as [-> | He]; [split; discriminate|].
    apply elem_of_cons in He as [-> | He]; [split; discriminate|].
    now apply elem_of_nil in He.
Defined.

(** ** The force layout and the relative layout *)

Lemma unplaced_copy_position o c : unplaced (copy_position o c) = unplaced o.
Proof.
  unfold copy_position, unplaced.
  destruct (JS.falsy (GraphNode.x o)); [|destruct (JS.falsy (GraphNode.y o))];
    [destruct (JS.falsy _)|..]; reflexivity.
Qed.

Lemma unplaced_copy_positions orig :
  forall copy, unplaced <$> copy_positions orig copy = unplaced <$> orig.
Proof.
  induction orig as [|o orig IH]; intros [|c copy]; try reflexivity.
  cbn [copy_positions]. rewrite !fmap_cons, IH. f_equal.
  apply unplaced_copy_position.
Qed.

Lemma unplaced_scale_node p b n : unplaced (scale_node p b n) = unplaced n.
Proof. unfold scale_node. now destruct (skipped n). Qed.

Lemma unplaced_scaleNodePositions p nodes :
  unplaced <$> scaleNodePositions p nodes = unplaced <$> nodes.
Proof.
  unfold scaleNodePositions. generalize (bounding_box nodes). intros b.
  change (map (scale_node p b) nodes) with (scale_node p b <$> nodes).
  rewrite <- list_fmap_compose. apply list_fmap_ext.
  intros i n _. apply unplaced_scale_node.
Qed.

Lemma unplaced_ids (ns ns' : list GraphNode.t) :
  unplaced <$> ns' = unplaced <$> ns ->
  GraphNode.id <$> ns' = GraphNode.id <$> ns.
Proof.
  intros H. apply (f_equal (fmap GraphNode.id)) in H.
  now rewrite <- !list_fmap_compose in H.
Qed.

Lemma moves_nodes_only_intro g g' :
  unplaced <$> Graph.nodes g' = unplaced <$> Graph.nodes g ->
  Graph.edges g' = Graph.edges g ->
  Graph.idMap g' = Graph.idMap g ->
  moves_nodes_only g g'.
Proof.
  intros Hn He Hm. repeat split; try done.
  apply Graph_wf_frames; [done| |now rewrite He].
  now apply unplaced_ids.
Qed.

(** X9. The force layout, whatever the simulation does, and the relative
    layout change nothing but the positions of the nodes: the nodes keep their
    ids, names, domains and styles, the edges and [idMap] are the same, and
    [idMap] stays sound. *)
Theorem layouts_move_nodes_only :
  forall (Sim : Type)
    (forceSimulation : Graph.t -> IGraphLayoutParams -> Sim * list GraphNode.t)
    (tick : Sim -> list GraphNode.t -> Sim * list GraphNode.t)
    (g : Graph.t) (p : IGraphLayoutParams),
    moves_nodes_only g (d3ForceLayout Sim forceSimulation tick g p)
    /\ moves_nodes_only g (relativeLayout g p).
Proof.
  intros Sim fs tick g p. split; apply moves_nodes_only_intro; try done.
  - cbn [d3ForceLayout relativeLayout Graph.set_nodes Graph.nodes].
    now rewrite unplaced_copy_positions, unplaced_scaleNodePositions.
  - apply unplaced_scaleNodePositions.
Qed.

(** X10. For [new GraphLayout(d3ForceLayout())], the layout that [CSPViewer]
    mounts, [relayout] is the force layout too; on a graph whose nodes all
    have a position after rescaling, the simulation is discarded and both
    [setup] and [relayout] are the relative layout. *)
Theorem relayout_rescales :
  forall (Sim : Type)
    (forceSimulation : Graph.t -> IGraphLayoutParams -> Sim * list GraphNode.t)
    (tick : Sim -> list GraphNode.t -> Sim * list GraphNode.t)
    (g : Graph.t) (p : IGraphLayoutParams),
    Forall (fun n => skipped n = false)
      (scaleNodePositions p (Graph.nodes g)) ->
    GraphLayout.relayout
      (GraphLayout.new (d3ForceLayout Sim forceSimulation tick) None) g p
    = relativeLayout g p
    /\ GraphLayout.setup
         (GraphLayout.new (d3ForceLayout Sim forceSimulation tick) None) g p
       = relativeLayout g p.
Proof.
  intros Sim fs tick g p H.
  assert (E : d3ForceLayout Sim fs tick g p = relativeLayout g p).
  { unfold d3ForceLayout, relativeLayout. cbv zeta.
    rewrite copy_positions_positioned by exact H. reflexivity. }
  split; exact E.
Qed.

(** X11. On a graph none of whose nodes has both coordinates, a graph without
    nodes among them, the bounding box keeps its initial values and the
    relative layout changes nothing. *)
Theorem relativeLayout_nothing_positioned :
  forall (g : Graph.t) (p : IGraphLayoutParams),
    Forall (fun n => skipped n = true) (Graph.nodes g) ->
    bounding_box (Graph.nodes g) = initial_bounds
    /\ relativeLayout g p = g.
Proof.
  intros [nodes edges idMap] p H. cbn [Graph.nodes] in H.
  assert (Hb : forall b, fold_left bounds_step nodes b = b).
  { induction H as [|n ns Hn _ IH]; intros b; [reflexivity|].
    cbn [fold_left]. now rewrite bounds_step_skipped, IH. }
  split; [apply Hb|].
  unfold relativeLayout, Graph.set_nodes. cbn [Graph.nodes Graph.edges Graph.idMap].
  f_equal. unfold scaleNodePositions.
  generalize (bounding_box nodes). intros b. clear Hb.
  induction H as [|n ns Hn _ IH]; [reflexivity|].
  cbn [map]. rewrite scale_node_skipped by exact Hn. now rewrite IH.
Qed.

(** The theorem at the pinned graph on the canvas of 500 by 500. *)
Lemma relayout_rescales_witness :
  GraphLayout.relayout
    (GraphLayout.new
       (d3ForceLayout DriftSimulation.Sim DriftSimulation.forceSimulation
          DriftSimulation.tick) None) Examples.pinned Examples.canvas
  = relativeLayout Examples.pinned Examples.canvas.
Proof.
  destruct (relayout_rescales DriftSimulation.Sim
              DriftSimulation.forceSimulation DriftSimulation.tick
              Examples.pinned Examples.canvas) as [H _].
  - repeat constructor.
  - exact H.
Defined.

(** The theorem at the fresh graph. *)
Lemma relativeLayout_nothing_positioned_witness :
  relativeLayout Examples.fresh Examples.canvas = Examples.fresh.
Proof.
  destruct (relativeLayout_nothing_positioned Examples.fresh Examples.canvas)
    as [_ H].
  - repeat constructor.
  - exact H.
Defined.

(** ** The bounding box of [scaleNodePositions] *)

Lemma SFleb_trans a b c :
  SFleb a b = true -> SFleb b c = true -> SFleb a c = true.
Proof.
  unfold SFleb.
  destruct a as [sa|sa| |sa ma ea], b as [sb|sb| |sb mb eb],
    c as [sc|sc| |sc mc ec];
    try destruct sa; try destruct sb; try destruct sc;
    cbn [SFcompare]; try done.
  - change (Pos.compare_cont Eq ma mb) with (Pos.compare ma mb).
    change (Pos.compare_cont Eq mb mc) with (Pos.compare mb mc).
    change (Pos.compare_cont Eq ma mc) with (Pos.compare ma mc).
    destruct (Z.compare_spec ea eb), (Z.compare_spec eb ec),
      (Z.compare_spec ea ec); try lia; try done; subst;
      destruct (Pos.compare_spec ma mb), (Pos.compare_spec mb mc),
        (Pos.compare_spec ma mc); try lia; try done.
  - change (Pos.compare_cont Eq ma mb) with (Pos.compare ma mb).
    change (Pos.compare_cont Eq mb mc) with (Pos.compare mb mc).
    change (Pos.compare_cont Eq ma mc) with (Pos.compare ma mc).
    destruct (Z.compare_spec ea eb), (Z.compare_spec eb ec),
      (Z.compare_spec ea ec); try lia; try done; subst;
      destruct (Pos.compare_spec ma mb), (Pos.compare_spec mb mc),
        (Pos.compare_spec ma mc); try lia; try done.
Qed.

Lemma leb_trans a b c :
  (a <=? b) = true -> (b <=? c) = true -> (a <=? c) = true.
Proof. rewrite !FloatAxioms.leb_spec. apply SFleb_trans. Qed.

Lemma Math_max_ge a b :
  is_nan a = false -> is_nan b = false ->
  (a <=? JS.Math_max a b) = true /\ (b <=? JS.Math_max a b) = true
  /\ is_nan (JS.Math_max a b) = false.
Proof.
  intros Ha Hb. unfold JS.Math_max. rewrite Ha, Hb. cbn [orb].
  destruct (a <? b) eqn:E1.
  - split; [now apply leb_of_ltb|]. split; [now apply leb_refl | done].
  - destruct (b <? a) eqn:E2.
    + split; [now apply leb_refl|]. split; [now apply leb_of_ltb | done].
    + assert (Hab : (a <=? b) = true) by now apply leb_of_not_ltb.
      assert (Hba : (b <=? a) = true) by now apply leb_of_not_ltb.
      destruct (classify a);
        (split; [first [now apply leb_refl | done]|];
         split; [first [now apply leb_refl | done] | done]).
Qed.

Lemma Math_min_ge a b :
  is_nan a = false -> is_nan b = false ->
  (JS.Math_min a b <=? a) = true /\ (JS.Math_min a b <=? b) = true
  /\ is_nan (JS.Math_min a b) = false.
Proof.
  intros Ha Hb. unfold JS.Math_min. rewrite Ha, Hb. cbn [orb].
  destruct (a <? b) eqn:E1.
  - split; [now apply leb_refl|]. split; [now apply leb_of_ltb | done].
  - destruct (b <? a) eqn:E2.
    + split; [now apply leb_of_ltb|]. split; [now apply leb_refl | done].
    + assert (Hab : (a <=? b) = true) by now apply leb_of_not_ltb.
      assert (Hba : (b <=? a) = true) by now apply leb_of_not_ltb.
      destruct (classify a);
        (split; [first [now apply leb_refl | done]|];
         split; [first [now apply leb_refl | done] | done]).
Qed.

Lemma positioned_numbers n :
  skipped n = false ->
  exists vx vy,
    GraphNode.x n = Some vx /\ GraphNode.y n = Some vy
    /\ is_nan vx = false /\ is_nan vy = false.
Proof.
  unfold skipped, JS.falsy. intros H.
  apply orb_false_iff in H as [Hx Hy].
  destruct (GraphNode.x n) as [vx|]; [|discriminate].
  destruct (GraphNode.y n) as [vy|]; [|discriminate].
  apply orb_false_iff in Hx as [_ Hx]. apply orb_false_iff in Hy as [_ Hy].
  now exists vx, vy.
Qed.

Lemma widens_refl b : numbers b -> widens b b.
Proof. intros (H1 & H2 & H3 & H4). repeat split; now apply leb_refl. Qed.

Lemma widens_trans b1 b2 b3 : widens b1 b2 -> widens b2 b3 -> widens b1 b3.
Proof.
  intros (A1 & A2 & A3 & A4) (B1 & B2 & B3 & B4).
  repeat split; eapply leb_trans; eauto.
Qed.

Lemma bounds_step_widens b n :
  numbers b ->
  numbers (bounds_step b n) /\ widens b (bounds_step b n)
  /\ (skipped n = false -> inside (bounds_step b n) n = true).
Proof.
  intros Hb. pose proof Hb as (H1 & H2 & H3 & H4).
  unfold bounds_step. destruct (skipped n) eqn:Hs.
  { split; [done|]. split; [now apply widens_refl | done]. }
  destruct (positioned_numbers n Hs) as (vx & vy & Ex & Ey & Nx & Ny).
  unfold inside, numbers, widens. cbn [minX minY maxX maxY].
  rewrite Ex, Ey. cbn [JS.to_number].
  destruct (Math_max_ge vx (maxX b) Nx H3) as (X1 & X2 & X3).
  destruct (Math_max_ge vy (maxY b) Ny H4) as (Y1 & Y2 & Y3).
  destruct (Math_min_ge vx (minX b) Nx H1) as (U1 & U2 & U3).
  destruct (Math_min_ge vy (minY b) Ny H2) as (V1 & V2 & V3).
  split; [done|]. split; [done|]. intros _.
  now rewrite U1, X1, V1, Y1.
Qed.

Lemma fold_bounds_step_widens nodes :
  forall b,
    numbers b ->
    numbers (fold_left bounds_step nodes b)
    /\ widens b (fold_left bounds_step nodes b).
Proof.
  induction nodes as [|n nodes IH]; intros b Hb; cbn [fold_left].
  - split; [done | now apply widens_refl].
  - destruct (bounds_step_widens b n Hb) as (N1 & W1 & _).
    destruct (IH _ N1) as (N2 & W2).
    split; [done | eapply widens_trans; eauto].
Qed.

Lemma inside_widens b b' n :
  widens b b' -> inside b n = true -> inside b' n = true.
Proof.
  intros (W1 & W2 & W3 & W4). unfold inside.
  destruct (GraphNode.x n) as [vx|]; [|done].
  destruct (GraphNode.y n) as [vy|]; [|done].
  rewrite !andb_true_iff. intros [[[A1 A2] A3] A4].
  repeat split; eapply leb_trans; eauto.
Qed.

Lemma fold_bounds_step_inside nodes n :
  n ∈ nodes -> skipped n = false ->
  forall b, numbers b -> inside (fold_left bounds_step nodes b) n = true.
Proof.
  intros Hin Hs. induction Hin as [n nodes | n m nodes Hin IH];
    intros b Hb; cbn [fold_left].
  - destruct (bounds_step_widens b n Hb) as (N1 & _ & Hi).
    destruct (fold_bounds_step_widens nodes _ N1) as (_ & W).
    eapply inside_widens; eauto.
  - destruct (bounds_step_widens b m Hb) as (N1 & _ & _).
    now apply IH.
Qed.

(** X12. The bounding box of [scaleNodePositions] holds every node that has
    both coordinates, and once there is such a node its lower bounds are at
    most its upper bounds. *)
Theorem bounding_box_contains :
  forall (nodes : list GraphNode.t) (n : GraphNode.t),
    n ∈ nodes -> skipped n = false ->
    inside (bounding_box nodes) n = true
    /\ (minX (bounding_box nodes) <=? maxX (bounding_box nodes)) = true
    /\ (minY (bounding_box nodes) <=? maxY (bounding_box nodes)) = true.
Proof.
  intros nodes n Hin Hs.
  assert (H : inside (bounding_box nodes) n = true).
  { apply fold_bounds_step_inside; [done..|]. now repeat split. }
  split; [exact H|]. unfold inside in H.
  destruct (GraphNode.x n) as [vx|]; [|done].
  destruct (GraphNode.y n) as [vy|]; [|done].
  rewrite !andb_true_iff in H. destruct H as [[[A1 A2] A3] A4].
  split; eapply leb_trans; eauto.
Qed.

(** The theorem at the second node of the pinned graph. *)
Lemma bounding_box_contains_witness :
  inside (bounding_box (Graph.nodes Examples.pinned))
    (Examples.node "b" (Some 200) (Some 300)) = true
  /\ (minX (bounding_box (Graph.nodes Examples.pinned))
      <=? maxX (bounding_box (Graph.nodes Examples.pinned))) = true.
Proof.
  destruct (bounding_box_contains (Graph.nodes Examples.pinned)
              (Examples.node "b" (Some 200) (Some 300)))
    as (H1 & H2 & _).
  - now apply (list_elem_of_lookup_2 _ 1%nat).
  - reflexivity.
  - split; [exact H1 | exact H2].
Defined.

(** ** The handlers of [CSPViewer] as lists of writes *)

Section LastWrite.

Context {A : Type}.
Variable f : nat -> A -> A.
Hypothesis absorb : forall j j' x, f j' (f j x) = f j' x.

Lemma writes_to_lookup ws :
  forall l k,
    writes_to f ws l !! k
    = match last_write k ws with
      | Some j => f j <$> l !! k
      | None => l !! k
      end.
Proof.
  induction ws as [|[k' j'] ws IH]; intros l k; [reflexivity|].
  unfold writes_to in *. cbn [fold_left last_write fst snd].
  rewrite IH. rewrite list_lookup_alter.
  destruct (last_write k ws) as [j|]; repeat case_decide; try congruence;
    try reflexivity.
  subst k'. destruct (l !! k) as [x|]; [|reflexivity].
  cbn. now rewrite absorb.
Qed.

Lemma writes_to_replay ws l :
  writes_to f ws (writes_to f ws l) = writes_to f ws l.
Proof.
  apply list_eq. intros k. rewrite !writes_to_lookup.
  destruct (last_write k ws) as [j|]; [|reflexivity].
  destruct (l !! k) as [x|]; [|reflexivity].
  cbn. now rewrite absorb.
Qed.

Lemma writes_to_frame {B} (h : A -> B) ws :
  (forall j x, h (f j x) = h x) ->
  forall l, h <$> writes_to f ws l = h <$> l.
Proof.
  intros Hh. induction ws as [|[k j] ws IH]; intros l; [reflexivity|].
  unfold writes_to in *. cbn [fold_left fst snd].
  rewrite IH. apply fmap_alter_same, Hh.
Qed.

End LastWrite.

Lemma last_write_is_Some k ws :
  is_Some (last_write k ws) <-> k ∈ ws.*1.
Proof.
  induction ws as [|[k' j'] ws IH]; cbn [last_write fst snd].
  - rewrite fmap_nil. split; [now intros [? ?] | now intros ?%elem_of_nil].
  - rewrite fmap_cons, elem_of_cons. cbn [fst].
    destruct (last_write k ws) as [j|].
    + split; [intros _; right; apply IH; eauto | eauto].
    + case_decide as Hk.
      * split; [now left | eauto].
      * split; [now intros [? ?]|]. intros [-> | Hin]; [done|].
        now apply IH.
Qed.

Lemma apply_writes_nil fn fe g : apply_writes fn fe [] g = g.
Proof. now destruct g. Qed.

Lemma apply_writes_cons fn fe r i rs g :
  apply_writes fn fe ((r, i) :: rs) g
  = apply_writes fn fe rs
      match r with
      | NodeRef k =>
          Graph.set_nodes (alter (fn i) k (Graph.nodes g)) g
      | EdgeRef k =>
          Graph.set_edges (alter (fe i) k (Graph.edges g)) g
      end.
Proof. now destruct r. Qed.

Lemma set_stroke_fixed r stroke strokeWidth g :
  set_stroke r stroke strokeWidth g
  = match r with
    | NodeRef k =>
        Graph.set_nodes
          (alter (stroked_node stroke strokeWidth) k (Graph.nodes g)) g
    | EdgeRef k =>
        Graph.set_edges
          (alter (stroked_edge stroke strokeWidth) k (Graph.edges g)) g
    end.
Proof. now destruct r. Qed.

Lemma set_stroke_own r colour strokeWidth g :
  set_stroke r (if truthy colour then colour else stroke_of g r) strokeWidth g
  = match r with
    | NodeRef k =>
        Graph.set_nodes
          (alter (highlight_node colour strokeWidth) k (Graph.nodes g)) g
    | EdgeRef k =>
        Graph.set_edges
          (alter (highlight_edge colour strokeWidth) k (Graph.edges g)) g
    end.
Proof.
  destruct r as [k|k]; unfold set_stroke; f_equal;
    (apply list_alter_ext; [|reflexivity]); intros x Hx;
    unfold stroke_of; rewrite Hx; reflexivity.
Qed.

Lemma highlight_named_nodes_writes ids colour :
  forall i g,
    highlight_named_nodes ids colour g
    = (apply_writes (fun _ => stroked_node colour 2)
         (fun _ => stroked_edge colour 2)
         (fst (resolve i (Graph.idMap g) ids)) g,
       snd (resolve i (Graph.idMap g) ids)).
Proof.
  induction ids as [|id ids IH]; intros i g;
    cbn [highlight_named_nodes resolve fst snd].
  { now rewrite apply_writes_nil. }
  destruct (Graph.idMap g !! id) as [r|];
    [|cbn [fst snd]; now rewrite apply_writes_nil].
  cbn [fst snd]. rewrite (IH (S i)), set_stroke_idMap, apply_writes_cons.
  now rewrite set_stroke_fixed.
Qed.

Lemma highlight_named_arcs_writes ids colour strokeWidth :
  forall i g,
    highlight_named_arcs ids colour strokeWidth g
    = (apply_writes (fun _ => highlight_node colour strokeWidth)
         (fun _ => highlight_edge colour strokeWidth)
         (fst (resolve i (Graph.idMap g) ids)) g,
       snd (resolve i (Graph.idMap g) ids)).
Proof.
  induction ids as [|id ids IH]; intros i g;
    cbn [highlight_named_arcs resolve fst snd].
  { now rewrite apply_writes_nil. }
  destruct (Graph.idMap g !! id) as [r|];
    [|cbn [fst snd]; now rewrite apply_writes_nil].
  cbn [fst snd]. rewrite (IH (S i)), set_stroke_idMap, apply_writes_cons.
  now rewrite set_stroke_own.
Qed.

Lemma setDomains_from_writes ids domains :
  forall i g,
    setDomains_from i ids domains g
    = (apply_writes (fun j => GraphNode.set_domain (domains !! j))
         (fun j => GraphEdge.set_domain (domains !! j))
         (fst (resolve i (Graph.idMap g) ids)) g,
       snd (resolve i (Graph.idMap g) ids)).
Proof.
  induction ids as [|id ids IH]; intros i g;
    cbn [setDomains_from resolve fst snd].
  { now rewrite apply_writes_nil. }
  destruct (Graph.idMap g !! id) as [[k|k]|];
    [| |cbn [fst snd]; now rewrite apply_writes_nil];
    cbn [fst snd]; rewrite (IH (S i)), apply_writes_cons; reflexivity.
Qed.

Lemma apply_writes_replay fn fe rs g :
  (forall j j' x, fn j' (fn j x) = fn j' x) ->
  (forall j j' x, fe j' (fe j x) = fe j' x) ->
  apply_writes fn fe rs (apply_writes fn fe rs g) = apply_writes fn fe rs g.
Proof.
  intros Hn He. unfold apply_writes. cbn [Graph.nodes Graph.edges Graph.idMap].
  now rewrite !writes_to_replay.
Qed.

Lemma apply_writes_repaints fn fe rs g :
  (forall j x, plain_node (fn j x) = plain_node x) ->
  (forall j x, plain_edge (fe j x) = plain_edge x) ->
  repaints g (apply_writes fn fe rs g).
Proof.
  intros Hn He. unfold repaints, apply_writes.
  cbn [Graph.nodes Graph.edges Graph.idMap].
  now rewrite !writes_to_frame.
Qed.

Lemma highlight_node_absorb colour w w' x :
  highlight_node colour w' (highlight_node colour w x)
  = highlight_node colour w' x.
Proof. unfold highlight_node. now destruct (truthy colour). Qed.

Lemma highlight_edge_absorb colour w w' x :
  highlight_edge colour w' (highlight_edge colour w x)
  = highlight_edge colour w' x.
Proof. unfold highlight_edge. now destruct (truthy colour). Qed.

Lemma resolve_known m ids :
  (forall id, id ∈ ids -> is_Some (m !! id)) ->
  forall i,
    snd (resolve i m ids) = Returns
    /\ forall r, r ∈ (fst (resolve i m ids)).*1 <-> named m ids r.
Proof.
  unfold named.
  induction ids as [|id ids IH]; intros Hk i; cbn [resolve].
  - split; [reflexivity|]. intros r. cbn. split.
    + now intros ?%elem_of_nil.
    + now intros (? & ?%elem_of_nil & _).
  - destruct (Hk id) as [r0 Hr0]; [now left|]. rewrite Hr0. cbn [fst snd].
    destruct (IH (fun id' H => Hk id' (list_elem_of_further _ _ _ H)) (S i))
      as [Hc Hin].
    split; [exact Hc|]. intros r. rewrite fmap_cons, elem_of_cons, Hin.
    cbn [fst]. split.
    + intros [-> | (id' & Hid' & Hr)].
      * exists id. split; [now left | done].
      * exists id'. split; [now right | done].
    + intros (id' & Hid' & Hr). apply elem_of_cons in Hid' as [-> | Hid'].
      * left. congruence.
      * right. eauto.
Qed.

Lemma node_targets_elem k rs :
  k ∈ (node_targets rs).*1 <-> NodeRef k ∈ rs.*1.
Proof.
  unfold node_targets. rewrite !list_elem_of_fmap. split.
  - intros ([k' j] & -> & Hin). apply list_elem_of_omap in Hin
      as ([r j'] & Hin & Hr). cbn in Hr. destruct r; [|done].
    injection Hr as -> ->. now exists (NodeRef k', j).
  - intros ([r j] & Hr & Hin). cbn in Hr. subst r.
    exists (k, j). split; [done|]. apply list_elem_of_omap.
    now exists (NodeRef k, j).
Qed.

Lemma edge_targets_elem k rs :
  k ∈ (edge_targets rs).*1 <-> EdgeRef k ∈ rs.*1.
Proof.
  unfold edge_targets. rewrite !list_elem_of_fmap. split.
  - intros ([k' j] & -> & Hin). apply list_elem_of_omap in Hin
      as ([r j'] & Hin & Hr). cbn in Hr. destruct r; [done|].
    injection Hr as -> ->. now exists (EdgeRef k', j).
  - intros ([r j] & Hr & Hin). cbn in Hr. subst r.
    exists (k, j). split; [done|]. apply list_elem_of_omap.
    now exists (EdgeRef k, j).
Qed.

(** What a loop that writes the same thing for every id leaves at each
    index. *)
Lemma uniform_writes_lookup {A} (f : A -> A) ws l k :
  (forall x, f (f x) = f x) ->
  writes_to (fun _ => f) ws l !! k
  = if bool_decide (k ∈ ws.*1) then f <$> l !! k else l !! k.
Proof.
  intros Hf. rewrite writes_to_lookup by (intros _ _; apply Hf).
  pose proof (last_write_is_Some k ws) as H.
  destruct (last_write k ws) as [j|].
  - rewrite bool_decide_eq_true_2; [done | apply H; eauto].
  - rewrite bool_decide_eq_false_2; [done|].
    intros Hin. apply H in Hin as [? ?]. discriminate.
Qed.

Lemma apply_writes_uniform fn fe rs g :
  (forall x, fn (fn x) = fn x) ->
  (forall x, fe (fe x) = fe x) ->
  let g' := apply_writes (fun _ => fn) (fun _ => fe) rs g in
  (forall k, NodeRef k ∈ rs.*1 ->
     Graph.nodes g' !! k = fn <$> Graph.nodes g !! k)
  /\ (forall k, NodeRef k ∉ rs.*1 ->
        Graph.nodes g' !! k = Graph.nodes g !! k)
  /\ (forall k, EdgeRef k ∈ rs.*1 ->
        Graph.edges g' !! k = fe <$> Graph.edges g !! k)
  /\ (forall k, EdgeRef k ∉ rs.*1 ->
        Graph.edges g' !! k = Graph.edges g !! k).
Proof.
  intros Hn He. unfold apply_writes. cbn [Graph.nodes Graph.edges].
  repeat split; intros k Hk;
    rewrite uniform_writes_lookup by assumption.
  - rewrite bool_decide_eq_true_2; [done | now apply node_targets_elem].
  - rewrite bool_decide_eq_false_2; [done | now rewrite node_targets_elem].
  - rewrite bool_decide_eq_true_2; [done | now apply edge_targets_elem].
  - rewrite bool_decide_eq_false_2; [done | now rewrite edge_targets_elem].
Qed.

Lemma stroked_node_absorb stroke w x :
  stroked_node stroke w (stroked_node stroke w x) = stroked_node stroke w x.
Proof. reflexivity. Qed.

Lemma stroked_edge_absorb stroke w x :
  stroked_edge stroke w (stroked_edge stroke w x) = stroked_edge stroke w x.
Proof. reflexivity. Qed.

(** X13. On a rendered view, a [highlightNodes] whose ids are all known
    returns, gives every object that an id names the stroke [colour] and the
    stroke width 2, and leaves every other node and edge, the component and
    [idMap] as they were. *)
Theorem highlightNodes_paints :
  forall (view : CSPViewer) (nodeIds : list string) (colour : option string),
    is_Some (vue view) ->
    (forall id, id ∈ nodeIds ->
       is_Some (Graph.idMap (graph view) !! id)) ->
    let g := graph view in
    let r := highlightNodes nodeIds colour view in
    let g' := graph (fst r) in
    snd r = Returns
    /\ vue (fst r) = vue view
    /\ Graph.idMap g' = Graph.idMap g
    /\ (forall k, named (Graph.idMap g) nodeIds (NodeRef k) ->
          Graph.nodes g' !! k = stroked_node colour 2 <$> Graph.nodes g !! k)
    /\ (forall k, ~ named (Graph.idMap g) nodeIds (NodeRef k) ->
          Graph.nodes g' !! k = Graph.nodes g !! k)
    /\ (forall k, named (Graph.idMap g) nodeIds (EdgeRef k) ->
          Graph.edges g' !! k = stroked_edge colour 2 <$> Graph.edges g !! k)
    /\ (forall k, ~ named (Graph.idMap g) nodeIds (EdgeRef k) ->
          Graph.edges g' !! k = Graph.edges g !! k).
Proof.
  intros view ids colour [v Hv] Hknown g r g'.
  destruct (resolve_known _ _ Hknown 0%nat) as [Hc Hin].
  assert (Hr : r = (set_graph (fst (highlight_named_nodes ids colour g)) view,
                    snd (highlight_named_nodes ids colour g))).
  { subst r. unfold highlightNodes. rewrite Hv. now destruct ids. }
  rewrite (highlight_named_nodes_writes ids colour 0%nat g) in Hr.
  cbn [fst snd] in Hr. subst g'. rewrite Hr. cbn [fst snd set_graph graph vue].
  destruct (apply_writes_uniform (stroked_node colour 2)
              (stroked_edge colour 2)
              (fst (resolve 0 (Graph.idMap g) ids)) g
              (stroked_node_absorb _ _) (stroked_edge_absorb _ _))
    as (N1 & N2 & E1 & E2).
  split; [exact Hc|]. split; [reflexivity|]. split; [reflexivity|].
  split; [|split; [|split]]; intros k Hk.
  - apply N1. now apply Hin.
  - apply N2. intros Hx. apply Hk. now apply Hin.
  - apply E1. now apply Hin.
  - apply E2. intros Hx. apply Hk. now apply Hin.
Qed.

(** The theorem at the rendered view and the message that names [n1]. *)
Lemma highlightNodes_paints_witness :
  Graph.nodes
    (graph (fst (highlightNodes ["n1"] (Some "red") Examples.rendered)))
    !! 0%nat
  = Some (stroked_node (Some "red") 2
            (Examples.variable "n1" ["1"; "2"; "3"]))
  /\ Graph.nodes
       (graph (fst (highlightNodes ["n1"] (Some "red") Examples.rendered)))
       !! 1%nat
     = Some (Examples.variable "n2" ["1"; "2"]).
Proof.
  destruct (highlightNodes_paints Examples.rendered ["n1"] (Some "red"))
    as (_ & _ & _ & H1 & H2 & _).
  - now exists {| output := None |}.
  - intros id ->%list_elem_of_singleton. now exists (NodeRef 0).
  - split.
    + rewrite H1; [reflexivity|]. exists "n1". split; [now left | reflexivity].
    + rewrite H2; [reflexivity|].
      intros (id & ->%list_elem_of_singleton & Hid). discriminate.
Defined.

Lemma highlight_node_idem colour w x :
  highlight_node colour w (highlight_node colour w x)
  = highlight_node colour w x.
Proof. apply highlight_node_absorb. Qed.

Lemma highlight_edge_idem colour w x :
  highlight_edge colour w (highlight_edge colour w x)
  = highlight_edge colour w x.
Proof. apply highlight_edge_absorb. Qed.

(** X14. On a rendered view, a [highlightArcs] whose ids are all known (or
    whose [arcIds] is [null], which stands for every edge) returns, gives the
    objects it names the stroke width 7 for the style [bold] and 4 otherwise,
    and the stroke [colour] unless [colour] is falsy, and leaves everything
    else as it was; with a falsy [colour] no edge changes its stroke. *)
Theorem highlightArcs_paints :
  forall (view : CSPViewer) (arcIds : option (list string))
    (colour : option string) (style : string),
    is_Some (vue view) ->
    (forall ids id, arcIds = Some ids -> id ∈ ids ->
       is_Some (Graph.idMap (graph view) !! id)) ->
    let g := graph view in
    let strokeWidth := if String.eqb style "bold" then 7 else 4 in
    let r := highlightArcs arcIds colour style view in
    let g' := graph (fst r) in
    snd r = Returns
    /\ Graph.idMap g' = Graph.idMap g
    /\ (forall k, targeted (Graph.idMap g) arcIds (EdgeRef k) ->
          Graph.edges g' !! k
          = highlight_edge colour strokeWidth <$> Graph.edges g !! k)
    /\ (forall k, ~ targeted (Graph.idMap g) arcIds (EdgeRef k) ->
          Graph.edges g' !! k = Graph.edges g !! k)
    /\ (forall k, targeted (Graph.idMap g) arcIds (NodeRef k) ->
          Graph.nodes g' !! k
          = highlight_node colour strokeWidth <$> Graph.nodes g !! k)
    /\ (forall k, ~ targeted (Graph.idMap g) arcIds (NodeRef k) ->
          Graph.nodes g' !! k = Graph.nodes g !! k)
    /\ (truthy colour = false ->
        (fun e => EdgeStyles.stroke (GraphEdge.styles e)) <$> Graph.edges g'
        = (fun e => EdgeStyles.stroke (GraphEdge.styles e)) <$> Graph.edges g).
Proof.
  intros view arcIds colour style [v Hv] Hknown g sw r g'.
  destruct arcIds as [ids|].
  - destruct (resolve_known _ _ (fun id => Hknown ids id eq_refl) 0%nat)
      as [Hc Hin].
    assert (Hr : r = (set_graph
                        (fst (highlight_named_arcs ids colour sw g)) view,
                      snd (highlight_named_arcs ids colour sw g))).
    { subst r. unfold highlightArcs. rewrite Hv. now destruct ids. }
    rewrite (highlight_named_arcs_writes ids colour sw 0%nat g) in Hr.
    cbn [fst snd] in Hr. subst g'. rewrite Hr.
    cbn [fst snd set_graph graph vue targeted].
    destruct (apply_writes_uniform (highlight_node colour sw)
                (highlight_edge colour sw)
                (fst (resolve 0 (Graph.idMap g) ids)) g
                (highlight_node_idem _ _) (highlight_edge_idem _ _))
      as (N1 & N2 & E1 & E2).
    split; [exact Hc|]. split; [reflexivity|].
    split; [|split; [|split; [|split]]]; try intros k Hk.
    + apply E1. now apply Hin.
    + apply E2. intros Hx. apply Hk. now apply Hin.
    + apply N1. now apply Hin.
    + apply N2. intros Hx. apply Hk. now apply Hin.
    + intros Hc'. unfold apply_writes. cbn [Graph.edges].
      apply writes_to_frame. intros _ x. unfold highlight_edge.
      now rewrite Hc'.
  - assert (Hr : r = (set_graph
                        (Graph.set_edges
                           (map (highlight_edge colour sw) (Graph.edges g)) g)
                        view, Returns)).
    { subst r. unfold highlightArcs. rewrite Hv. reflexivity. }
    subst g'. rewrite Hr.
    cbn [fst snd set_graph graph Graph.set_edges Graph.edges Graph.nodes
         Graph.idMap targeted].
    split; [reflexivity|]. split; [reflexivity|].
    split; [|split; [|split; [|split]]]; try intros k Hk.
    + apply list_lookup_fmap.
    + exfalso. apply Hk. now exists k.
    + now destruct Hk.
    + reflexivity.
    + intros Hc'.
      change (map (highlight_edge colour sw) (Graph.edges g))
        with (highlight_edge colour sw <$> Graph.edges g).
      rewrite <- list_fmap_compose. apply list_fmap_ext.
      intros i x _. cbn. unfold highlight_edge. now rewrite Hc'.
Qed.

(** The theorem at the rendered view and the bold highlight of [e1] without
    a colour. *)
Lemma highlightArcs_paints_witness :
  Graph.edges
    (graph (fst (highlightArcs (Some ["e1"]) None "bold" Examples.rendered)))
    !! 0%nat
  = Some (highlight_edge None 7 (Examples.edge "e1" 0 1))
  /\ Graph.nodes
       (graph (fst (highlightArcs (Some ["e1"]) None "bold"
                      Examples.rendered))) !! 0%nat
     = Some (Examples.variable "n1" ["1"; "2"; "3"]).
Proof.
  destruct (highlightArcs_paints Examples.rendered (Some ["e1"]) None "bold")
    as (_ & _ & H1 & _ & _ & H2 & _).
  - now exists {| output := None |}.
  - intros ids id [= <-] ->%list_elem_of_singleton. now exists (EdgeRef 0).
  - split.
    + rewrite H1; [reflexivity|]. exists "e1". split; [now left | reflexivity].
    + rewrite H2; [reflexivity|].
      intros (id & ->%list_elem_of_singleton & Hid). discriminate.
Defined.

(** *** Replay *)

Lemma highlightNodes_replay ids colour view :
  let r := highlightNodes ids colour view in
  highlightNodes ids colour (fst r) = r.
Proof.
  cbn zeta. unfold highlightNodes.
  destruct (vue view) as [v|] eqn:Hv, ids as [|id ids];
    cbn [fst snd set_graph vue graph]; rewrite ?Hv; try reflexivity.
  all: rewrite !(highlight_named_nodes_writes _ colour 0%nat);
    cbn [fst snd apply_writes Graph.idMap];
    try (rewrite apply_writes_replay by reflexivity; reflexivity).
Qed.

Lemma highlightArcs_replay arcIds colour style view :
  let r := highlightArcs arcIds colour style view in
  highlightArcs arcIds colour style (fst r) = r.
Proof.
  cbn zeta. unfold highlightArcs.
  set (sw := if String.eqb style "bold" then 7 else 4).
  destruct arcIds as [ids|].
  - destruct (vue view) as [v|] eqn:Hv, ids as [|id ids];
      cbn [fst snd set_graph vue graph]; rewrite ?Hv; try reflexivity.
    all: rewrite !(highlight_named_arcs_writes _ colour sw 0%nat);
      cbn [fst snd apply_writes Graph.idMap];
      rewrite apply_writes_replay
        by (intros; first [apply highlight_node_absorb
                          | apply highlight_edge_absorb]);
      reflexivity.
  - assert (Hmap : forall es,
              map (highlight_edge colour sw) (map (highlight_edge colour sw) es)
              = map (highlight_edge colour sw) es).
    { intros es. rewrite map_map. apply map_ext. intros e.
      apply highlight_edge_absorb. }
    destruct (vue view) as [v|] eqn:Hv;
      destruct (Graph.edges (graph view)) as [|e es] eqn:He;
      cbn [fst snd set_graph vue graph Graph.set_edges Graph.edges map
           Graph.nodes Graph.idMap];
      rewrite ?Hv, ?He; cbn [map]; try reflexivity.
    + rewrite highlight_edge_absorb. now rewrite Hmap.
Qed.

Lemma setDomains_replay ids domains view :
  let r := setDomains ids domains view in
  setDomains ids domains (fst r) = r.
Proof.
  cbn zeta. unfold setDomains. cbn [fst snd set_graph graph].
  rewrite !(setDomains_from_writes _ domains 0%nat).
  cbn [fst snd apply_writes Graph.idMap].
  rewrite apply_writes_replay by reflexivity. reflexivity.
Qed.

Lemma handled_replay (f : CSPViewer -> CSPViewer * Completion) view :
  f (fst (f view)) = f view ->
  handled (f (after (handled (f view)))) = handled (f view).
Proof. intros H. unfold handled at 2. cbn [after]. now rewrite H. Qed.

(** X15. Every inbound message can be replayed on the view: delivered a
    second time to the view it left, it leaves that view as it is and ends
    the same way, whatever the user answers to the prompts. Every message
    but [ChooseDomainSplit], whose reply is the user's, also sends the same
    messages the second time. *)
Theorem replay_changes_nothing :
  forall (first_prompt second_prompt : string -> string -> option string)
    (view : CSPViewer) (event : IEvent),
    let first := on_msg first_prompt view event in
    let second := on_msg second_prompt (after first) event in
    after second = after first
    /\ completion second = completion first
    /\ ((forall domain, event <> ChooseDomainSplitEvent domain) ->
        second = first).
Proof.
  intros wp wp' view event. cbn zeta.
  assert (H : forall (f : CSPViewer -> CSPViewer * Completion),
            f (fst (f view)) = f view ->
            after (handled (f (after (handled (f view)))))
            = after (handled (f view))
            /\ completion (handled (f (after (handled (f view)))))
               = completion (handled (f view))
            /\ ((forall domain, event <> ChooseDomainSplitEvent domain) ->
                handled (f (after (handled (f view)))) = handled (f view))).
  { intros f Hf. rewrite (handled_replay f view Hf). now repeat split. }
  destruct event as [arcIds colour style | ids domains | ids colour | domain
                    | text | ]; cbn [on_msg].
  - apply (H (highlightArcs arcIds colour style)), highlightArcs_replay.
  - apply (H (setDomains ids domains)), setDomains_replay.
  - apply (H (highlightNodes ids colour)), highlightNodes_replay.
  - split; [reflexivity|]. split; [reflexivity|].
    intros Hne. now destruct (Hne domain).
  - destruct (vue view) as [v|] eqn:Hv; cbn [after vue]; rewrite ?Hv;
      now repeat split.
  - now repeat split.
Qed.

Lemma repaints_refl g : repaints g g.
Proof. now repeat split. Qed.

Lemma repaints_trans g1 g2 g3 : repaints g1 g2 -> repaints g2 g3 -> repaints g1 g3.
Proof.
  intros (A1 & A2 & A3) (B1 & B2 & B3).
  repeat split; etrans; eauto.
Qed.

Lemma repaints_wf g g' : repaints g g' -> Graph_wf g -> Graph_wf g'.
Proof.
  intros (Hn & He & Hm). apply Graph_wf_frames; [exact Hm| |].
  - apply (f_equal (fmap GraphNode.id)) in Hn.
    now rewrite <- !list_fmap_compose in Hn.
  - apply (f_equal (fmap GraphEdge.id)) in He.
    now rewrite <- !list_fmap_compose in He.
Qed.

Lemma plain_highlight_node colour w x :
  plain_node (highlight_node colour w x) = plain_node x.
Proof. reflexivity. Qed.

Lemma plain_highlight_edge colour w x :
  plain_edge (highlight_edge colour w x) = plain_edge x.
Proof. reflexivity. Qed.

Lemma highlightArcs_repaints arcIds colour style view :
  let r := fst (highlightArcs arcIds colour style view) in
  repaints (graph view) (graph r)
  /\ previouslyRendered r = previouslyRendered view.
Proof.
  cbn zeta. unfold highlightArcs.
  set (sw := if String.eqb style "bold" then 7 else 4).
  destruct arcIds as [ids|].
  - rewrite (highlight_named_arcs_writes _ colour sw 0%nat).
    assert (R : repaints (graph view)
                  (apply_writes (fun _ => highlight_node colour sw)
                     (fun _ => highlight_edge colour sw)
                     (fst (resolve 0 (Graph.idMap (graph view)) ids))
                     (graph view)))
      by now apply apply_writes_repaints.
    destruct (vue view), ids; cbn [fst snd set_graph graph previouslyRendered];
      (split; [first [exact R | apply repaints_refl] | reflexivity]).
  - assert (R : repaints (graph view)
                  (Graph.set_edges
                     (map (highlight_edge colour sw) (Graph.edges (graph view)))
                     (graph view))).
    { repeat split. cbn [Graph.set_edges Graph.edges].
      change (map (highlight_edge colour sw) (Graph.edges (graph view)))
        with (highlight_edge colour sw <$> Graph.edges (graph view)).
      rewrite <- list_fmap_compose. now apply list_fmap_ext. }
    destruct (vue view), (Graph.edges (graph view)) eqn:He;
      cbn [fst snd set_graph graph previouslyRendered];
      (split; [first [exact R | apply repaints_refl] | reflexivity]).
Qed.

Lemma on_msg_repaints wp view event :
  repaints (graph view) (graph (after (on_msg wp view event)))
  /\ previouslyRendered (after (on_msg wp view event))
     = previouslyRendered view.
Proof.
  destruct event as [arcIds colour style | ids domains | ids colour | domain
                    | text | ]; cbn [on_msg handled after].
  - apply highlightArcs_repaints.
  - unfold setDomains. cbn [fst set_graph graph previouslyRendered].
    rewrite (setDomains_from_writes _ domains 0%nat). cbn [fst].
    split; [now apply apply_writes_repaints | reflexivity].
  - unfold highlightNodes.
    rewrite (highlight_named_nodes_writes _ colour 0%nat).
    assert (R : repaints (graph view)
                  (apply_writes (fun _ => stroked_node colour 2)
                     (fun _ => stroked_edge colour 2)
                     (fst (resolve 0 (Graph.idMap (graph view)) ids))
                     (graph view)))
      by now apply apply_writes_repaints.
    destruct (vue view), ids; cbn [fst snd set_graph graph previouslyRendered];
      (split; [first [exact R | apply repaints_refl] | reflexivity]).
  - split; [apply repaints_refl | reflexivity].
  - destruct (vue view); cbn [after graph previouslyRendered];
      (split; [apply repaints_refl | reflexivity]).
  - split; [apply repaints_refl | reflexivity].
Qed.

Lemma repaints_rearranges g g' : repaints g g' -> rearranges g g'.
Proof.
  intros (Hn & He & Hm). split; [|now split].
  apply (f_equal (fmap unplaced)) in Hn.
  now rewrite <- !list_fmap_compose in Hn.
Qed.

Lemma rearranges_trans g1 g2 g3 :
  rearranges g1 g2 -> rearranges g2 g3 -> rearranges g1 g3.
Proof.
  intros (A1 & A2 & A3) (B1 & B2 & B3).
  repeat split; etrans; eauto.
Qed.

Lemma rearranges_wf g g' : rearranges g g' -> Graph_wf g -> Graph_wf g'.
Proof.
  intros (Hn & He & Hm). apply Graph_wf_frames; [exact Hm| |].
  - apply (f_equal (fmap GraphNode.id)) in Hn.
    now rewrite <- !list_fmap_compose in Hn.
  - apply (f_equal (fmap GraphEdge.id)) in He.
    now rewrite <- !list_fmap_compose in He.
Qed.

(** A render lays the graph out and, the first time, highlights the arcs. *)
Lemma render_rearranges Sim forceSimulation tick measured view :
  rearranges (graph view)
    (graph (after (render Sim forceSimulation tick measured view)))
  /\ previouslyRendered (after (render Sim forceSimulation tick measured view))
     = previouslyRendered view.
Proof.
  set (mounted := mount Sim forceSimulation tick measured view).
  assert (M : rearranges (graph view) (graph mounted)).
  { split; [|now split]. unfold mounted, mount. cbn [graph].
    unfold GraphLayout.setup, GraphLayout.new.
    cbn [GraphLayout.setupLayoutFunction d3ForceLayout Graph.set_nodes
         Graph.nodes].
    pose proof (unplaced_copy_positions
                  (scaleNodePositions measured (Graph.nodes (graph view)))
                  (simulated_nodes Sim forceSimulation tick (graph view)
                     measured)) as H.
    rewrite unplaced_scaleNodePositions in H.
    apply (f_equal (fmap plain_node)) in H.
    rewrite <- !list_fmap_compose in H. exact H. }
  unfold render. fold mounted.
  destruct (previouslyRendered view) eqn:Hp; cbn [negb after].
  - split; [exact M | unfold mounted; cbn; exact Hp].
  - destruct (highlightArcs_repaints None (Some "blue") "normal" mounted)
      as [R P]. cbn zeta in R, P.
    split; [exact (rearranges_trans _ _ _ M (repaints_rearranges _ _ R))|].
    rewrite P. unfold mounted. cbn. exact Hp.
Qed.

(** X16. The messages a view handles change nothing of its graph but domains,
    strokes and stroke widths: the nodes and edges, their ids, names,
    positions, radii and end points, and [idMap] are as they were. A render
    also lays the graph out: along any messages and renders the same is
    kept but for the positions of the nodes. [idMap] stays sound, and
    [previouslyRendered] is not written. *)
Theorem messages_repaint_only :
  forall (window_prompt : string -> string -> option string) (Sim : Type)
    (forceSimulation : Graph.t -> IGraphLayoutParams -> Sim * list GraphNode.t)
    (tick : Sim -> list GraphNode.t -> Sim * list GraphNode.t)
    (measured : IGraphLayoutParams) (view : CSPViewer),
    (forall events,
        let view' :=
          fst (run window_prompt Sim forceSimulation tick measured view
                 (Message <$> events)) in
        repaints (graph view) (graph view'))
    /\ (forall activities,
          let view' :=
            fst (run window_prompt Sim forceSimulation tick measured view
                   activities) in
          rearranges (graph view) (graph view')
          /\ previouslyRendered view' = previouslyRendered view
          /\ (Graph_wf (graph view) -> Graph_wf (graph view'))).
Proof.
  intros wp Sim fs tick measured view. split.
  - intros events. cbn zeta. revert view.
    induction events as [|event events IH]; intros view;
      [apply repaints_refl|].
    rewrite fmap_cons. cbn [run perform fst].
    destruct (on_msg_repaints wp view event) as [R1 _].
    exact (repaints_trans _ _ _ R1 (IH _)).
  - intros activities. cbn zeta.
    assert (H : forall view,
              rearranges (graph view)
                (graph (fst (run wp Sim fs tick measured view activities)))
              /\ previouslyRendered
                   (fst (run wp Sim fs tick measured view activities))
                 = previouslyRendered view).
    { induction activities as [|a rest IH]; intros v; cbn [run fst].
      - split; [apply repaints_rearranges, repaints_refl | reflexivity].
      - destruct (IH (after (perform wp Sim fs tick measured v a)))
          as [R2 P2].
        destruct a as [event|]; cbn [perform] in *.
        + destruct (on_msg_repaints wp v event) as [R1 P1].
          split; [|congruence].
          exact (rearranges_trans _ _ _ (repaints_rearranges _ _ R1) R2).
        + destruct (render_rearranges Sim fs tick measured v) as [R1 P1].
          split; [|congruence].
          exact (rearranges_trans _ _ _ R1 R2). }
    destruct (H view) as [R P].
    split; [exact R|]. split; [exact P|]. now apply rearranges_wf.
Qed.

(** X17. Before the first render the view has no component: a highlight that
    names an object, a highlight of every arc of a graph that has one, and an
    output each end with a [TypeError], change nothing and send nothing, so
    the view goes on as if they had not been delivered. *)
Theorem messages_before_render_are_lost :
  forall (window_prompt : string -> string -> option string)
    (view : CSPViewer) (events : list IEvent),
    vue view = None ->
    Forall (fun event => uses_component (graph view) event = true) events ->
    (forall event, event ∈ events ->
       on_msg window_prompt view event
       = {| after := view; sent := []; completion := TypeError |})
    /\ (forall (Sim : Type)
          (forceSimulation :
             Graph.t -> IGraphLayoutParams -> Sim * list GraphNode.t)
          (tick : Sim -> list GraphNode.t -> Sim * list GraphNode.t)
          (measured : IGraphLayoutParams) rest,
          run window_prompt Sim forceSimulation tick measured view
            ((Message <$> events) ++ rest)
          = run window_prompt Sim forceSimulation tick measured view rest).
Proof.
  intros wp view events Hv Hall.
  assert (H1 : forall event,
            uses_component (graph view) event = true ->
            on_msg wp view event
            = {| after := view; sent := []; completion := TypeError |}).
  { intros [[[|id ids]|] colour style | ids domains | [|id ids] colour
            | domain | text | ]; cbn [uses_component on_msg]; try done.
    - intros _. unfold highlightArcs. now rewrite Hv.
    - unfold highlightArcs. rewrite Hv.
      now destruct (Graph.edges (graph view)).
    - intros _. unfold highlightNodes. now rewrite Hv.
    - intros _. now rewrite Hv. }
  split.
  - intros event Hin. apply H1. rewrite Forall_forall in Hall. now apply Hall.
  - intros Sim fs tick measured rest.
    induction Hall as [|event events Hev _ IH]; [reflexivity|].
    rewrite fmap_cons. cbn [app run perform].
    rewrite (H1 event Hev). cbn [after sent app]. rewrite IH.
    now destruct (run wp Sim fs tick measured view rest).
Qed.

(** The theorem at the view as created, for a highlight and an output that
    come before the render. *)
Lemma messages_before_render_are_lost_witness :
  Examples.run Examples.cancels Examples.created
    [Message (HighlightNodesEvent ["n1"] (Some "red"));
     Message (OutputEvent "solved"); Display]
  = Examples.run Examples.cancels Examples.created [Display].
Proof.
  destruct (messages_before_render_are_lost Examples.cancels Examples.created
              [HighlightNodesEvent ["n1"] (Some "red"); OutputEvent "solved"])
    as [_ H].
  - reflexivity.
  - repeat constructor.
  - exact (H DriftSimulation.Sim DriftSimulation.forceSimulation
             DriftSimulation.tick Examples.canvas [Display]).
Defined.

(** One assignment of [setDomains], seen from the object [r]. *)
Lemma object_assigned d r0 r g :
  object
    match r0 with
    | NodeRef k =>
        Graph.set_nodes
          (alter (GraphNode.set_domain d) k (Graph.nodes g)) g
    | EdgeRef k =>
        Graph.set_edges
          (alter (GraphEdge.set_domain d) k (Graph.edges g)) g
    end r
  = match r0, r with
    | NodeRef k0, NodeRef k | EdgeRef k0, EdgeRef k =>
        if decide (k0 = k) then with_domain d <$> object g r else object g r
    | _, _ => object g r
    end.
Proof.
  destruct r0 as [k0|k0], r as [k|k];
    cbn [object Graph.set_nodes Graph.set_edges Graph.nodes Graph.edges];
    try reflexivity; rewrite list_lookup_alter; case_decide; try reflexivity;
    subst k0; match goal with
              | |- context [?l !! k] => now destruct (l !! k)
              end.
Qed.

Lemma object_assigned_same d r g :
  object
    match r with
    | NodeRef k =>
        Graph.set_nodes
          (alter (GraphNode.set_domain d) k (Graph.nodes g)) g
    | EdgeRef k =>
        Graph.set_edges
          (alter (GraphEdge.set_domain d) k (Graph.edges g)) g
    end r
  = with_domain d <$> object g r.
Proof.
  rewrite object_assigned. destruct r; now rewrite decide_True by reflexivity.
Qed.

Lemma object_assigned_other d r0 r g :
  r0 <> r ->
  object
    match r0 with
    | NodeRef k =>
        Graph.set_nodes
          (alter (GraphNode.set_domain d) k (Graph.nodes g)) g
    | EdgeRef k =>
        Graph.set_edges
          (alter (GraphEdge.set_domain d) k (Graph.edges g)) g
    end r
  = object g r.
Proof.
  intros Hne. rewrite object_assigned.
  destruct r0, r; try reflexivity; case_decide; congruence.
Qed.

Lemma with_domain_with_domain d d' (o : option (GraphNode.t + GraphEdge.t)) :
  with_domain d <$> (with_domain d' <$> o) = with_domain d <$> o.
Proof. now destruct o as [[n|e]|]. Qed.

Lemma setDomains_from_step i id r ids domains g :
  Graph.idMap g !! id = Some r ->
  setDomains_from i (id :: ids) domains g
  = setDomains_from (S i) ids domains
      match r with
      | NodeRef k =>
          Graph.set_nodes
            (alter (GraphNode.set_domain (domains !! i)) k (Graph.nodes g)) g
      | EdgeRef k =>
          Graph.set_edges
            (alter (GraphEdge.set_domain (domains !! i)) k (Graph.edges g)) g
      end.
Proof. intros H. cbn [setDomains_from]. rewrite H. now destruct r. Qed.

Lemma setDomains_from_last ids domains :
  forall i g,
    (forall id, id ∈ ids -> is_Some (Graph.idMap g !! id)) ->
    let r := setDomains_from i ids domains g in
    snd r = Returns
    /\ Graph.idMap (fst r) = Graph.idMap g
    /\ (forall o, ~ named (Graph.idMap g) ids o ->
          object (fst r) o = object g o)
    /\ (forall j id o,
          ids !! j = Some id -> Graph.idMap g !! id = Some o ->
          (forall j' id', j < j' -> ids !! j' = Some id' ->
             Graph.idMap g !! id' <> Some o) ->
          object (fst r) o
          = with_domain (domains !! (i + j)%nat) <$> object g o).
Proof.
  induction ids as [|id0 ids IH]; intros i g Hknown; cbn zeta.
  { cbn [setDomains_from]. repeat split; done. }
  destruct (Hknown id0) as [r0 Hr0]; [now left|].
  rewrite (setDomains_from_step i id0 r0 ids domains g Hr0).
  set (g1 := match r0 with
             | NodeRef k =>
                 Graph.set_nodes
                   (alter (GraphNode.set_domain (domains !! i)) k
                      (Graph.nodes g)) g
             | EdgeRef k =>
                 Graph.set_edges
                   (alter (GraphEdge.set_domain (domains !! i)) k
                      (Graph.edges g)) g
             end).
  assert (Hm1 : Graph.idMap g1 = Graph.idMap g) by (unfold g1; now destruct r0).
  assert (Hknown' : forall id, id ∈ ids -> is_Some (Graph.idMap g1 !! id)).
  { intros id Hid. rewrite Hm1. apply Hknown. now right. }
  destruct (IH (S i) g1 Hknown') as (C & M & U & L).
  rewrite Hm1 in M, U, L.
  split; [exact C|]. split; [exact M|]. split.
  - intros o Ho.
    assert (Hne : r0 <> o).
    { intros ->. apply Ho. exists id0. split; [now left | done]. }
    rewrite U.
    + unfold g1. now apply object_assigned_other.
    + intros (id & Hid & Hr). apply Ho. exists id. split; [now right | done].
  - intros [|j] id o Hj Hid Hl; cbn in Hj.
    + injection Hj as <-. rewrite Hr0 in Hid. injection Hid as <-.
      rewrite Nat.add_0_r, U.
      * unfold g1. apply object_assigned_same.
      * intros (id & Hin & Hr). apply list_elem_of_lookup in Hin as [j' Hj'].
        apply (Hl (S j') id); [lia | done | done].
    + rewrite (L j id o Hj Hid).
      2:{ intros j' id' Hlt Hj'. apply (Hl (S j') id'); [lia | done]. }
      replace (S i + j)%nat with (i + S j)%nat by lia.
      unfold g1. rewrite object_assigned.
      destruct r0 as [k0|k0], o as [k|k]; try reflexivity;
        case_decide; try reflexivity; apply with_domain_with_domain.
Qed.

(** X21. A [setDomains] whose ids are all known returns, before the first
    render too. The object an id names, a node or an edge, gets the domain at
    the index of that id; an object named more than once ends with the domain
    at the index of its last id, which is [undefined] when [domains] is
    shorter than [nodeIds]. The objects that no id names, the component and
    [idMap] are as they were. *)
Theorem setDomains_last_write :
  forall (view : CSPViewer) (nodeIds : list string)
    (domains : list (list string)),
    (forall id, id ∈ nodeIds ->
       is_Some (Graph.idMap (graph view) !! id)) ->
    let g := graph view in
    let r := setDomains nodeIds domains view in
    let g' := graph (fst r) in
    snd r = Returns
    /\ vue (fst r) = vue view
    /\ Graph.idMap g' = Graph.idMap g
    /\ (forall o, ~ named (Graph.idMap g) nodeIds o ->
          object g' o = object g o)
    /\ (forall j id o,
          nodeIds !! j = Some id -> Graph.idMap g !! id = Some o ->
          (forall j' id', j < j' -> nodeIds !! j' = Some id' ->
             Graph.idMap g !! id' <> Some o) ->
          object g' o = with_domain (domains !! j) <$> object g o).
Proof.
  intros view ids domains Hknown. cbn zeta. unfold setDomains.
  cbn [fst snd set_graph graph vue].
  destruct (setDomains_from_last ids domains 0%nat (graph view) Hknown)
    as (C & M & U & L).
  split; [exact C|]. split; [reflexivity|]. split; [exact M|].
  split; [exact U | exact L].
Qed.

(** The theorem at a message that names [n1] first and last and the edge
    [e1] in between, and gives two domains. *)
Lemma setDomains_last_write_witness :
  object
    (graph (fst (setDomains ["n1"; "e1"; "n1"] [["a"]; ["b"]]
                   Examples.rendered))) (NodeRef 0)
  = Some (inl (GraphNode.set_domain None
                 (Examples.variable "n1" ["1"; "2"; "3"])))
  /\ object
       (graph (fst (setDomains ["n1"; "e1"; "n1"] [["a"]; ["b"]]
                      Examples.rendered))) (EdgeRef 0)
     = Some (inr (GraphEdge.set_domain (Some ["b"])
                    (Examples.edge "e1" 0 1))).
Proof.
  destruct (setDomains_last_write Examples.rendered ["n1"; "e1"; "n1"]
              [["a"]; ["b"]]) as (_ & _ & _ & _ & H).
  - intros id Hid. apply elem_of_cons in Hid as [-> | Hid]; [now eexists|].
    apply elem_of_cons in Hid as [-> | Hid]; [now eexists|].
    apply elem_of_cons in Hid as [-> | Hid]; [now eexists|].
    now apply elem_of_nil in Hid.
  - split.
    + rewrite (H 2%nat "n1" (NodeRef 0)); [reflexivity..|].
      intros [|[|[|j']]] id' Hlt Hj'; try lia; discriminate.
    + rewrite (H 1%nat "e1" (EdgeRef 0)); [reflexivity..|].
      intros [|[|[|j']]] id' Hlt Hj'; try lia; try discriminate.
      injection Hj' as <-. discriminate.
Defined.

(** ** The components that draw the graphs *)

(** X18. A node of the search graph is drawn legibly: its fill is never its
    text colour, its stroke is never the empty string, its stroke width is
    never 0 nor [NaN], and a stroke set in its styles is the one used. *)
Theorem search_node_is_legible :
  forall (node : SearchVisualizer.ISearchGraphNode) (hover : bool),
    SearchVisualizer.nodeFillColour node hover
    <> SearchVisualizer.nodeTextColour node hover
    /\ truthy (Some (SearchVisualizer.nodeStroke node)) = true
    /\ JS.falsy (Some (SearchVisualizer.nodeStrokeWidth node)) = false
    /\ (forall s c, SearchVisualizer.styles node = Some s ->
          NodeStyles.stroke s = Some c -> c <> EmptyString ->
          SearchVisualizer.nodeStroke node = c).
Proof.
  intros [type styles] hover.
  unfold SearchVisualizer.nodeFillColour, SearchVisualizer.nodeTextColour,
    SearchVisualizer.nodeStroke, SearchVisualizer.nodeStrokeWidth.
  cbn [SearchVisualizer.type SearchVisualizer.styles].
  split; [|split; [|split]].
  - destruct hover; [discriminate|].
    destruct (String.eqb type "search:start"); [discriminate|].
    destruct (String.eqb type "search:goal"); discriminate.
  - destruct styles as [[[[|a c]|] w r]|]; reflexivity.
  - destruct styles as [[c [w|] r]|]; cbn [NodeStyles.strokeWidth];
      try reflexivity.
    destruct (JS.falsy (Some w)) eqn:E; [reflexivity | exact E].
  - intros s c [= ->] Hc Hne. rewrite Hc.
    destruct c; [done | reflexivity].
Qed.

(** X19. In [BayesNetInteractor], after any clicks on nodes and changes of
    mode: when the observation panel is shown the component is not querying
    and the value checked is the first value of the domain listed; and a
    change of mode hides the panel. *)
Theorem observation_panel :
  forall (actions : list BayesNetInteractor.Action)
    (st : BayesNetInteractor.t),
    BayesNetInteractor.first_value_checked st ->
    let st' := fold_left BayesNetInteractor.act actions st in
    BayesNetInteractor.first_value_checked st'
    /\ (BayesNetInteractor.panel_shown st' = Some true ->
        BayesNetInteractor.isQuerying st' = false
        /\ exists d v,
             BayesNetInteractor.focus_domain (BayesNetInteractor.focus st')
             = Some d
             /\ BayesNetInteractor.checkedNames (BayesNetInteractor.focus st')
                = Some v
             /\ d !! 0%nat = Some v)
    /\ (forall newVal,
          BayesNetInteractor.panel_shown
            (BayesNetInteractor.act st' (BayesNetInteractor.Mode newVal))
          = Some false).
Proof.
  intros actions st Hst. cbn zeta.
  assert (H : BayesNetInteractor.first_value_checked
                (fold_left BayesNetInteractor.act actions st)).
  { revert st Hst. induction actions as [|a actions IH]; intros st Hst;
      cbn [fold_left]; [exact Hst|].
    apply IH. destruct a as [node|newVal]; cbn [BayesNetInteractor.act].
    - unfold BayesNetInteractor.nodeClicked.
      destruct (BayesNetInteractor.isQuerying st); cbn [fst]; [exact Hst|].
      intros d Hd Hne. cbn in Hd |- *. now rewrite Hd.
    - intros d Hd Hne. cbn in Hd. now injection Hd as <-. }
  split; [exact H|]. split; [|reflexivity].
  set (st' := fold_left BayesNetInteractor.act actions st) in *.
  unfold BayesNetInteractor.panel_shown. intros Hshown.
  destruct (BayesNetInteractor.focus_domain (BayesNetInteractor.focus st'))
    as [[|v d]|] eqn:Hd; try discriminate.
  injection Hshown as Hq. apply negb_true_iff in Hq.
  split; [exact Hq|]. exists (v :: d), v.
  split; [reflexivity|]. split; [|reflexivity].
  now apply (H (v :: d)).
Qed.

(** The theorem at a component in observe mode, for a click on a node with
    the domain [T, F]. *)
Lemma observation_panel_witness :
  BayesNetInteractor.panel_shown
    (fold_left BayesNetInteractor.act
       [BayesNetInteractor.Mode "observe";
        BayesNetInteractor.Click
          {| BayesNetInteractor.name := "Rain";
             BayesNetInteractor.domain := Some ["T"; "F"];
             BayesNetInteractor.displaying := None |}]
       {| BayesNetInteractor.isQuerying := false;
          BayesNetInteractor.focus :=
            {| BayesNetInteractor.focus_domain := Some [];
               BayesNetInteractor.checkedNames := Some EmptyString;
               BayesNetInteractor.nodeName := EmptyString |} |})
  = Some true
  /\ BayesNetInteractor.first_value_checked
       (fold_left BayesNetInteractor.act
          [BayesNetInteractor.Mode "observe";
           BayesNetInteractor.Click
             {| BayesNetInteractor.name := "Rain";
                BayesNetInteractor.domain := Some ["T"; "F"];
                BayesNetInteractor.displaying := None |}]
          {| BayesNetInteractor.isQuerying := false;
             BayesNetInteractor.focus :=
               {| BayesNetInteractor.focus_domain := Some [];
                  BayesNetInteractor.checkedNames := Some EmptyString;
                  BayesNetInteractor.nodeName := EmptyString |} |}).
Proof.
  split; [reflexivity|].
  apply (observation_panel
           [BayesNetInteractor.Mode "observe";
            BayesNetInteractor.Click
              {| BayesNetInteractor.name := "Rain";
                 BayesNetInteractor.domain := Some ["T"; "F"];
                 BayesNetInteractor.displaying := None |}]).
  intros d [= <-] Hne. now destruct Hne.
Defined.
